(** * The Lark ingestion pipeline: persistence, resources, extraction, directory

    A shallow embedding of the asynchronous ingestion-and-processing core of
    the Lark extension: the idempotent message upsert and its serialized write
    queue ([persistence.ts]), the resource registration and download worker
    ([resource.ts]), the extraction worker ([extraction.ts]) and the directory
    synchronizer ([directory-sync.ts]), over the schema of [mysql.ts]; and of
    what they rest on: the paginated listings ([lark-api.ts]), the store
    configuration and its table names ([mysql.ts]), the department chains
    read back from the stored directory ([directory-store.ts]) and the
    scheduling of the workers and of the periodic synchronization.

    Conventions of the embedding.
    - A table is the list of its rows.  Key columns compare by string
      equality (a binary collation).
    - [INSERT ... ON DUPLICATE KEY UPDATE] on a table with one unique key
      updates the row holding that key, or appends a new row; a multi-row
      insert treats its rows in order.
    - An [async] function that can throw returns a [result]; loops whose
      termination depends on the environment take fuel and return [None] when
      it runs out.
    - What the platform, the file system and the extraction engines answer is
      given by a record of functions; a function that can answer differently
      from one call to the next takes the tick of the call as its first
      argument.
    - JavaScript numbers that hold sizes, counters and timestamps are
      integers ([Z]).
    - Statements on the connection pool outside the directory transaction are
      taken to succeed, and [resolveLarkMySqlContext] to find a configured
      store.

    Part I holds the definitions, Part II the statements and proofs. *)

From Stdlib Require Import ZArith String Ascii List Lia Permutation Sorted.
From stdpp Require Import base option list gmap strings pretty.

#[local] Open Scope string_scope.
#[local] Open Scope list_scope.
#[local] Open Scope Z_scope.

(** * Part I: the model *)

(** ** Outcomes of fallible calls *)

Inductive result (A : Type) : Type :=
| Ok (a : A)
| Throw (e : string).
Arguments Ok {A} a.
Arguments Throw {A} e.

(** ** JavaScript truthiness of optional strings and numbers *)

Definition truthy_string (o : option string) : bool :=
  match o with
  | Some s => negb (bool_decide (s = ""))
  | None => false
  end.

Definition truthy_number (o : option Z) : bool :=
  match o with
  | Some z => negb (bool_decide (z = 0))
  | None => false
  end.

(** [a > b] on an optional number that was tested truthy first. *)
Definition exceeds (o : option Z) (limit : Z) : bool :=
  match o with
  | Some z => truthy_number o && bool_decide (limit < z)
  | None => false
  end.

(** ** Strings *)

(** [toLowerCase] on the ASCII letters; other bytes are kept. *)
Definition lower_ascii (c : ascii) : ascii :=
  let n := nat_of_ascii c in
  if (Nat.leb 65 n && Nat.leb n 90)%bool then ascii_of_nat (n + 32) else c.

Fixpoint toLowerCase (s : string) : string :=
  match s with
  | EmptyString => EmptyString
  | String c s' => String (lower_ascii c) (toLowerCase s')
  end.

Fixpoint starts_with (p s : string) : bool :=
  match p, s with
  | EmptyString, _ => true
  | String a p', String b s' => bool_decide (a = b) && starts_with p' s'
  | String _ _, EmptyString => false
  end.

Definition endsWith (s suffix : string) : bool :=
  starts_with (String.rev suffix) (String.rev s).

Fixpoint join (sep : string) (l : list string) : string :=
  match l with
  | [] => ""
  | [x] => x
  | x :: l' => x +:+ sep +:+ join sep l'
  end.

(** ** Store primitives shared by all tables *)

Module Store.

(** [INSERT ... ON DUPLICATE KEY UPDATE] of one row: [dup] tells whether an
    existing row holds the unique key of the inserted row, [upd] applies the
    [UPDATE] clause to it, [new] is the row inserted otherwise. *)
Fixpoint insert_on_duplicate_key_update {A : Type}
    (dup : A -> bool) (upd : A -> A) (new : A) (rows : list A) : list A :=
  match rows with
  | [] => [new]
  | r :: rs =>
      if dup r then upd r :: rs
      else r :: insert_on_duplicate_key_update dup upd new rs
  end.

(** [UPDATE ... SET ... WHERE cond]. *)
Definition update_where {A : Type} (cond : A -> bool) (upd : A -> A) (rows : list A)
  : list A :=
  map (fun r => if cond r then upd r else r) rows.

(** [DELETE FROM ... WHERE cond]. *)
Definition delete_where {A : Type} (cond : A -> bool) (rows : list A) : list A :=
  List.filter (fun r => negb (cond r)) rows.

(** [SELECT COUNT( * ) ... WHERE p]. *)
Definition count_where {A : Type} (p : A -> bool) (rows : list A) : nat :=
  length (List.filter p rows).

(** [ORDER BY key ASC], rows with equal keys in table order. *)
Fixpoint insert_by {A : Type} (key : A -> Z) (x : A) (l : list A) : list A :=
  match l with
  | [] => [x]
  | y :: l' => if (key x <=? key y)%Z then x :: y :: l' else y :: insert_by key x l'
  end.

Definition order_by {A : Type} (key : A -> Z) (l : list A) : list A :=
  foldr (insert_by key) [] l.

End Store.

(** ** Parsed JSON

    What [JSON.parse] answers.  An object holds each of its keys once; a
    number is an integer, or a value that [Number.isFinite] refuses. *)

Module Json.

Inductive number : Type :=
| Finite (z : Z)
| NotFinite.

Inductive t : Type :=
| Null
| Bool (b : bool)
| Number (n : number)
| Str (s : string)
| Array (items : list t)
| Object (fields : list (string * t)).

(** [value[key]], for a key that is not an index: [None] is [undefined]. *)
Definition property (key : string) (value : t) : option t :=
  match value with
  | Object fields =>
      snd <$> List.find (fun field => bool_decide (field.1 = key)) fields
  | _ => None
  end.

(** [value && typeof value === "object"] *)
Definition is_object (value : t) : bool :=
  match value with
  | Object _ | Array _ => true
  | _ => false
  end.

End Json.

(** ** Message persistence ([persistence.ts]) *)

Module Persistence.

(** The inbound event ([types.ts], [LarkMessageEvent]). *)
Record SenderId : Type := {
  union_id : option string;
  user_id : option string;
  open_id : option string
}.

Record LarkMention : Type := {
  mention_id : option SenderId;
  mention_name : string
}.

Record Sender : Type := {
  sender_id : option SenderId;
  sender_type : string
}.

Record Message : Type := {
  message_id : string;
  chat_id : string;
  chat_type : string;
  message_type : string;
  content : option string;
  create_time : option string;
  thread_id : option string;
  root_id : option string;
  mentions : option (list LarkMention)
}.

Record LarkMessageEvent : Type := {
  tenant_key : option string;
  sender : Sender;
  message : Message
}.

(** A row of the message table ([mysql.ts], table [lark_message]); its only
    unique key besides the primary key is [uniq_message_id (message_id)]. *)
Record MessageRow : Type := {
  row_id : Z;
  row_message_id : string;
  row_chat_id : string;
  row_chat_type : string;
  row_message_type : string;
  row_sender_type : option string;
  row_sender_open_id : option string;
  row_sender_user_id : option string;
  row_sender_union_id : option string;
  row_tenant_key : option string;
  row_thread_id : option string;
  row_root_id : option string;
  row_content : option string;
  row_text_content : option string;
  row_create_time_ms : option Z;
  row_dedupe_hash : string;
  row_raw_event : string;
  row_created_at : Z
}.

Record MessageTable : Type := {
  rows : list MessageRow;
  auto_increment : Z
}.

(** What the module calls and does not define: [JSON.stringify] on an event,
    the hex SHA-256 digest of a string, [Number] restricted to finite values,
    the two helpers of [content.ts]; and the chat and user tables, whose
    state and whose answer to the two upserts that precede the message upsert
    (a new state, or a throw) are the store's. *)
Record Runtime : Type := {
  JSON_stringify : LarkMessageEvent -> string;
  sha256_hex : string -> string;
  Number_finite : string -> option Z;
  parseTextContent : string -> option string;
  stripMentionTags : string -> string;
  OtherTables : Type;
  exec_chat_upsert :
    string -> string -> option string -> option Z -> OtherTables -> result OtherTables;
  exec_user_upsert :
    option string -> option string -> option string -> option string -> string ->
    OtherTables -> result OtherTables
}.

Record Db (rt : Runtime) : Type := {
  others : OtherTables rt;
  message_table : MessageTable
}.
Arguments others {rt} d.
Arguments message_table {rt} d.

Definition parseCreateTimeMs (rt : Runtime) (raw : option string) : option Z :=
  match raw with
  | None => None
  | Some s => if bool_decide (s = "") then None else Number_finite rt s
  end.

Definition computeDedupeHash (rt : Runtime) (messageId payload : string) : string :=
  sha256_hex rt (messageId +:+ ":" +:+ payload).

Definition no_sender_id : SenderId :=
  {| union_id := None; user_id := None; open_id := None |}.

(** The values bound to the sixteen placeholders of the message insert, in a
    row that takes the next [id] and the current time. *)
Definition inserted_row (rt : Runtime) (event : LarkMessageEvent) (id now : Z)
  : MessageRow :=
  let message := message event in
  let sender := sender event in
  let senderId := default no_sender_id (sender_id sender) in
  let rawContent := default "" (content message) in
  let parsedText := parseTextContent rt rawContent in
  let textContent :=
    if truthy_string parsedText then stripMentionTags rt <$> parsedText else None in
  let rawEvent := JSON_stringify rt event in
  {| row_id := id;
     row_message_id := message_id message;
     row_chat_id := chat_id message;
     row_chat_type := chat_type message;
     row_message_type := message_type message;
     row_sender_type := Some (sender_type sender);
     row_sender_open_id := open_id senderId;
     row_sender_user_id := user_id senderId;
     row_sender_union_id := union_id senderId;
     row_tenant_key := tenant_key event;
     row_thread_id := thread_id message;
     row_root_id := root_id message;
     row_content := Some rawContent;
     row_text_content := textContent;
     row_create_time_ms := parseCreateTimeMs rt (create_time message);
     row_dedupe_hash := computeDedupeHash rt (message_id message) rawEvent;
     row_raw_event := rawEvent;
     row_created_at := now |}.

(** The [ON DUPLICATE KEY UPDATE] clause: every column but [id],
    [message_id] and [created_at] takes the inserted value. *)
Definition on_duplicate_update (v old : MessageRow) : MessageRow :=
  {| row_id := row_id old;
     row_message_id := row_message_id old;
     row_chat_id := row_chat_id v;
     row_chat_type := row_chat_type v;
     row_message_type := row_message_type v;
     row_sender_type := row_sender_type v;
     row_sender_open_id := row_sender_open_id v;
     row_sender_user_id := row_sender_user_id v;
     row_sender_union_id := row_sender_union_id v;
     row_tenant_key := row_tenant_key v;
     row_thread_id := row_thread_id v;
     row_root_id := row_root_id v;
     row_content := row_content v;
     row_text_content := row_text_content v;
     row_create_time_ms := row_create_time_ms v;
     row_dedupe_hash := row_dedupe_hash v;
     row_raw_event := row_raw_event v;
     row_created_at := row_created_at old |}.

Definition holds_message_id (mid : string) (r : MessageRow) : bool :=
  bool_decide (row_message_id r = mid).

(** The third statement of [persistMessage]. *)
Definition upsert_message (rt : Runtime) (now : Z) (event : LarkMessageEvent)
    (t : MessageTable) : MessageTable :=
  let v := inserted_row rt event (auto_increment t) now in
  {| rows := Store.insert_on_duplicate_key_update
               (holds_message_id (row_message_id v)) (on_duplicate_update v) v (rows t);
     auto_increment := auto_increment t + 1 |}.

Definition hasSenderId (event : LarkMessageEvent) : bool :=
  let senderId := default no_sender_id (sender_id (sender event)) in
  truthy_string (open_id senderId) || truthy_string (user_id senderId)
  || truthy_string (union_id senderId).

(** [persistMessage]: three statements on the pool, no transaction; a throw
    keeps the effects of the statements already run.  [now] is the time of
    the store when the message statement runs. *)
Definition persistMessage (rt : Runtime) (now : Z) (event : LarkMessageEvent)
    (db : Db rt) : result unit * Db rt :=
  let message := message event in
  let senderId := default no_sender_id (sender_id (sender event)) in
  let tenantKey := tenant_key event in
  let createTimeMs := parseCreateTimeMs rt (create_time message) in
  match exec_chat_upsert rt (chat_id message) (chat_type message) tenantKey createTimeMs
                         (others db) with
  | Throw e => (Throw e, db)
  | Ok o1 =>
      let user_step :=
        if hasSenderId event then
          exec_user_upsert rt (open_id senderId) (user_id senderId) (union_id senderId)
                           tenantKey (sender_type (sender event)) o1
        else Ok o1 in
      match user_step with
      | Throw e => (Throw e, {| others := o1; message_table := message_table db |})
      | Ok o2 =>
          (Ok tt, {| others := o2;
                     message_table := upsert_message rt now event (message_table db) |})
      end
  end.

(** The unique key [uniq_message_id]. *)
Definition uniq_message_id (t : MessageTable) : Prop :=
  NoDup (map row_message_id (rows t)).

Definition rows_with_id (mid : string) (t : MessageTable) : nat :=
  Store.count_where (holds_message_id mid) (rows t).

(** *** The serialized write queue

    A promise is modelled by its settlement: the logical time at which it
    settles and how.  A reaction attached at time [now] to a promise runs
    when both have happened, at [max (settles_at p) now]; the microtask hops
    between them take no time. *)

Inductive settled : Type :=
| Fulfilled
| Rejected (err : string).

Record Promise : Type := {
  settles_at : nat;
  outcome : settled
}.

Definition Promise_resolve (now : nat) : Promise :=
  {| settles_at := now; outcome := Fulfilled |}.

(** [LarkRuntimeEnv]: the optional error sink, which may itself throw. *)
Record LarkRuntimeEnv : Type := {
  error : option (string -> result unit)
}.

(** An [async] task: started at time [t], the promise it returns settles
    [fst (run t)] ticks later with outcome [snd (run t)]. *)
Record Task : Type := {
  run : nat -> nat * settled
}.

(** What the queue makes happen, and when.  The number is the rank of the
    [enqueueWrite] call among all calls. *)
Inductive Event : Type :=
| Started (key : string) (call : nat) (time : nat)
| Settled (key : string) (call : nat) (time : nat) (how : settled)
| Reported (key : string) (call : nat) (time : nat) (text : string).

Record Queues : Type := {
  writeQueues : gmap string Promise;
  calls_made : nat;
  schedule : list Event
}.

Definition no_queues : Queues :=
  {| writeQueues := ∅; calls_made := 0; schedule := [] |}.

(** [p.catch(() => undefined)] *)
Definition catch_undefined (now : nat) (p : Promise) : Promise :=
  {| settles_at := Nat.max (settles_at p) now; outcome := Fulfilled |}.

(** [p.then(task)] *)
Definition then_task (now : nat) (key : string) (call : nat) (task : Task) (p : Promise)
  : Promise * list Event :=
  let at_ := Nat.max (settles_at p) now in
  match outcome p with
  | Rejected e => ({| settles_at := at_; outcome := Rejected e |}, [])
  | Fulfilled =>
      let '(duration, how) := run task at_ in
      ({| settles_at := (at_ + duration)%nat; outcome := how |},
       [Started key call at_; Settled key call (at_ + duration)%nat how])
  end.

(** [p.catch((err) => { params.env?.error?.(`[lark] mysql write failed: ...`) })] *)
Definition catch_report (now : nat) (key : string) (call : nat)
    (env : option LarkRuntimeEnv) (p : Promise) : Promise * list Event :=
  let at_ := Nat.max (settles_at p) now in
  match outcome p with
  | Fulfilled => ({| settles_at := at_; outcome := Fulfilled |}, [])
  | Rejected e =>
      let text := "[lark] mysql write failed: " +:+ e in
      match env ≫= error with
      | None => ({| settles_at := at_; outcome := Fulfilled |}, [])
      | Some sink =>
          ({| settles_at := at_;
              outcome := match sink text with
                         | Ok _ => Fulfilled
                         | Throw e' => Rejected e'
                         end |},
           [Reported key call at_ text])
      end
  end.

(** [enqueueWrite], called at time [now]; it returns nothing to its caller. *)
Definition enqueueWrite (now : nat) (key : string) (env : option LarkRuntimeEnv)
    (task : Task) (q : Queues) : unit * Queues :=
  let existing := default (Promise_resolve now) (writeQueues q !! key) in
  let call := calls_made q in
  let p1 := catch_undefined now existing in
  let '(p2, ev2) := then_task now key call task p1 in
  let '(next, ev3) := catch_report now key call env p2 in
  (tt, {| writeQueues := <[key := next]> (writeQueues q);
          calls_made := S call;
          schedule := schedule q ++ ev2 ++ ev3 |}).

(** [enqueueLarkMessagePersist]: [context] is what [resolveLarkMySqlContext]
    answers for the account (its [key]), [task] the closure that ensures the
    schema and persists the event. *)
Definition enqueueLarkMessagePersist (now : nat) (context : option string)
    (env : option LarkRuntimeEnv) (task : Task) (q : Queues) : unit * Queues :=
  match context with
  | None => (tt, q)
  | Some key => enqueueWrite now key env task q
  end.

(** A sequence of [enqueueWrite] calls, in call order. *)
Record Call : Type := {
  call_time : nat;
  call_key : string;
  call_env : option LarkRuntimeEnv;
  call_task : Task
}.

Definition enqueue_all (calls : list Call) (q : Queues) : Queues :=
  fold_left
    (fun q c => snd (enqueueWrite (call_time c) (call_key c) (call_env c) (call_task c) q))
    calls q.

(** *** Vocabulary for the schedule of a sequence of calls *)

(** When the task of call [c] settles, and how, if it starts at [s]. *)
Definition finish (c : Call) (s : nat) : nat := (s + fst (run (call_task c) s))%nat.
Definition ending (c : Call) (s : nat) : settled := snd (run (call_task c) s).

Definition event_call (ev : Event) : nat :=
  match ev with
  | Started _ call _ => call
  | Settled _ call _ _ => call
  | Reported _ call _ _ => call
  end.

(** No call before the [j]-th has the key [k]. *)
Definition none_before (calls : list Call) (k : string) (j : nat) : Prop :=
  forall i ci, (i < j)%nat -> calls !! i = Some ci -> call_key ci <> k.

(** The [i]-th call is the last one before the [j]-th with the key [k]. *)
Definition last_before (calls : list Call) (k : string) (j i : nat) : Prop :=
  (i < j)%nat
  /\ (exists ci, calls !! i = Some ci /\ call_key ci = k)
  /\ forall i' ci', (i < i' < j)%nat -> calls !! i' = Some ci' -> call_key ci' <> k.

(** When the task of the [j]-th call [c] starts: at the time of the call if
    its key is new, else at that time or when the task of the last call with
    its key settles, whichever comes last. *)
Definition start_rule (calls : list Call) (sched : list Event) (j : nat) (c : Call)
    (s : nat) : Prop :=
  (none_before calls (call_key c) j /\ s = call_time c)
  \/ (exists i ci si,
        last_before calls (call_key c) j i
        /\ calls !! i = Some ci
        /\ Started (call_key c) i si ∈ sched
        /\ s = Nat.max (finish ci si) (call_time c)).

(** What holds of the queues after a sequence of calls. *)
Record consistent (calls : list Call) (q : Queues) : Prop := {
  c_made : calls_made q = length calls;
  c_fresh : forall ev, ev ∈ schedule q -> (event_call ev < length calls)%nat;
  c_started :
    forall j c, calls !! j = Some c ->
      exists s,
        Started (call_key c) j s ∈ schedule q
        /\ Settled (call_key c) j (finish c s) (ending c s) ∈ schedule q
        /\ start_rule calls (schedule q) j c s
        /\ (forall e sink,
              ending c s = Rejected e -> call_env c ≫= error = Some sink ->
              Reported (call_key c) j (finish c s) ("[lark] mysql write failed: " +:+ e)
              ∈ schedule q);
  c_one_start :
    forall k k' j s s',
      Started k j s ∈ schedule q -> Started k' j s' ∈ schedule q -> k = k' /\ s = s';
  c_one_end :
    forall k k' j f f' o o',
      Settled k j f o ∈ schedule q -> Settled k' j f' o' ∈ schedule q ->
      k = k' /\ f = f' /\ o = o';
  c_tail :
    forall k,
      match writeQueues q !! k with
      | None => none_before calls k (length calls)
      | Some p =>
          exists i ci s,
            last_before calls k (length calls) i
            /\ calls !! i = Some ci
            /\ Started k i s ∈ schedule q
            /\ settles_at p = finish ci s
      end
}.

(** *** Example data *)

(** A runtime to run examples on: the payload is the message content, the
    digest is the text it is given, and the chat and user upserts succeed. *)
Definition example_runtime : Runtime :=
  {| JSON_stringify := fun e => default "" (content (message e));
     sha256_hex := fun s => s;
     Number_finite := fun _ => None;
     parseTextContent := fun _ => None;
     stripMentionTags := fun s => s;
     OtherTables := unit;
     exec_chat_upsert := fun _ _ _ _ o => Ok o;
     exec_user_upsert := fun _ _ _ _ _ o => Ok o |}.

Definition example_event (tenant : string) (text : string) : LarkMessageEvent :=
  {| tenant_key := Some tenant;
     sender := {| sender_id := None; sender_type := "user" |};
     message := {| message_id := "om_1"; chat_id := "oc_1"; chat_type := "group";
                   message_type := "text"; content := Some text; create_time := None;
                   thread_id := None; root_id := None; mentions := None |} |}.

Definition empty_db : Db example_runtime :=
  Build_Db example_runtime tt {| rows := []; auto_increment := 1 |}.

Definition persisted (now : Z) (event : LarkMessageEvent) (db : Db example_runtime)
  : Db example_runtime :=
  snd (persistMessage example_runtime now event db).

(** Three calls: a write on [db1] that takes 5 ticks and rejects, a second
    write on [db1] made while the first is running, and a write on [db2]. *)
Definition example_sink : LarkRuntimeEnv := {| error := Some (fun _ => Ok tt) |}.

Definition example_calls : list Call :=
  [ {| call_time := 0%nat; call_key := "db1"; call_env := Some example_sink;
       call_task := {| run := fun _ => (5%nat, Rejected "boom") |} |};
    {| call_time := 1%nat; call_key := "db1"; call_env := Some example_sink;
       call_task := {| run := fun _ => (2%nat, Fulfilled) |} |};
    {| call_time := 1%nat; call_key := "db2"; call_env := None;
       call_task := {| run := fun _ => (1%nat, Fulfilled) |} |} ].


(** *** Histories of persisted events *)

(** A store whose message table is empty. *)
Definition fresh (rt : Runtime) (o : OtherTables rt) : Db rt :=
  {| others := o; message_table := {| rows := []; auto_increment := 1 |} |}.

(** The calls of [persistMessage] that the write queue of a store runs one
    after the other, each with the time of the store when it runs; the
    answer holds the calls that returned normally, in order. *)
Fixpoint persist_all (rt : Runtime) (calls : list (Z * LarkMessageEvent)) (db : Db rt)
  : list (Z * LarkMessageEvent) * Db rt :=
  match calls with
  | [] => ([], db)
  | (now, event) :: rest =>
      let '(answer, db1) := persistMessage rt now event db in
      let '(persisted, db') := persist_all rt rest db1 in
      (match answer with
       | Ok _ => (now, event) :: persisted
       | Throw _ => persisted
       end, db')
  end.

Definition about (mid : string) (call : Z * LarkMessageEvent) : bool :=
  bool_decide (message_id (message (snd call)) = mid).

(** The row of a message id, if any. *)
Definition message_row (mid : string) (t : MessageTable) : option MessageRow :=
  List.find (holds_message_id mid) (rows t).

(** What the table holds for [mid] once the events [persisted] are stored:
    the row inserted for the first of them that bears [mid], updated with the
    last one. *)
Definition reflects (rt : Runtime) (persisted : list (Z * LarkMessageEvent)) (t : MessageTable) : Prop :=
  uniq_message_id t
  /\ forall mid : string,
       match List.filter (about mid) persisted with
       | [] => message_row mid t = None
       | (now0, first) :: later =>
           exists id : Z,
             message_row mid t
             = Some (on_duplicate_update
                       (inserted_row rt (snd (List.last later (now0, first))) 0 0)
                       (inserted_row rt first id now0))
       end.

End Persistence.

(** ** Resource registration and the download worker ([resource.ts]) *)

Module Resource.

Inductive LarkResourceType : Type := image | file | audio | media | doc.

Definition type_name (t : LarkResourceType) : string :=
  match t with
  | image => "image"
  | file => "file"
  | audio => "audio"
  | media => "media"
  | doc => "doc"
  end.

(** An attachment found in a message ([LarkMessageResource]). *)
Module Found.
Record t : Type := {
  messageId : string;
  chatId : string;
  resourceType : LarkResourceType;
  fileKey : string;
  fileName : option string;
  mimeType : option string;
  sizeBytes : option Z
}.
End Found.

(** What the worker reads of a selected row ([ResourceRow]). *)
Record ResourceRow : Type := {
  id : Z;
  messageId : string;
  chatId : string;
  resourceType : string;
  fileKey : string;
  fileName : option string;
  sizeBytes : option Z;
  attempts : Z
}.

(** A row of the resource table ([mysql.ts], table [message_resource]), with
    the unique key [uniq_message_resource (tenant_key, message_id, file_key)].
    The column [updated_at] is not read by this module and is left out. *)
Module Col.
Record row : Type := {
  id : Z;
  tenant_key : string;
  message_id : string;
  chat_id : string;
  resource_type : string;
  file_key : string;
  file_name : option string;
  mime_type : option string;
  size_bytes : option Z;
  status : string;
  storage_path : option string;
  storage_url : option string;
  error : option string;
  attempts : Z;
  last_attempt_at : option Z;
  created_at : Z
}.
End Col.

Definition MAX_ATTEMPTS : Z := 3.
Definition DEFAULT_MAX_RESOURCE_MB : Z := 100.
Definition DOWNLOAD_BATCH_SIZE : nat := 10.

(** The answer to [client.im.messageResource.get]: the [content-length]
    header when it is a string, and what [writeFile] does with a path. *)
Record Response : Type := {
  content_length : option string;
  writeFile : string -> result unit
}.

(** The collaborators of the worker. *)
Record Platform : Type := {
  clock : nat -> Z;
  trim : string -> string;
  path_join : string -> string -> string;
  Number : string -> option Z;
  ensureLarkResourceDir : nat -> result string;
  mkdir : nat -> string -> result unit;
  messageResource_get : nat -> string -> string -> string -> string -> result Response
}.

(** What the worker does besides answering, in order. *)
Inductive Effect : Type :=
| StatusWritten (id : Z) (status : string) (attempts : option Z)
| TransferRequested (id : Z)
| BodyWritten (id : Z) (path : string)
| ExtractionScheduled.

Record World : Type := {
  table : list Col.row;
  auto_increment : Z;
  tick : nat;
  effects : list Effect
}.

(** The characters that [sanitizeFileName] replaces: backslash, slash, colon,
    star, question mark, double quote, angle brackets and bar. *)
Definition unsafe_char (c : ascii) : bool :=
  bool_decide (c ∈ map ascii_of_nat [92; 47; 58; 42; 63; 34; 60; 62; 124]%nat).

Fixpoint replace_unsafe_runs (in_run : bool) (s : string) : string :=
  match s with
  | EmptyString => EmptyString
  | String c s' =>
      if unsafe_char c then
        if in_run then replace_unsafe_runs true s'
        else String "_" (replace_unsafe_runs true s')
      else String c (replace_unsafe_runs false s')
  end.

Definition sanitizeFileName (pl : Platform) (raw : string) : string :=
  let cleaned := trim pl (replace_unsafe_runs false raw) in
  if bool_decide (cleaned = "") then "resource" else cleaned.

Definition same_key (tenantKey messageId fileKey : string) (r : Col.row) : bool :=
  bool_decide (Col.tenant_key r = tenantKey)
  && bool_decide (Col.message_id r = messageId)
  && bool_decide (Col.file_key r = fileKey).

(** The row that [upsertResources] inserts for a found attachment. *)
Definition registered_row (tenantKey : string) (res : Found.t) (id now : Z) : Col.row :=
  {| Col.id := id;
     Col.tenant_key := tenantKey;
     Col.message_id := Found.messageId res;
     Col.chat_id := Found.chatId res;
     Col.resource_type := type_name (Found.resourceType res);
     Col.file_key := Found.fileKey res;
     Col.file_name := Found.fileName res;
     Col.mime_type := Found.mimeType res;
     Col.size_bytes := Found.sizeBytes res;
     Col.status := match Found.resourceType res with doc => "linked" | _ => "pending" end;
     Col.storage_path := None;
     Col.storage_url := None;
     Col.error := None;
     Col.attempts := 0;
     Col.last_attempt_at := None;
     Col.created_at := now |}.

(** Its [ON DUPLICATE KEY UPDATE] clause: [file_name], [mime_type] and
    [size_bytes] take the inserted values. *)
Definition refresh_metadata (res : Found.t) (old : Col.row) : Col.row :=
  {| Col.id := Col.id old;
     Col.tenant_key := Col.tenant_key old;
     Col.message_id := Col.message_id old;
     Col.chat_id := Col.chat_id old;
     Col.resource_type := Col.resource_type old;
     Col.file_key := Col.file_key old;
     Col.file_name := Found.fileName res;
     Col.mime_type := Found.mimeType res;
     Col.size_bytes := Found.sizeBytes res;
     Col.status := Col.status old;
     Col.storage_path := Col.storage_path old;
     Col.storage_url := Col.storage_url old;
     Col.error := Col.error old;
     Col.attempts := Col.attempts old;
     Col.last_attempt_at := Col.last_attempt_at old;
     Col.created_at := Col.created_at old |}.

(** One row of the multi-row insert of [upsertResources]. *)
Definition upsert_resource (tenantKey : string) (now : Z)
    (acc : list Col.row * Z) (res : Found.t) : list Col.row * Z :=
  let '(rows, next_id) := acc in
  (Store.insert_on_duplicate_key_update
     (same_key tenantKey (Found.messageId res) (Found.fileKey res))
     (refresh_metadata res)
     (registered_row tenantKey res next_id now)
     rows,
   next_id + 1).

Definition upsertResources (pl : Platform) (tenantKey : string)
    (resources : list Found.t) (w : World) : World :=
  match resources with
  | [] => w
  | _ =>
      let '(rows, next_id) :=
        fold_left (upsert_resource tenantKey (clock pl (tick w))) resources
                  (table w, auto_increment w) in
      {| table := rows;
         auto_increment := next_id;
         tick := S (tick w);
         effects := effects w |}
  end.

(** The [WHERE] clause of [fetchPendingResources]. *)
Definition selectable (tenantKey : string) (r : Col.row) : bool :=
  bool_decide (Col.tenant_key r = tenantKey)
  && (bool_decide (Col.status r = "pending") || bool_decide (Col.status r = "failed"))
  && bool_decide (Col.attempts r < MAX_ATTEMPTS).

Definition to_ResourceRow (r : Col.row) : ResourceRow :=
  {| id := Col.id r;
     messageId := Col.message_id r;
     chatId := Col.chat_id r;
     resourceType := Col.resource_type r;
     fileKey := Col.file_key r;
     fileName := Col.file_name r;
     sizeBytes := Col.size_bytes r;
     attempts := Col.attempts r |}.

Definition fetchPendingResources (tenantKey : string) (w : World) : list ResourceRow :=
  map to_ResourceRow
      (take DOWNLOAD_BATCH_SIZE
            (Store.order_by Col.created_at (List.filter (selectable tenantKey) (table w)))).

(** The [SET] clause of [updateResourceStatus]. *)
Definition set_status (status : string) (storagePath storageUrl error : option string)
    (attempts : option Z) (now : Z) (old : Col.row) : Col.row :=
  {| Col.id := Col.id old;
     Col.tenant_key := Col.tenant_key old;
     Col.message_id := Col.message_id old;
     Col.chat_id := Col.chat_id old;
     Col.resource_type := Col.resource_type old;
     Col.file_key := Col.file_key old;
     Col.file_name := Col.file_name old;
     Col.mime_type := Col.mime_type old;
     Col.size_bytes := Col.size_bytes old;
     Col.status := status;
     Col.storage_path := storagePath;
     Col.storage_url := storageUrl;
     Col.error := error;
     Col.attempts := default (Col.attempts old) attempts;
     Col.last_attempt_at := Some now;
     Col.created_at := Col.created_at old |}.

Definition is_row (tenantKey : string) (id : Z) (r : Col.row) : bool :=
  bool_decide (Col.tenant_key r = tenantKey) && bool_decide (Col.id r = id).

Definition updateResourceStatus (pl : Platform) (tenantKey : string) (id : Z)
    (status : string) (storagePath storageUrl error : option string)
    (attempts : option Z) (w : World) : World :=
  {| table := Store.update_where (is_row tenantKey id)
                (set_status status storagePath storageUrl error attempts
                            (clock pl (tick w)))
                (table w);
     auto_increment := auto_increment w;
     tick := S (tick w);
     effects := effects w ++ [StatusWritten id status attempts] |}.

Definition advance (e : list Effect) (w : World) : World :=
  {| table := table w;
     auto_increment := auto_increment w;
     tick := S (tick w);
     effects := effects w ++ e |}.

Definition size_error (n : Z) : string :=
  "size " +:+ pretty n +:+ " exceeds limit".

(** [downloadResource]. *)
Definition downloadResource (pl : Platform) (tenantKey : string)
    (resource : ResourceRow) (maxBytes : Z) (w : World) : result unit * World :=
  if bool_decide (resourceType resource = "doc") then (Ok tt, w) else
  match ensureLarkResourceDir pl (tick w) with
  | Throw e => (Throw e, advance [] w)
  | Ok baseDir =>
  let w := advance [] w in
  let safeName := sanitizeFileName pl (default (fileKey resource) (fileName resource)) in
  let messageDir := path_join pl baseDir (messageId resource) in
  match mkdir pl (tick w) messageDir with
  | Throw e => (Throw e, advance [] w)
  | Ok _ =>
  let w := advance [] w in
  let filePath := path_join pl messageDir safeName in
  if exceeds (sizeBytes resource) maxBytes then
    (Ok tt,
     updateResourceStatus pl tenantKey (id resource) "too_large" None None
       (Some (size_error (default 0 (sizeBytes resource)))) None w)
  else
  match messageResource_get pl (tick w) (messageId resource) (fileKey resource)
                            (resourceType resource) tenantKey with
  | Throw e => (Throw e, advance [TransferRequested (id resource)] w)
  | Ok response =>
  let w := advance [TransferRequested (id resource)] w in
  let contentLength := content_length response ≫= Number pl in
  if exceeds contentLength maxBytes then
    (Ok tt,
     updateResourceStatus pl tenantKey (id resource) "too_large" None None
       (Some (size_error (default 0 contentLength))) None w)
  else
  match writeFile response filePath with
  | Throw e => (Throw e, advance [BodyWritten (id resource) filePath] w)
  | Ok _ =>
  let w := advance [BodyWritten (id resource) filePath] w in
  let w := updateResourceStatus pl tenantKey (id resource) "ready"
             (Some filePath) (Some filePath) None None w in
  (Ok tt, advance [ExtractionScheduled] w)
  end end end end.

(** The account, as far as the worker reads it. *)
Record Account : Type := {
  accountId : string;
  resourceMaxMb : option Z
}.

(** [resolveLarkTenantKey] ([ids.ts]). *)
Definition resolveLarkTenantKey (pl : Platform) (account : Account)
    (tenantKey : option string) : string :=
  let trimmed := trim pl <$> tenantKey in
  if truthy_string trimmed then default "" trimmed else accountId account.

Definition max_bytes (account : Account) : Z :=
  let maxMb := default DEFAULT_MAX_RESOURCE_MB (resourceMaxMb account) in
  Z.max 1 maxMb * 1024 * 1024.

(** The body of the [for] loop of [processResourceQueue]. *)
Definition process_resource (pl : Platform) (tenantKey : string) (maxBytes : Z)
    (w : World) (resource : ResourceRow) : World :=
  let w1 := updateResourceStatus pl tenantKey (id resource) "downloading" None None None
              (Some (attempts resource + 1)) w in
  match downloadResource pl tenantKey resource maxBytes w1 with
  | (Ok _, w2) => w2
  | (Throw e, w2) =>
      updateResourceStatus pl tenantKey (id resource) "failed" None None (Some e) None w2
  end.

Definition process_batch (pl : Platform) (tenantKey : string) (maxBytes : Z)
    (w : World) (pending : list ResourceRow) : World :=
  fold_left (process_resource pl tenantKey maxBytes) pending w.

(** The [while] loop of [processResourceQueue]: [None] when the fuel runs out
    before a selection comes back empty. *)
Fixpoint drain (fuel : nat) (pl : Platform) (tenantKey : string) (maxBytes : Z)
    (w : World) : option World :=
  match fuel with
  | O => None
  | S fuel' =>
      match fetchPendingResources tenantKey w with
      | [] => Some w
      | pending => drain fuel' pl tenantKey maxBytes (process_batch pl tenantKey maxBytes w pending)
      end
  end.

Definition processResourceQueue (fuel : nat) (pl : Platform) (account : Account)
    (w : World) : option World :=
  drain fuel pl (resolveLarkTenantKey pl account None) (max_bytes account) w.

(** The row of the table with a given [id], if any. *)
Definition row_of (id : Z) (w : World) : option Col.row :=
  List.find (fun r => bool_decide (Col.id r = id)) (table w).

(** Retries left to the selectable rows of a tenant: what decreases along
    the loop. *)
Definition retries_left (tenantKey : string) (rows : list Col.row) : nat :=
  foldr (fun r n => ((if selectable tenantKey r
                      then Z.to_nat (MAX_ATTEMPTS - Col.attempts r) else 0) + n)%nat)
        0%nat rows.

(** [r'] is [r] up to the three metadata columns. *)
Definition same_but_metadata (r r' : Col.row) : Prop :=
  Col.id r' = Col.id r
  /\ Col.tenant_key r' = Col.tenant_key r
  /\ Col.message_id r' = Col.message_id r
  /\ Col.chat_id r' = Col.chat_id r
  /\ Col.resource_type r' = Col.resource_type r
  /\ Col.file_key r' = Col.file_key r
  /\ Col.status r' = Col.status r
  /\ Col.storage_path r' = Col.storage_path r
  /\ Col.storage_url r' = Col.storage_url r
  /\ Col.error r' = Col.error r
  /\ Col.attempts r' = Col.attempts r
  /\ Col.last_attempt_at r' = Col.last_attempt_at r
  /\ Col.created_at r' = Col.created_at r.

Definition registered (tenantKey : string) (res : Found.t) (rows : list Col.row) : bool :=
  existsb (same_key tenantKey (Found.messageId res) (Found.fileKey res)) rows.

(** A selected row read again with another attempt count. *)
Definition with_attempts (res : ResourceRow) (a : Z) : ResourceRow :=
  {| id := id res;
     messageId := messageId res;
     chatId := chatId res;
     resourceType := resourceType res;
     fileKey := fileKey res;
     fileName := fileName res;
     sizeBytes := sizeBytes res;
     attempts := a |}.

(** The primary key. *)
Definition uniq_id (w : World) : Prop := NoDup (map Col.id (table w)).

(** [res] is what a selection in [w] reads of some selectable row. *)
Definition selected (tenantKey : string) (w : World) (res : ResourceRow) : Prop :=
  exists r, r ∈ table w /\ to_ResourceRow r = res /\ selectable tenantKey r = true.

(** Every call of [downloadResource] on the resource of row [r0] throws. *)
Definition always_fails (pl : Platform) (tenantKey : string) (maxBytes : Z)
    (r0 : Col.row) : Prop :=
  forall a w, exists e w',
    downloadResource pl tenantKey (with_attempts (to_ResourceRow r0) a) maxBytes w
    = (Throw e, w').

(** The row of [r0] along the retries: still the row of the same resource,
    untouched or failed, with no more attempts than the ceiling. *)
Definition retried (tenantKey : string) (r0 : Col.row) (w : World) : Prop :=
  exists r,
    r ∈ table w
    /\ Col.id r = Col.id r0
    /\ Col.tenant_key r = tenantKey
    /\ to_ResourceRow r = with_attempts (to_ResourceRow r0) (Col.attempts r)
    /\ Col.attempts r <= MAX_ATTEMPTS
    /\ (Col.status r = "failed" \/ r = r0).

(** After a turn in world [w'] the row of [r] is [too_large] for good: the
    one row of its id has that status and no storage location, and whenever
    the worker runs again it finds the row as it left it. *)
Definition too_large_for_good (pl : Platform) (tenantKey : string) (maxBytes : Z)
    (r : Col.row) (w' : World) : Prop :=
  exists r',
    r' ∈ table w'
    /\ Col.id r' = Col.id r
    /\ Col.status r' = "too_large"
    /\ Col.storage_path r' = None
    /\ Col.storage_url r' = None
    /\ (forall x, x ∈ table w' -> Col.id x = Col.id r -> x = r')
    /\ (forall fuel w'' x,
          drain fuel pl tenantKey maxBytes w' = Some w'' ->
          x ∈ table w'' -> Col.id x = Col.id r -> x = r').

(** *** Example data *)

(** A platform whose transfers all throw, one that answers a body of 150 MB,
    and a table with one pending image, of unknown size or of 150 MB. *)
Definition example_response : Response :=
  {| content_length := Some "157286400"; writeFile := fun _ => Ok tt |}.

Definition example_platform (get : result Response) : Platform :=
  {| clock := fun n => Z.of_nat n;
     trim := fun s => s;
     path_join := fun a b => a +:+ "/" +:+ b;
     Number := fun s => if bool_decide (s = "157286400") then Some 157286400 else None;
     ensureLarkResourceDir := fun _ => Ok "/state/lark/resources";
     mkdir := fun _ _ => Ok tt;
     messageResource_get := fun _ _ _ _ _ => get |}.

Definition example_row (size : option Z) : Col.row :=
  {| Col.id := 1;
     Col.tenant_key := "acct";
     Col.message_id := "om_1";
     Col.chat_id := "oc_1";
     Col.resource_type := "image";
     Col.file_key := "img_1";
     Col.file_name := None;
     Col.mime_type := None;
     Col.size_bytes := size;
     Col.status := "pending";
     Col.storage_path := None;
     Col.storage_url := None;
     Col.error := None;
     Col.attempts := 0;
     Col.last_attempt_at := None;
     Col.created_at := 0 |}.

Definition example_world (size : option Z) : World :=
  {| table := [example_row size]; auto_increment := 2; tick := 0; effects := [] |}.

Definition example_account : Account :=
  {| accountId := "acct"; resourceMaxMb := None |}.


(** *** Attachments of a message

    [JSON_parse] is [JSON.parse]: [None] when it throws. *)

Definition parseContentJson (JSON_parse : string -> option Json.t) (raw : string)
  : option Json.t :=
  match JSON_parse raw with
  | None => None
  | Some parsed => if Json.is_object parsed then Some parsed else None
  end.

Fixpoint pickString (pl : Platform) (obj : Json.t) (keys : list string) : option string :=
  match keys with
  | [] => None
  | key :: keys' =>
      match Json.property key obj with
      | Some (Json.Str value) =>
          if negb (bool_decide (trim pl value = "")) then Some value
          else pickString pl obj keys'
      | _ => pickString pl obj keys'
      end
  end.

Fixpoint pickNumber (pl : Platform) (obj : Json.t) (keys : list string) : option Z :=
  match keys with
  | [] => None
  | key :: keys' =>
      match Json.property key obj with
      | Some (Json.Number (Json.Finite value)) => Some value
      | Some (Json.Str value) =>
          match Number pl value with
          | Some parsed => Some parsed
          | None => pickNumber pl obj keys'
          end
      | _ => pickNumber pl obj keys'
      end
  end.

(** [a ?? b] *)
Definition or_else {A : Type} (a b : option A) : option A :=
  match a with
  | Some _ => a
  | None => b
  end.

(** The message types whose key names a binary to download as such. *)
Definition binary_type (messageType : string) : option LarkResourceType :=
  if bool_decide (messageType = "file") then Some file
  else if bool_decide (messageType = "audio") then Some audio
  else if bool_decide (messageType = "media") then Some media
  else None.

(** [extractResources]. *)
Definition extractResources (pl : Platform) (JSON_parse : string -> option Json.t)
    (messageId chatId messageType content : string) : list Found.t :=
  match parseContentJson JSON_parse content with
  | None => []
  | Some parsed =>
      let messageType := toLowerCase messageType in
      let imageKey := pickString pl parsed ["image_key"; "imageKey"] in
      let fileKey := pickString pl parsed ["file_key"; "fileKey"] in
      let mediaKey := pickString pl parsed ["media_key"; "mediaKey"] in
      let fileName := pickString pl parsed ["file_name"; "fileName"; "name"] in
      let mimeType := pickString pl parsed ["mime_type"; "mimeType"; "file_type"] in
      let sizeBytes := pickNumber pl parsed ["file_size"; "size"; "fileSize"] in
      let docToken :=
        pickString pl parsed
          ["doc_token"; "docx_token"; "doc_id"; "docx_id"; "doc_uuid"; "doc_key"] in
      let found (kind : LarkResourceType) (key : string) : Found.t :=
        {| Found.messageId := messageId;
           Found.chatId := chatId;
           Found.resourceType := kind;
           Found.fileKey := key;
           Found.fileName := fileName;
           Found.mimeType := mimeType;
           Found.sizeBytes := sizeBytes |} in
      let binaryKey := or_else fileKey mediaKey in
      (if truthy_string imageKey || bool_decide (messageType = "image") then
         match or_else imageKey fileKey with
         | Some fileKeyValue =>
             if bool_decide (fileKeyValue = "") then [] else [found image fileKeyValue]
         | None => []
         end
       else [])
      ++ (match binaryKey with
          | Some key =>
              if bool_decide (key = "") then []
              else
                match binary_type messageType with
                | Some kind => [found kind key]
                | None => if truthy_string imageKey then [] else [found file key]
                end
          | None => []
          end)
      ++ (match docToken with
          | Some token =>
              if bool_decide (token = "") then []
              else
                [ {| Found.messageId := messageId;
                     Found.chatId := chatId;
                     Found.resourceType := doc;
                     Found.fileKey := token;
                     Found.fileName :=
                       or_else fileName (pickString pl parsed ["title"; "doc_title"]);
                     Found.mimeType := None;
                     Found.sizeBytes := None |} ]
          | None => []
          end)
  end.

(** [enqueueLarkMessageResources], up to the registration; the downloads are
    scheduled when it is done. *)
Definition enqueueLarkMessageResources (pl : Platform)
    (JSON_parse : string -> option Json.t) (account : Account)
    (event : Persistence.LarkMessageEvent) (w : World) : World :=
  let message := Persistence.message event in
  let content := default "" (Persistence.content message) in
  let resources :=
    extractResources pl JSON_parse (Persistence.message_id message)
      (Persistence.chat_id message) (Persistence.message_type message) content in
  match resources with
  | [] => w
  | _ =>
      let tenantKey := resolveLarkTenantKey pl account (Persistence.tenant_key event) in
      upsertResources pl tenantKey resources w
  end.

(** *** The states of the resource table

    The table starts empty; attachments are registered ([upsertResources],
    for any tenant) and workers take turns of their loop on rows that a
    selection of their tenant returns ([processResourceQueue]), in any order
    and any number of times. *)
Definition initial_world : World :=
  {| table := []; auto_increment := 1; tick := 0; effects := [] |}.

Inductive reachable (pl : Platform) : World -> Prop :=
| reach_initial : reachable pl initial_world
| reach_register w tenantKey resources :
    reachable pl w -> reachable pl (upsertResources pl tenantKey resources w)
| reach_turn w tenantKey maxBytes resource :
    reachable pl w ->
    selected tenantKey w resource ->
    reachable pl (process_resource pl tenantKey maxBytes w resource).

(** The primary key, with the ids handed out so far below the counter. *)
Definition ids_in_order (w : World) : Prop :=
  uniq_id w /\ forall r, r ∈ table w -> Col.id r < auto_increment w.

(** *** Scheduling the worker

    [downloadInFlight], the callbacks that [setImmediate] holds (by account
    id, oldest first), and the accounts whose worker has started and has not
    settled yet. *)
Record Scheduler : Type := {
  downloadInFlight : gset string;
  immediates : list string;
  running : list string
}.

Definition idle : Scheduler :=
  {| downloadInFlight := ∅; immediates := []; running := [] |}.

(** [scheduleResourceDownloads] for the account [key]. *)
Definition scheduleResourceDownloads (key : string) (s : Scheduler) : Scheduler :=
  if bool_decide (key ∈ downloadInFlight s) then s
  else
    {| downloadInFlight := {[key]} ∪ downloadInFlight s;
       immediates := immediates s ++ [key];
       running := running s |}.

(** The event loop calls the oldest callback: the worker of its account
    starts. *)
Definition run_immediate (s : Scheduler) : Scheduler :=
  match immediates s with
  | [] => s
  | key :: rest =>
      {| downloadInFlight := downloadInFlight s;
         immediates := rest;
         running := running s ++ [key] |}
  end.

(** The worker of [key] settles, fulfilled or rejected: the [finally]
    callback deletes the key. *)
Definition worker_settled (key : string) (s : Scheduler) : Scheduler :=
  if bool_decide (key ∈ running s) then
    {| downloadInFlight := downloadInFlight s ∖ {[key]};
       immediates := immediates s;
       running := List.filter (fun k => negb (bool_decide (k = key))) (running s) |}
  else s.

Inductive SchedulerEvent : Type :=
| Schedule (key : string)
| RunImmediate
| WorkerSettled (key : string).

Definition scheduler_step (s : Scheduler) (ev : SchedulerEvent) : Scheduler :=
  match ev with
  | Schedule key => scheduleResourceDownloads key s
  | RunImmediate => run_immediate s
  | WorkerSettled key => worker_settled key s
  end.

Definition scheduler_run (events : list SchedulerEvent) : Scheduler :=
  fold_left scheduler_step events idle.

(** The workers that wait for the event loop or run. *)
Definition workers (s : Scheduler) : list string := immediates s ++ running s.

(** A row of type [doc] is as its registration left it. *)
Definition untouched_document (r : Col.row) : Prop :=
  Col.resource_type r = "doc" ->
  Col.status r = "linked" /\ Col.attempts r = 0
  /\ Col.storage_path r = None /\ Col.storage_url r = None.

(** A platform whose [trim] removes characters and adds none. *)
Definition trim_removes (pl : Platform) : Prop :=
  forall s c, c ∈ list_ascii_of_string (trim pl s) -> c ∈ list_ascii_of_string s.

(** A registration of two attachments of the message [om_2], an image and a
    linked document, and a run of the worker on a platform whose transfers
    throw. *)
Definition example_found (kind : LarkResourceType) (key : string) : Found.t :=
  {| Found.messageId := "om_2";
     Found.chatId := "oc_1";
     Found.resourceType := kind;
     Found.fileKey := key;
     Found.fileName := None;
     Found.mimeType := None;
     Found.sizeBytes := None |}.

Definition example_registered : World :=
  upsertResources (example_platform (Throw "network down")) "acct"
    [example_found image "img_2"; example_found doc "doccn_1"] initial_world.

(** The content of a file message, parsed. *)
Definition example_parse (raw : string) : option Json.t :=
  if bool_decide (raw = "{file}") then
    Some (Json.Object [("file_key", Json.Str "file_v2_1");
                       ("file_name", Json.Str "notes.docx");
                       ("file_size", Json.Number (Json.Finite 2048))])
  else None.

(** A file message of tenant [t1], received by the account [acct]. *)
Definition example_file_event : Persistence.LarkMessageEvent :=
  {| Persistence.tenant_key := Some "t1";
     Persistence.sender :=
       {| Persistence.sender_id := None; Persistence.sender_type := "user" |};
     Persistence.message :=
       {| Persistence.message_id := "om_3"; Persistence.chat_id := "oc_1";
          Persistence.chat_type := "group"; Persistence.message_type := "file";
          Persistence.content := Some "{file}"; Persistence.create_time := None;
          Persistence.thread_id := None; Persistence.root_id := None;
          Persistence.mentions := None |} |}.

End Resource.

(** ** The extraction worker ([extraction.ts]) *)

Module Extraction.

Record ExtractionTask : Type := {
  resourceId : Z;
  messageId : string;
  resourceType : string;
  storagePath : string;
  fileName : option string
}.

(** The columns of [message_resource] that [listPendingExtractions] reads. *)
Module Res.
Record row : Type := {
  id : Z;
  tenant_key : string;
  message_id : string;
  resource_type : string;
  storage_path : option string;
  file_name : option string;
  status : string;
  updated_at : Z
}.
End Res.

(** A row of [content_extraction], with the unique key
    [uniq_content_resource (tenant_key, resource_id)]. *)
Module Col.
Record row : Type := {
  id : Z;
  tenant_key : string;
  message_id : string;
  resource_id : option Z;
  resource_type : string;
  language : option string;
  text : option string;
  summary : option string;
  model : option string;
  status : string;
  error : option string
}.
End Col.

Definition EXTRACTION_BATCH_SIZE : nat := 5.

(** [account.config.extraction] ([config-schema.ts], [LarkExtractionSchema]). *)
Record OcrConfig : Type := {
  ocr_enabled : option bool;
  ocr_languages : option (list string)
}.

Record AsrConfig : Type := {
  asr_enabled : option bool;
  asr_apiKey : option string;
  asr_model : option string;
  asr_language : option string
}.

Record DocxConfig : Type := {
  docx_enabled : option bool
}.

Record ExtractionConfig : Type := {
  enabled : option bool;
  ocr : option OcrConfig;
  asr : option AsrConfig;
  docx : option DocxConfig
}.

Record Account : Type := {
  accountId : string;
  extraction : option ExtractionConfig
}.

(** The engines and the memory collaborator.  [recognize] answers the text
    of [result.data], if any. *)
Record Capabilities : Type := {
  trim : string -> string;
  recognize : nat -> string -> string -> result (option string);
  runOpenAiAsr :
    nat -> string -> string -> string -> option string -> result (string * string);
  extractDocxText : nat -> string -> result string;
  OPENAI_API_KEY : option string;
  recordLarkMemoryFromExtraction : nat -> string -> string -> string -> result unit
}.

(** A call that reached an engine or the memory collaborator. *)
Inductive Call : Type :=
| OcrCalled (filePath : string)
| AsrCalled (filePath : string)
| DocxCalled (filePath : string)
| MemoryForwarded (tenantKey messageId content : string).

Record World : Type := {
  resources : list Res.row;
  extractions : list Col.row;
  auto_increment : Z;
  tick : nat;
  calls : list Call
}.

Definition advance (c : list Call) (w : World) : World :=
  {| resources := resources w;
     extractions := extractions w;
     auto_increment := auto_increment w;
     tick := S (tick w);
     calls := calls w ++ c |}.

(** [runOcr]. *)
Definition runOcr (caps : Capabilities) (now : nat) (filePath : string)
    (languages : list string) : result (string * string) :=
  let lang := match languages with [] => "eng" | _ => join "+" languages end in
  match recognize caps now filePath lang with
  | Throw e => Throw e
  | Ok data_text => Ok (default "" data_text, "tesseract:" +:+ lang)
  end.

(** The [LEFT JOIN] of [listPendingExtractions] for one resource row: the
    status of each joined extraction row, or one [None] when there is none. *)
Definition joined (w : World) (r : Res.row) : list (option string) :=
  match List.filter (fun e => bool_decide (Col.tenant_key e = Res.tenant_key r)
                              && bool_decide (Col.resource_id e = Some (Res.id r)))
                    (extractions w) with
  | [] => [None]
  | es => map (fun e => Some (Col.status e)) es
  end.

Definition wanted (tenantKey : string) (r : Res.row) (e_status : option string) : bool :=
  bool_decide (Res.tenant_key r = tenantKey)
  && bool_decide (Res.status r = "ready")
  && match e_status with
     | None => true
     | Some s => bool_decide (s = "failed")
     end.

Definition to_task (r : Res.row) : ExtractionTask :=
  {| resourceId := Res.id r;
     messageId := Res.message_id r;
     resourceType := Res.resource_type r;
     storagePath := default "" (Res.storage_path r);
     fileName := Res.file_name r |}.

Definition listPendingExtractions (tenantKey : string) (w : World) : list ExtractionTask :=
  let joined_rows :=
    flat_map (fun r => map (fun _ => r) (List.filter (wanted tenantKey r) (joined w r)))
             (resources w) in
  List.filter
    (fun t => negb (bool_decide (resourceId t = 0)) && negb (bool_decide (storagePath t = "")))
    (map to_task (take EXTRACTION_BATCH_SIZE (Store.order_by Res.updated_at joined_rows))).

Definition same_key (tenantKey : string) (resourceId : Z) (e : Col.row) : bool :=
  bool_decide (Col.tenant_key e = tenantKey)
  && bool_decide (Col.resource_id e = Some resourceId).

(** [upsertExtraction]. *)
Definition upsertExtraction (tenantKey messageId : string) (resourceId : Z)
    (resourceType status : string) (text language model error : option string)
    (w : World) : World :=
  let new :=
    {| Col.id := auto_increment w;
       Col.tenant_key := tenantKey;
       Col.message_id := messageId;
       Col.resource_id := Some resourceId;
       Col.resource_type := resourceType;
       Col.language := language;
       Col.text := text;
       Col.summary := None;
       Col.model := model;
       Col.status := status;
       Col.error := error |} in
  let upd (old : Col.row) :=
    {| Col.id := Col.id old;
       Col.tenant_key := Col.tenant_key old;
       Col.message_id := Col.message_id old;
       Col.resource_id := Col.resource_id old;
       Col.resource_type := Col.resource_type old;
       Col.language := language;
       Col.text := text;
       Col.summary := Col.summary old;
       Col.model := model;
       Col.status := status;
       Col.error := error |} in
  {| resources := resources w;
     extractions :=
       Store.insert_on_duplicate_key_update (same_key tenantKey resourceId) upd new
                                            (extractions w);
     auto_increment := auto_increment w + 1;
     tick := S (tick w);
     calls := calls w |}.

Definition is_false (o : option bool) : bool :=
  match o with
  | Some false => true
  | _ => false
  end.

Definition status_of_text (text : string) : string :=
  if bool_decide (text = "") then "empty" else "ready".

(** The tail shared by the three branches: record the text, and forward it
    to the memory collaborator when it is not empty. *)
Definition record_text (caps : Capabilities) (tenantKey : string) (task : ExtractionTask)
    (resourceType text : string) (language model : option string) (w : World)
  : result unit * World :=
  let w := upsertExtraction tenantKey (messageId task) (resourceId task) resourceType
             (status_of_text text) (Some text) language model None w in
  if bool_decide (text = "") then (Ok tt, w)
  else
    let w' := advance [MemoryForwarded tenantKey (messageId task) text] w in
    match recordLarkMemoryFromExtraction caps (tick w) tenantKey (messageId task) text with
    | Throw e => (Throw e, w')
    | Ok _ => (Ok tt, w')
    end.

(** [processExtractionTask]. *)
Definition processExtractionTask (caps : Capabilities) (account : Account)
    (tenantKey : string) (task : ExtractionTask) (w : World) : result unit * World :=
  let extraction := extraction account in
  if is_false (extraction ≫= enabled) then (Ok tt, w) else
  let resourceType := toLowerCase (resourceType task) in
  if bool_decide (resourceType = "image") then
    if is_false ((extraction ≫= ocr) ≫= ocr_enabled) then (Ok tt, w) else
    let languages := default [] ((extraction ≫= ocr) ≫= ocr_languages) in
    match runOcr caps (tick w) (storagePath task) languages with
    | Throw e => (Throw e, advance [OcrCalled (storagePath task)] w)
    | Ok (text, model) =>
        record_text caps tenantKey task resourceType text (head languages) (Some model)
                    (advance [OcrCalled (storagePath task)] w)
    end
  else if bool_decide (resourceType = "audio") then
    if is_false ((extraction ≫= asr) ≫= asr_enabled) then (Ok tt, w) else
    let configured := trim caps <$> ((extraction ≫= asr) ≫= asr_apiKey) in
    let apiKey := if truthy_string configured then configured else OPENAI_API_KEY caps in
    if negb (truthy_string apiKey) then
      (Ok tt,
       upsertExtraction tenantKey (messageId task) (resourceId task) resourceType
         "failed" None None None (Some "missing OpenAI API key") w)
    else
      let chosen := trim caps <$> ((extraction ≫= asr) ≫= asr_model) in
      let model := if truthy_string chosen then default "" chosen else "gpt-4o-transcribe" in
      let language := (extraction ≫= asr) ≫= asr_language in
      match runOpenAiAsr caps (tick w) (storagePath task) (default "" apiKey) model
                         language with
      | Throw e => (Throw e, advance [AsrCalled (storagePath task)] w)
      | Ok (text, model') =>
          record_text caps tenantKey task resourceType text language (Some model')
                      (advance [AsrCalled (storagePath task)] w)
      end
  else if bool_decide (resourceType = "file") then
    if is_false ((extraction ≫= docx) ≫= docx_enabled) then (Ok tt, w) else
    let fileName := default "" (toLowerCase <$> fileName task) in
    if negb (endsWith fileName ".docx") then (Ok tt, w) else
    match extractDocxText caps (tick w) (storagePath task) with
    | Throw e => (Throw e, advance [DocxCalled (storagePath task)] w)
    | Ok text =>
        record_text caps tenantKey task "docx" text None (Some "docx")
                    (advance [DocxCalled (storagePath task)] w)
    end
  else (Ok tt, w).

(** The body of the [for] loop of [processExtractionQueue]. *)
Definition process_task (caps : Capabilities) (account : Account) (tenantKey : string)
    (w : World) (task : ExtractionTask) : World :=
  let w1 := upsertExtraction tenantKey (messageId task) (resourceId task)
              (resourceType task) "processing" None None None None w in
  match processExtractionTask caps account tenantKey task w1 with
  | (Ok _, w2) => w2
  | (Throw e, w2) =>
      upsertExtraction tenantKey (messageId task) (resourceId task) (resourceType task)
        "failed" None None None (Some e) w2
  end.

(** The [while] loop of [processExtractionQueue]. *)
Fixpoint drain (fuel : nat) (caps : Capabilities) (account : Account)
    (tenantKey : string) (w : World) : option World :=
  match fuel with
  | O => None
  | S fuel' =>
      match listPendingExtractions tenantKey w with
      | [] => Some w
      | pending =>
          drain fuel' caps account tenantKey
                (fold_left (process_task caps account tenantKey) pending w)
      end
  end.

(** [processExtractionQueue]; the tenant key is the account id
    ([resolveLarkTenantKey] without a tenant key). *)
Definition processExtractionQueue (fuel : nat) (caps : Capabilities) (account : Account)
    (w : World) : option World :=
  drain fuel caps account (accountId account) w.

Definition rows_for (tenantKey : string) (resourceId : Z) (w : World) : list Col.row :=
  List.filter (same_key tenantKey resourceId) (extractions w).

(** The extraction row of a resource: the row under its key. *)
Definition extraction_of (tenantKey : string) (resourceId : Z) (w : World)
  : option Col.row :=
  List.find (same_key tenantKey resourceId) (extractions w).

(** *** Example data *)

(** An account with the defaults, engines that are never reached, and a
    table with one downloaded file, [report.pdf]. *)
Definition example_account : Account :=
  {| accountId := "acct"; extraction := None |}.

Definition example_capabilities (ocr_answer : result (option string)) : Capabilities :=
  {| trim := fun s => s;
     recognize := fun _ _ _ => ocr_answer;
     runOpenAiAsr := fun _ _ _ _ _ => Throw "unreachable";
     extractDocxText := fun _ _ => Throw "unreachable";
     OPENAI_API_KEY := None;
     recordLarkMemoryFromExtraction := fun _ _ _ _ => Ok tt |}.

Definition example_resource (kind name : string) : Res.row :=
  {| Res.id := 1;
     Res.tenant_key := "acct";
     Res.message_id := "om_1";
     Res.resource_type := kind;
     Res.storage_path := Some ("/state/lark/resources/om_1/" +:+ name);
     Res.file_name := Some name;
     Res.status := "ready";
     Res.updated_at := 0 |}.

Definition example_world (kind name : string) : World :=
  {| resources := [example_resource kind name];
     extractions := [];
     auto_increment := 1;
     tick := 0;
     calls := [] |}.

Definition image_task : ExtractionTask :=
  to_task (example_resource "image" "scan.png").

Definition pdf_task : ExtractionTask :=
  to_task (example_resource "file" "report.pdf").


(** *** A resource whose extraction fails every time

    For the account: an image whose recognition always throws (with
    extraction and OCR not switched off), or an audio file when neither the
    configuration nor the environment holds an API key (with extraction and
    ASR not switched off). *)
Definition keeps_failing (caps : Capabilities) (account : Account) (r : Res.row) : Prop :=
  is_false (extraction account ≫= enabled) = false
  /\ ((toLowerCase (Res.resource_type r) = "image"
       /\ is_false ((extraction account ≫= ocr) ≫= ocr_enabled) = false
       /\ forall now path lang, exists e, recognize caps now path lang = Throw e)
      \/ (toLowerCase (Res.resource_type r) = "audio"
          /\ is_false ((extraction account ≫= asr) ≫= asr_enabled) = false
          /\ truthy_string (trim caps <$> ((extraction account ≫= asr) ≫= asr_apiKey))
             = false
          /\ truthy_string (OPENAI_API_KEY caps) = false)).

(** The downloaded resources of a tenant have an id and a storage path, as
    the download worker leaves them. *)
Definition stored (tenantKey : string) (w : World) : Prop :=
  forall r, r ∈ resources w ->
    Res.tenant_key r = tenantKey -> Res.status r = "ready" ->
    Res.id r <> 0 /\ default "" (Res.storage_path r) <> "".

(** Every extraction row of the resource [r], if any, has status [failed]. *)
Definition failed_so_far (tenantKey : string) (r : Res.row) (w : World) : Prop :=
  forall e, e ∈ rows_for tenantKey (Res.id r) w -> Col.status e = "failed".

(** *** Entities

    [value.replace(/pattern/g, replacement)] for a pattern that is a plain
    text, not empty: the matches are found from left to right and do not
    overlap.  [skip] counts the characters of the current match that are
    still to be passed. *)
Fixpoint replace_from (pattern replacement : string) (skip : nat) (value : string)
  : string :=
  match value with
  | EmptyString => EmptyString
  | String c rest =>
      match skip with
      | S skip' => replace_from pattern replacement skip' rest
      | O =>
          if starts_with pattern value
          then replacement
               +:+ replace_from pattern replacement (String.length pattern - 1) rest
          else String c (replace_from pattern replacement 0 rest)
      end
  end.

Definition replace_all (pattern replacement value : string) : string :=
  replace_from pattern replacement 0 value.

(** The double quote. *)
Definition quot : ascii := Eval cbv in ascii_of_nat 34.

(** [decodeXmlEntities]. *)
Definition decodeXmlEntities (value : string) : string :=
  replace_all "&amp;" "&"
    (replace_all "&apos;" "'"
       (replace_all "&quot;" (String quot "")
          (replace_all "&gt;" ">"
             (replace_all "&lt;" "<" value)))).

(** How a writer of XML escapes a character of text, and a text. *)
Definition entity (c : ascii) : string :=
  if bool_decide (c = "&"%char) then "&amp;"
  else if bool_decide (c = "<"%char) then "&lt;"
  else if bool_decide (c = ">"%char) then "&gt;"
  else if bool_decide (c = quot) then "&quot;"
  else if bool_decide (c = "'"%char) then "&apos;"
  else String c "".

Fixpoint xml_escape (text : string) : string :=
  match text with
  | EmptyString => EmptyString
  | String c rest => entity c +:+ xml_escape rest
  end.

(** The five characters that are escaped. *)
Definition special : list ascii := ["<"%char; ">"%char; quot; "'"%char; "&"%char].

(** An escaped text in which the entities of the characters [decoded] have
    been decoded already. *)
Definition partly (decoded : list ascii) (c : ascii) : string :=
  if bool_decide (c ∈ decoded) then String c "" else entity c.

Fixpoint render (decoded : list ascii) (text : string) : string :=
  match text with
  | EmptyString => EmptyString
  | String c rest => partly decoded c +:+ render decoded rest
  end.

Definition audio_task : ExtractionTask :=
  to_task (example_resource "audio" "memo.m4a").

End Extraction.

(** ** The directory synchronizer ([directory-sync.ts]) *)

Module Directory.

Record LarkDepartment : Type := {
  department_id : string;
  name : option string;
  parent_department_id : option string;
  leader_user_id : option string;
  status : option string;
  member_count : option Z
}.

Module User.
Record t : Type := {
  user_id : option string;
  open_id : option string;
  union_id : option string;
  name : option string;
  email : option string;
  mobile : option string;
  job_title : option string;
  status : option string;
  department_ids : list string
}.
End User.

Record Relation : Type := {
  userKey : string;
  departmentId : string;
  isPrimary : bool
}.

(** Rows of [org_department], [org_user] and [org_user_department_rel]
    ([mysql.ts]); the surrogate [id] and the columns [created_at] and
    [updated_at], which the synchronizer neither writes nor reads, are left
    out.  Unique keys: [(tenant_key, department_id)], [(tenant_key, user_key)]
    and [(tenant_key, user_key, department_id)]. *)
Module DeptRow.
Record t : Type := {
  tenant_key : string;
  department_id : string;
  name : string;
  parent_department_id : option string;
  leader_user_id : option string;
  status : option string;
  member_count : option Z;
  synced_at : option Z
}.
End DeptRow.

Module UserRow.
Record t : Type := {
  tenant_key : string;
  user_key : string;
  open_id : option string;
  user_id : option string;
  union_id : option string;
  name : option string;
  email : option string;
  mobile : option string;
  status : option string;
  job_title : option string;
  synced_at : option Z
}.
End UserRow.

Module RelRow.
Record t : Type := {
  tenant_key : string;
  user_key : string;
  department_id : string;
  is_primary : bool
}.
End RelRow.

Record DirDb : Type := {
  orgDepartment : list DeptRow.t;
  orgUser : list UserRow.t;
  orgUserDepartmentRel : list RelRow.t
}.

(** A pooled connection: what is committed, the working copy of an open
    transaction, and how many statements it has been sent. *)
Record Conn : Type := {
  committed : DirDb;
  tx : option DirDb;
  statements : nat
}.

(** The platform and the store as the synchronizer meets them.
    [children_of] and [members_of] are the fully paginated listings
    ([collectAllPages]) of a department's children and direct members, the
    latter by the rank of the department in the list walked;
    [statement_fails] makes the n-th statement of the connection throw for a
    reason of the store's own. *)
Record Platform : Type := {
  trim : string -> string;
  children_of : string -> result (list LarkDepartment);
  getDepartment : string -> result (option LarkDepartment);
  members_of : nat -> string -> result (list User.t);
  now : Z;
  getConnection_fails : option string;
  begin_fails : option string;
  statement_fails : nat -> option string;
  commit_fails : option string
}.

Record DirectorySyncConfig : Type := {
  enabled : option bool;
  rootDepartmentId : option string
}.

Record Account : Type := {
  accountId : string;
  directorySync : option DirectorySyncConfig
}.

Definition DEFAULT_ROOT_DEPARTMENT_ID : string := "0".
Definition WRITE_BATCH_SIZE : nat := 200.

(** [resolveDirectorySyncOptions], as far as the root is concerned. *)
Definition resolveRootDepartmentId (pl : Platform) (account : Account) : string :=
  let configured := trim pl <$> (directorySync account ≫= rootDepartmentId) in
  if truthy_string configured then default "" configured else DEFAULT_ROOT_DEPARTMENT_ID.

(** The [for] loop over the children of one department. *)
Fixpoint visit_children (children : list LarkDepartment) (visited : gset string)
    (results : list LarkDepartment) (queue : list string)
  : list LarkDepartment * list string :=
  match children with
  | [] => (results, queue)
  | dept :: rest =>
      if bool_decide (department_id dept = "") then visit_children rest visited results queue
      else
        visit_children rest visited (results ++ [dept])
          (if bool_decide (department_id dept ∈ visited) then queue
           else queue ++ [department_id dept])
  end.

(** The [while] loop of [fetchAllDepartments]: [None] when the fuel runs
    out, [Some (Throw _)] when a listing throws. *)
Fixpoint traverse (fuel : nat) (pl : Platform) (queue : list string)
    (visited : gset string) (results : list LarkDepartment)
  : option (result (list LarkDepartment)) :=
  match fuel with
  | O => None
  | S fuel' =>
      match queue with
      | [] => Some (Ok results)
      | parentId :: queue' =>
          if bool_decide (parentId = "") || bool_decide (parentId ∈ visited)
          then traverse fuel' pl queue' visited results
          else
            let visited' := {[parentId]} ∪ visited in
            match children_of pl parentId with
            | Throw e => Some (Throw e)
            | Ok children =>
                let '(results', queue'') := visit_children children visited' results queue' in
                traverse fuel' pl queue'' visited' results'
            end
      end
  end.

Definition is_department (id : string) (dept : LarkDepartment) : bool :=
  bool_decide (department_id dept = id).

Definition placeholder_root (root : string) : LarkDepartment :=
  {| department_id := root;
     name := Some "Root Department";
     parent_department_id := None;
     leader_user_id := None;
     status := None;
     member_count := None |}.

(** What follows the traversal in [fetchAllDepartments]: the answer and the
    lines sent to the error sink. *)
Definition with_root (pl : Platform) (root : string) (results : list LarkDepartment)
  : list LarkDepartment * list string :=
  if existsb (is_department root) results then (results, [])
  else
    match getDepartment pl root with
    | Ok (Some dept) => (dept :: results, [])
    | Ok None => (results, [])
    | Throw e =>
        (placeholder_root root :: results,
         ["[lark] failed fetching root department: " +:+ e])
    end.

Definition fetchAllDepartments (fuel : nat) (pl : Platform) (root : string)
  : option (result (list LarkDepartment * list string)) :=
  match traverse fuel pl [root] ∅ [] with
  | None => None
  | Some (Throw e) => Some (Throw e)
  | Some (Ok results) => Some (Ok (with_root pl root results))
  end.

(** [resolveLarkUserKey] ([ids.ts]). *)
Definition resolveLarkUserKey (pl : Platform) (ids : User.t) : option string :=
  let userId := trim pl <$> User.user_id ids in
  if truthy_string userId then userId else
  let openId := trim pl <$> User.open_id ids in
  if truthy_string openId then openId else
  let unionId := trim pl <$> User.union_id ids in
  if truthy_string unionId then unionId else None.

Definition has_key (key : string) (users : list (string * User.t)) : bool :=
  existsb (fun e => bool_decide (e.1 = key)) users.

(** The [for] loop over the members of one department. *)
Fixpoint add_members (pl : Platform) (departmentId : string) (members : list User.t)
    (users : list (string * User.t)) (relations : list Relation)
  : list (string * User.t) * list Relation :=
  match members with
  | [] => (users, relations)
  | member :: rest =>
      match resolveLarkUserKey pl member with
      | None => add_members pl departmentId rest users relations
      | Some userKey =>
          let users' := if has_key userKey users then users else users ++ [(userKey, member)] in
          let primary := head (User.department_ids member) in
          add_members pl departmentId rest users'
            (relations ++
             [{| userKey := userKey;
                 departmentId := departmentId;
                 isPrimary := truthy_string primary
                              && bool_decide (primary = Some departmentId) |}])
      end
  end.

(** [fetchUsersForDepartments], from the department of rank [rank] on: the
    user map in insertion order, the relations, and the lines sent to the
    error sink. *)
Fixpoint fetch_users (pl : Platform) (rank : nat) (departments : list LarkDepartment)
    (users : list (string * User.t)) (relations : list Relation) (errors : list string)
  : list (string * User.t) * list Relation * list string :=
  match departments with
  | [] => (users, relations, errors)
  | dept :: rest =>
      let departmentId := department_id dept in
      if bool_decide (departmentId = "") then
        fetch_users pl (S rank) rest users relations errors
      else
        match members_of pl rank departmentId with
        | Throw e =>
            fetch_users pl (S rank) rest users relations
              (errors ++ ["[lark] failed fetching users for department "
                          +:+ departmentId +:+ ": " +:+ e])
        | Ok members =>
            let '(users', relations') :=
              add_members pl departmentId members users relations in
            fetch_users pl (S rank) rest users' relations' errors
        end
  end.

Definition fetchUsersForDepartments (pl : Platform) (departments : list LarkDepartment)
  : list (string * User.t) * list Relation * list string :=
  fetch_users pl 0 departments [] [] [].

(** [chunkRows]. *)
Fixpoint slices {T : Type} (fuel : nat) (rows : list T) (size : nat) : list (list T) :=
  match fuel with
  | O => []
  | S fuel' =>
      match rows with
      | [] => []
      | _ => take size rows :: slices fuel' (drop size rows) size
      end
  end.

Definition chunkRows {T : Type} (rows : list T) (size : nat) : list (list T) :=
  if Nat.leb (length rows) size then [rows] else slices (length rows) rows size.

(** The three row builders of the write phase. *)
Definition department_row (pl : Platform) (tenantKey : string) (dept : LarkDepartment)
  : DeptRow.t :=
  let trimmed := trim pl <$> name dept in
  {| DeptRow.tenant_key := tenantKey;
     DeptRow.department_id := department_id dept;
     DeptRow.name := if truthy_string trimmed then default "" trimmed
                     else department_id dept;
     DeptRow.parent_department_id := parent_department_id dept;
     DeptRow.leader_user_id := leader_user_id dept;
     DeptRow.status := status dept;
     DeptRow.member_count := member_count dept;
     DeptRow.synced_at := Some (now pl) |}.

Definition user_row (pl : Platform) (tenantKey : string) (entry : string * User.t)
  : UserRow.t :=
  let '(userKey, user) := entry in
  {| UserRow.tenant_key := tenantKey;
     UserRow.user_key := userKey;
     UserRow.open_id := User.open_id user;
     UserRow.user_id := User.user_id user;
     UserRow.union_id := User.union_id user;
     UserRow.name := User.name user;
     UserRow.email := User.email user;
     UserRow.mobile := User.mobile user;
     UserRow.status := User.status user;
     UserRow.job_title := User.job_title user;
     UserRow.synced_at := Some (now pl) |}.

Definition relation_row (tenantKey : string) (rel : Relation) : RelRow.t :=
  {| RelRow.tenant_key := tenantKey;
     RelRow.user_key := userKey rel;
     RelRow.department_id := departmentId rel;
     RelRow.is_primary := isPrimary rel |}.

Definition same_department (v : DeptRow.t) (r : DeptRow.t) : bool :=
  bool_decide (DeptRow.tenant_key r = DeptRow.tenant_key v)
  && bool_decide (DeptRow.department_id r = DeptRow.department_id v).

Definition same_user (v : UserRow.t) (r : UserRow.t) : bool :=
  bool_decide (UserRow.tenant_key r = UserRow.tenant_key v)
  && bool_decide (UserRow.user_key r = UserRow.user_key v).

Definition same_relation (v : RelRow.t) (r : RelRow.t) : bool :=
  bool_decide (RelRow.tenant_key r = RelRow.tenant_key v)
  && bool_decide (RelRow.user_key r = RelRow.user_key v)
  && bool_decide (RelRow.department_id r = RelRow.department_id v).

(** The [ON DUPLICATE KEY UPDATE] clauses: every column outside the key takes
    the inserted value. *)
Definition upsert_department (rows : list DeptRow.t) (v : DeptRow.t) : list DeptRow.t :=
  Store.insert_on_duplicate_key_update (same_department v) (fun _ => v) v rows.

Definition upsert_user (rows : list UserRow.t) (v : UserRow.t) : list UserRow.t :=
  Store.insert_on_duplicate_key_update (same_user v) (fun _ => v) v rows.

(** A plain multi-row [INSERT]: a row whose key is already there makes the
    statement throw. *)
Fixpoint insert_relations (batch : list RelRow.t) (rows : list RelRow.t)
  : result (list RelRow.t) :=
  match batch with
  | [] => Ok rows
  | v :: rest =>
      if existsb (same_relation v) rows then Throw "Duplicate entry"
      else insert_relations rest (rows ++ [v])
  end.

(** The statements of the write phase, as functions of the tables.  An
    insert without a row is not a statement of the store's language. *)
Definition no_values : string := "You have an error in your SQL syntax".

Definition stmt_upsert_departments (batch : list DeptRow.t) (db : DirDb) : result DirDb :=
  match batch with
  | [] => Throw no_values
  | _ =>
      Ok {| orgDepartment := fold_left upsert_department batch (orgDepartment db);
            orgUser := orgUser db;
            orgUserDepartmentRel := orgUserDepartmentRel db |}
  end.

Definition stmt_upsert_users (batch : list UserRow.t) (db : DirDb) : result DirDb :=
  match batch with
  | [] => Throw no_values
  | _ =>
      Ok {| orgDepartment := orgDepartment db;
            orgUser := fold_left upsert_user batch (orgUser db);
            orgUserDepartmentRel := orgUserDepartmentRel db |}
  end.

Definition of_tenant (tenantKey : string) (r : RelRow.t) : bool :=
  bool_decide (RelRow.tenant_key r = tenantKey).

Definition stmt_delete_relations (tenantKey : string) (db : DirDb) : result DirDb :=
  Ok {| orgDepartment := orgDepartment db;
        orgUser := orgUser db;
        orgUserDepartmentRel :=
          Store.delete_where (of_tenant tenantKey) (orgUserDepartmentRel db) |}.

Definition stmt_insert_relations (batch : list RelRow.t) (db : DirDb) : result DirDb :=
  match batch with
  | [] => Throw no_values
  | _ =>
      match insert_relations batch (orgUserDepartmentRel db) with
      | Throw e => Throw e
      | Ok rows =>
          Ok {| orgDepartment := orgDepartment db;
                orgUser := orgUser db;
                orgUserDepartmentRel := rows |}
      end
  end.

(** [conn.execute]: inside a transaction a statement changes the working
    copy, outside it changes what is committed; a statement that throws
    changes nothing. *)
Definition execute (pl : Platform) (stmt : DirDb -> result DirDb) (c : Conn)
  : result unit * Conn :=
  let sent := {| committed := committed c; tx := tx c; statements := S (statements c) |} in
  match statement_fails pl (statements c) with
  | Some e => (Throw e, sent)
  | None =>
      match stmt (match tx c with Some working => working | None => committed c end) with
      | Throw e => (Throw e, sent)
      | Ok db' =>
          (Ok tt,
           match tx c with
           | Some _ => {| committed := committed c; tx := Some db';
                          statements := S (statements c) |}
           | None => {| committed := db'; tx := None; statements := S (statements c) |}
           end)
      end
  end.

Definition beginTransaction (pl : Platform) (c : Conn) : result unit * Conn :=
  match begin_fails pl with
  | Some e => (Throw e, c)
  | None =>
      (Ok tt, {| committed := committed c; tx := Some (committed c);
                 statements := statements c |})
  end.

Definition commit (pl : Platform) (c : Conn) : result unit * Conn :=
  match commit_fails pl with
  | Some e => (Throw e, c)
  | None =>
      (Ok tt, {| committed := match tx c with Some working => working | None => committed c end;
                 tx := None;
                 statements := statements c |})
  end.

Definition rollback (c : Conn) : Conn :=
  {| committed := committed c; tx := None; statements := statements c |}.

(** Statements in sequence, stopping at the first that throws. *)
Fixpoint execute_all (pl : Platform) (stmts : list (DirDb -> result DirDb)) (c : Conn)
  : result unit * Conn :=
  match stmts with
  | [] => (Ok tt, c)
  | stmt :: rest =>
      match execute pl stmt c with
      | (Throw e, c') => (Throw e, c')
      | (Ok _, c') => execute_all pl rest c'
      end
  end.

(** The statements between [beginTransaction] and [commit], in order. *)
Definition write_statements (pl : Platform) (tenantKey : string)
    (departments : list LarkDepartment) (users : list (string * User.t))
    (relations : list Relation) : list (DirDb -> result DirDb) :=
  (match departments with
   | [] => []
   | _ =>
       let rows :=
         List.filter (fun r => negb (bool_decide (DeptRow.department_id r = "")))
                     (map (department_row pl tenantKey) departments) in
       map stmt_upsert_departments (chunkRows rows WRITE_BATCH_SIZE)
   end)
  ++ (match users with
      | [] => []
      | _ => map stmt_upsert_users
                 (chunkRows (map (user_row pl tenantKey) users) WRITE_BATCH_SIZE)
      end)
  ++ [stmt_delete_relations tenantKey]
  ++ (match relations with
      | [] => []
      | _ => map stmt_insert_relations
                 (chunkRows (map (relation_row tenantKey) relations) WRITE_BATCH_SIZE)
      end).

(** The [try] block of [runLarkDirectorySync]. *)
Definition write_phase (pl : Platform) (tenantKey : string)
    (departments : list LarkDepartment) (users : list (string * User.t))
    (relations : list Relation) (c : Conn) : result unit * Conn :=
  match beginTransaction pl c with
  | (Throw e, c') => (Throw e, c')
  | (Ok _, c1) =>
      match execute_all pl (write_statements pl tenantKey departments users relations) c1 with
      | (Throw e, c') => (Throw e, c')
      | (Ok _, c2) => commit pl c2
      end
  end.

(** [try { ... } catch (err) { await conn.rollback(); throw err }] on a
    connection taken from the pool. *)
Definition in_transaction (pl : Platform) (tenantKey : string)
    (departments : list LarkDepartment) (users : list (string * User.t))
    (relations : list Relation) (db : DirDb) : result unit * DirDb :=
  match getConnection_fails pl with
  | Some e => (Throw e, db)
  | None =>
      let conn := {| committed := db; tx := None; statements := 0 |} in
      match write_phase pl tenantKey departments users relations conn with
      | (Ok _, c) => (Ok tt, committed c)
      | (Throw e, c) => (Throw e, committed (rollback c))
      end
  end.

(** What one run computes from the platform before it writes. *)
Record Snapshot : Type := {
  departments : list LarkDepartment;
  users : list (string * User.t);
  relations : list Relation;
  errors : list string
}.

Definition fetch_snapshot (fuel : nat) (pl : Platform) (account : Account)
  : option (result Snapshot) :=
  match fetchAllDepartments fuel pl (resolveRootDepartmentId pl account) with
  | None => None
  | Some (Throw e) => Some (Throw e)
  | Some (Ok (departments, errors1)) =>
      let '(users, relations, errors2) := fetchUsersForDepartments pl departments in
      Some (Ok {| departments := departments; users := users; relations := relations;
                  errors := errors1 ++ errors2 |})
  end.

(** [runLarkDirectorySync]; the tenant key is the account id. *)
Definition runLarkDirectorySync (fuel : nat) (pl : Platform) (account : Account)
    (db : DirDb) : option (result unit * DirDb) :=
  if bool_decide (directorySync account ≫= enabled = Some false) then Some (Ok tt, db)
  else
    match fetch_snapshot fuel pl account with
    | None => None
    | Some (Throw e) => Some (Throw e, db)
    | Some (Ok s) =>
        Some (in_transaction pl (accountId account) (departments s) (users s)
                             (relations s) db)
    end.

Definition relations_of (tenantKey : string) (db : DirDb) : list RelRow.t :=
  List.filter (of_tenant tenantKey) (orgUserDepartmentRel db).

(** The departments that the listings can yield are among [universe]: the
    listing of the root and of every department of [universe] answers, and
    answers departments of [universe]. *)
Definition closed_listing (pl : Platform) (root : string) (universe : list string) : Prop :=
  forall p, p ∈ root :: universe ->
    exists children,
      children_of pl p = Ok children
      /\ forall dept, dept ∈ children -> department_id dept ∈ universe.

(** [dept] is yielded by the listing of some department reached from [root]. *)
Definition listed (pl : Platform) (root : string) (universe : list string)
    (dept : LarkDepartment) : Prop :=
  exists p children,
    p ∈ root :: universe /\ children_of pl p = Ok children /\ dept ∈ children.

(** The statements of a list applied in turn to the tables. *)
Fixpoint apply_all (stmts : list (DirDb -> result DirDb)) (db : DirDb) : result DirDb :=
  match stmts with
  | [] => Ok db
  | stmt :: rest =>
      match stmt db with
      | Throw e => Throw e
      | Ok db' => apply_all rest db'
      end
  end.

(** A stored department row after a sync of tenant [t] that reported
    [deps]: as it was, or rewritten from the report of its department. *)
Definition department_kept (pl : Platform) (t : string) (deps : list LarkDepartment)
    (r r' : DeptRow.t) : Prop :=
  r' = r
  \/ (DeptRow.tenant_key r = t
      /\ exists dept,
          dept ∈ deps
          /\ department_id dept = DeptRow.department_id r
          /\ r' = department_row pl t dept).

Definition user_kept (pl : Platform) (t : string) (us : list (string * User.t))
    (r r' : UserRow.t) : Prop :=
  r' = r
  \/ (UserRow.tenant_key r = t
      /\ exists entry,
          entry ∈ us
          /\ entry.1 = UserRow.user_key r
          /\ r' = user_row pl t entry).

(** *** Example data *)

(** A platform with the departments [d1] under the root [0] and [d3] under
    [d1], whose listings do not name the root and whose fetch of the root
    throws; the user [u1] is a member of [d3]. *)
Definition example_department (id parent : string) : LarkDepartment :=
  {| department_id := id;
     name := Some id;
     parent_department_id := Some parent;
     leader_user_id := None;
     status := None;
     member_count := None |}.

Definition example_user : User.t :=
  {| User.user_id := Some "u1";
     User.open_id := None;
     User.union_id := None;
     User.name := Some "Ada";
     User.email := None;
     User.mobile := None;
     User.job_title := None;
     User.status := None;
     User.department_ids := ["d3"] |}.

Definition example_platform (fault : nat -> option string) : Platform :=
  {| trim := fun s => s;
     children_of := fun p =>
       if bool_decide (p = "0") then Ok [example_department "d1" "0"]
       else if bool_decide (p = "d1") then Ok [example_department "d3" "d1"]
       else Ok [];
     getDepartment := fun _ => Throw "no permission";
     members_of := fun _ p => if bool_decide (p = "d3") then Ok [example_user] else Ok [];
     now := 1000;
     getConnection_fails := None;
     begin_fails := None;
     statement_fails := fault;
     commit_fails := None |}.

Definition example_account : Account :=
  {| accountId := "acct"; directorySync := None |}.

(** The tenant before the sync: [u1] in [d1] (primary) and in [d2]. *)
Definition example_db : DirDb :=
  {| orgDepartment :=
       [ {| DeptRow.tenant_key := "acct"; DeptRow.department_id := "d1";
            DeptRow.name := "d1"; DeptRow.parent_department_id := Some "0";
            DeptRow.leader_user_id := None; DeptRow.status := None;
            DeptRow.member_count := None; DeptRow.synced_at := Some 1 |};
         {| DeptRow.tenant_key := "acct"; DeptRow.department_id := "d2";
            DeptRow.name := "d2"; DeptRow.parent_department_id := Some "0";
            DeptRow.leader_user_id := None; DeptRow.status := None;
            DeptRow.member_count := None; DeptRow.synced_at := Some 1 |} ];
     orgUser := [];
     orgUserDepartmentRel :=
       [ {| RelRow.tenant_key := "acct"; RelRow.user_key := "u1";
            RelRow.department_id := "d1"; RelRow.is_primary := true |};
         {| RelRow.tenant_key := "acct"; RelRow.user_key := "u1";
            RelRow.department_id := "d2"; RelRow.is_primary := false |} ] |}.

Definition summary (run : option (result unit * DirDb))
  : option (result unit * list string * list (string * string * bool)) :=
  option_map
    (fun '(out, db) =>
       (out,
        map DeptRow.department_id (orgDepartment db),
        map (fun r => (RelRow.user_key r, RelRow.department_id r, RelRow.is_primary r))
            (orgUserDepartmentRel db)))
    run.


(** *** The unique keys of the three tables *)

Definition department_key (r : DeptRow.t) : string * string :=
  (DeptRow.tenant_key r, DeptRow.department_id r).

Definition user_key (r : UserRow.t) : string * string :=
  (UserRow.tenant_key r, UserRow.user_key r).

Definition relation_key (r : RelRow.t) : string * string * string :=
  (RelRow.tenant_key r, RelRow.user_key r, RelRow.department_id r).

(** A membership as the relation list holds it: who, in which department. *)
Definition membership (rel : Relation) : string * string :=
  (userKey rel, departmentId rel).

(** What [add_members] and [fetch_users] keep of the user map and of the
    relations collected so far, for the departments [ds]. *)
Definition sound_members (pl : Platform) (ds : list LarkDepartment)
    (users : list (string * User.t)) (relations : list Relation) : Prop :=
  NoDup (map fst users)
  /\ (forall k u, (k, u) ∈ users -> resolveLarkUserKey pl u = Some k)
  /\ (forall rel, rel ∈ relations ->
        userKey rel ∈ map fst users
        /\ departmentId rel <> ""
        /\ exists dept, dept ∈ ds /\ department_id dept = departmentId rel).

(** The department rows that the write phase sends. *)
Definition department_rows_sent (pl : Platform) (t : string) (deps : list LarkDepartment)
  : list DeptRow.t :=
  List.filter (fun r => negb (bool_decide (DeptRow.department_id r = "")))
              (map (department_row pl t) deps).

(** A platform whose listing of the root yields the department [d1] twice;
    [u1] is a member of [d1]. *)
Definition example_platform_twice : Platform :=
  {| trim := fun s => s;
     children_of := fun p =>
       if bool_decide (p = "0")
       then Ok [example_department "d1" "0"; example_department "d1" "0"]
       else Ok [];
     getDepartment := fun _ => Ok None;
     members_of := fun _ p => if bool_decide (p = "d1") then Ok [example_user] else Ok [];
     now := 1000;
     getConnection_fails := None;
     begin_fails := None;
     statement_fails := fun _ => None;
     commit_fails := None |}.

End Directory.

(** ** Paginated listings ([lark-api.ts]) *)

Module LarkApi.

Record LarkPage (T : Type) : Type := {
  items : list T;
  hasMore : bool;
  nextPageToken : option string
}.
Arguments items {T} l.
Arguments hasMore {T} l.
Arguments nextPageToken {T} l.

(** The [while] loop of [collectAllPages]: [fetchPage] answers the request
    of rank [n], made with a page token; the answer holds the items
    collected and the number of requests made. *)
Fixpoint collect {T : Type} (fuel : nat)
    (fetchPage : nat -> option string -> result (LarkPage T))
    (n : nat) (pageToken : option string) (collected : list T)
  : option (result (list T) * nat) :=
  match fuel with
  | O => None
  | S fuel' =>
      match fetchPage n pageToken with
      | Throw e => Some (Throw e, S n)
      | Ok page =>
          let collected := collected ++ items page in
          let pageToken := nextPageToken page in
          if hasMore page && truthy_string pageToken
          then collect fuel' fetchPage (S n) pageToken collected
          else Some (Ok collected, S n)
      end
  end.

Definition collectAllPages {T : Type} (fuel : nat)
    (fetchPage : nat -> option string -> result (LarkPage T))
  : option (result (list T) * nat) :=
  collect fuel fetchPage 0 None [].

(** The requests from rank [n] on are answered by the pages [pages], each
    of which announces more with a token, and then by [last]: a page that
    announces no more or gives no token, or a throw. *)
Fixpoint follows {T : Type} (fetchPage : nat -> option string -> result (LarkPage T))
    (n : nat) (pageToken : option string) (pages : list (LarkPage T))
    (last : result (LarkPage T)) : Prop :=
  match pages with
  | [] =>
      fetchPage n pageToken = last
      /\ match last with
         | Ok page => hasMore page && truthy_string (nextPageToken page) = false
         | Throw _ => True
         end
  | page :: rest =>
      fetchPage n pageToken = Ok page
      /\ hasMore page = true
      /\ truthy_string (nextPageToken page) = true
      /\ follows fetchPage (S n) (nextPageToken page) rest last
  end.

(** Two pages of department ids. *)
Definition example_fetchPage (n : nat) (pageToken : option string)
  : result (LarkPage string) :=
  match pageToken with
  | None => Ok {| items := ["d1"; "d2"]; hasMore := true; nextPageToken := Some "p2" |}
  | Some _ => Ok {| items := ["d3"]; hasMore := false; nextPageToken := None |}
  end.

End LarkApi.

(** ** The stored directory read back ([directory-store.ts]) *)

Module DirectoryStore.
Import Directory.

Record OrgDepartment : Type := {
  departmentId : string;
  name : string;
  parentDepartmentId : option string
}.

(** [loadDepartments]: the departments of a tenant by id, rows without id
    or name skipped, a later row replacing an earlier one of the same id. *)
Definition loadDepartments (tenantKey : string) (db : DirDb) : gmap string OrgDepartment :=
  fold_left
    (fun m row =>
       if bool_decide (DeptRow.department_id row = "")
          || bool_decide (DeptRow.name row = "")
       then m
       else <[DeptRow.department_id row :=
                {| departmentId := DeptRow.department_id row;
                   name := DeptRow.name row;
                   parentDepartmentId := DeptRow.parent_department_id row |}]> m)
    (List.filter (fun row => bool_decide (DeptRow.tenant_key row = tenantKey))
                 (orgDepartment db))
    ∅.

(** The [while] loop of [buildDepartmentChain]; [parts.unshift] puts the
    name of an ancestor before the names found so far. *)
Fixpoint chain (fuel : nat) (departments : gmap string OrgDepartment)
    (current : string) (seen : gset string) (parts : list string)
  : option (list string) :=
  match fuel with
  | O => None
  | S fuel' =>
      if negb (bool_decide (current = "")) && negb (bool_decide (current ∈ seen)) then
        let seen := {[current]} ∪ seen in
        match departments !! current with
        | None => Some parts
        | Some dept =>
            let parts := name dept :: parts in
            if negb (truthy_string (parentDepartmentId dept))
               || bool_decide (parentDepartmentId dept = Some current)
            then Some parts
            else chain fuel' departments (default "" (parentDepartmentId dept)) seen parts
        end
      else Some parts
  end.

Definition buildDepartmentChain (fuel : nat) (departmentId : option string)
    (departments : gmap string OrgDepartment) : option (option string) :=
  if negb (truthy_string departmentId) then Some None
  else
    match chain fuel departments (default "" departmentId) ∅ [] with
    | None => None
    | Some parts =>
        Some (if Nat.ltb 0 (length parts) then Some (join " > " parts) else None)
    end.

(** The names of the departments of a path of ids. *)
Definition names (departments : gmap string OrgDepartment) (path : list string)
  : list string :=
  map (fun id => default "" (name <$> departments !! id)) path.

(** Each department of the path is the parent of the next one. *)
Definition linked (departments : gmap string OrgDepartment) (path : list string) : Prop :=
  forall (i : nat) (p c : string),
    path !! i = Some p -> path !! S i = Some c ->
    departments !! c ≫= parentDepartmentId = Some p.

(** Two departments that name each other as parent. *)
Definition example_cycle : gmap string OrgDepartment :=
  <["a" := {| departmentId := "a"; name := "Sales"; parentDepartmentId := Some "b" |}]>
  (<["b" := {| departmentId := "b"; name := "Europe"; parentDepartmentId := Some "a" |}]> ∅).

End DirectoryStore.

(** ** The store configuration ([mysql.ts]) *)

Module MySql.

(** The [mysql] block of an account's configuration. *)
Record LarkMySqlConfig : Type := {
  enabled : option bool;
  host : option string;
  port : option Z;
  user : option string;
  password : option string;
  database : option string;
  tablePrefix : option string;
  connectionLimit : option Z;
  queueLimit : option Z;
  waitForConnections : option bool
}.

Module Resolved.
Record t : Type := {
  host : string;
  port : Z;
  user : string;
  password : option string;
  database : string;
  tablePrefix : string;
  connectionLimit : Z;
  queueLimit : Z;
  waitForConnections : bool
}.
End Resolved.

Record TableNames : Type := {
  message : string;
  chat : string;
  user_table : string;
  orgDepartment : string;
  orgUser : string;
  orgUserDepartmentRel : string;
  imChat : string;
  imChatMember : string;
  messageResource : string;
  contentExtraction : string;
  memoryItem : string;
  memoryEmbedding : string;
  task : string;
  kbDoc : string
}.

Record LarkMySqlContext : Type := {
  key : string;
  config : Resolved.t;
  tables : TableNames
}.

(** The class [[a-zA-Z0-9_]]. *)
Definition word_char (c : ascii) : bool :=
  let n := nat_of_ascii c in
  (Nat.leb 97 n && Nat.leb n 122) || (Nat.leb 65 n && Nat.leb n 90)
  || (Nat.leb 48 n && Nat.leb n 57) || Nat.eqb n 95.

Fixpoint all_word (s : string) : bool :=
  match s with
  | EmptyString => true
  | String c s' => word_char c && all_word s'
  end.

Section Trim.

(** [String.prototype.trim]. *)
Variable trim : string -> string.

(** The pattern of [normalizeTablePrefix] accepts the non-empty strings
    made of word characters. *)
Definition normalizeTablePrefix (raw : option string) : string :=
  let trimmed := trim <$> raw in
  if negb (truthy_string trimmed) then ""
  else if negb (all_word (default "" trimmed)) then ""
  else default "" trimmed.

Definition resolveLarkMySqlConfig (cfg : option LarkMySqlConfig) : option Resolved.t :=
  match cfg with
  | None => None
  | Some cfg =>
      if bool_decide (enabled cfg = Some false) then None
      else
        let host := default "" (trim <$> host cfg) in
        let user := default "" (trim <$> user cfg) in
        let database := default "" (trim <$> database cfg) in
        if bool_decide (host = "") || bool_decide (user = "")
           || bool_decide (database = "")
        then None
        else
          let password := trim <$> password cfg in
          Some {| Resolved.host := host;
                  Resolved.port := default 3306 (port cfg);
                  Resolved.user := user;
                  Resolved.password :=
                    if truthy_string password then password else None;
                  Resolved.database := database;
                  Resolved.tablePrefix := normalizeTablePrefix (tablePrefix cfg);
                  Resolved.connectionLimit := Z.max 1 (default 4 (connectionLimit cfg));
                  Resolved.queueLimit := Z.max 0 (default 0 (queueLimit cfg));
                  Resolved.waitForConnections := default true (waitForConnections cfg) |}
  end.

Definition buildPoolKey (config : Resolved.t) : string :=
  Resolved.host config +:+ ":" +:+ pretty (Resolved.port config) +:+ "/"
  +:+ Resolved.database config +:+ "?user=" +:+ Resolved.user config.

Definition quoted (prefix name : string) : string :=
  "`" +:+ (prefix +:+ name) +:+ "`".

Definition buildTableNames (prefix : string) : TableNames :=
  {| message := quoted prefix "lark_message";
     chat := quoted prefix "lark_chat";
     user_table := quoted prefix "lark_user";
     orgDepartment := quoted prefix "org_department";
     orgUser := quoted prefix "org_user";
     orgUserDepartmentRel := quoted prefix "org_user_department_rel";
     imChat := quoted prefix "im_chat";
     imChatMember := quoted prefix "im_chat_member";
     messageResource := quoted prefix "message_resource";
     contentExtraction := quoted prefix "content_extraction";
     memoryItem := quoted prefix "memory_item";
     memoryEmbedding := quoted prefix "memory_embedding";
     task := quoted prefix "task";
     kbDoc := quoted prefix "kb_doc" |}.

(** [resolveLarkMySqlContext]; the pool of the context is the one of its
    pool key. *)
Definition resolveLarkMySqlContext (cfg : option LarkMySqlConfig)
  : option LarkMySqlContext :=
  match resolveLarkMySqlConfig cfg with
  | None => None
  | Some config =>
      Some {| key := buildPoolKey config +:+ ":" +:+ Resolved.tablePrefix config;
              config := config;
              tables := buildTableNames (Resolved.tablePrefix config) |}
  end.

End Trim.

(** The fourteen table names of a context. *)
Definition table_list (t : TableNames) : list string :=
  [ message t; chat t; user_table t; orgDepartment t; orgUser t;
    orgUserDepartmentRel t; imChat t; imChatMember t; messageResource t;
    contentExtraction t; memoryItem t; memoryEmbedding t; task t; kbDoc t ].

(** A name between backticks, made of word characters. *)
Definition quoted_identifier (name : string) : Prop :=
  exists body : string,
    name = "`" +:+ body +:+ "`" /\ body <> "" /\ all_word body = true.

Definition example_config : LarkMySqlConfig :=
  {| enabled := None; host := Some "db.local"; port := None; user := Some "lark";
     password := Some ""; database := Some "lark"; tablePrefix := Some "t1_; DROP";
     connectionLimit := Some 0; queueLimit := None; waitForConnections := None |}.

End MySql.

(** ** The periodic directory synchronization ([directory-sync.ts]) *)

Module DirectoryService.

(** An account as [start] sees it: [account.enabled], whether
    [resolveLarkMySqlContext] finds a store for it, and
    [directorySync.intervalMinutes]. *)
Record ServiceAccount : Type := {
  account : Directory.Account;
  enabled : bool;
  has_store : bool;
  intervalMinutes : option Z
}.

Definition DEFAULT_SYNC_INTERVAL_MINUTES : Z := 360.

(** The state of one service: the handle of the timer held for each
    account, the intervals that are active (handle, account id, period in
    milliseconds), the accounts marked in flight, the runs of
    [runLarkDirectorySync] that have not settled, and the next handle. *)
Record Service : Type := {
  timers : gmap string nat;
  intervals : list (nat * string * Z);
  inFlight : gset string;
  running : list string;
  handles : nat
}.

Definition created : Service :=
  {| timers := ∅; intervals := []; inFlight := ∅; running := []; handles := 0 |}.

(** The closure [run] of an account, up to its first suspension. *)
Definition run (accountId : string) (s : Service) : Service :=
  if bool_decide (accountId ∈ inFlight s) then s
  else
    {| timers := timers s;
       intervals := intervals s;
       inFlight := {[accountId]} ∪ inFlight s;
       running := running s ++ [accountId];
       handles := handles s |}.

Definition eligible (a : ServiceAccount) : bool :=
  enabled a
  && negb (bool_decide (Directory.directorySync (account a) ≫= Directory.enabled
                        = Some false))
  && has_store a.

Definition intervalMs (a : ServiceAccount) : Z :=
  Z.max 10 (default DEFAULT_SYNC_INTERVAL_MINUTES (intervalMinutes a)) * 60 * 1000.

(** One turn of the loop of [start]: the first run, then the timer.  The
    extraction worker that the turn also schedules has its own state. *)
Definition start_account (s : Service) (a : ServiceAccount) : Service :=
  if eligible a then
    let accountId := Directory.accountId (account a) in
    let s1 := run accountId s in
    {| timers := <[accountId := handles s1]> (timers s1);
       intervals := intervals s1 ++ [(handles s1, accountId, intervalMs a)];
       inFlight := inFlight s1;
       running := running s1;
       handles := S (handles s1) |}
  else s.

Definition start (accounts : list ServiceAccount) (s : Service) : Service :=
  fold_left start_account accounts s.

(** [stop] clears the timers it holds and forgets what is in flight. *)
Definition stop (s : Service) : Service :=
  {| timers := ∅;
     intervals :=
       List.filter (fun i => negb (bool_decide (i.1.1 ∈ map snd (map_to_list (timers s)))))
                   (intervals s);
     inFlight := ∅;
     running := running s;
     handles := handles s |}.

(** An active interval fires. *)
Definition fire (handle : nat) (s : Service) : Service :=
  match List.find (fun i => bool_decide (i.1.1 = handle)) (intervals s) with
  | Some (_, accountId, _) => run accountId s
  | None => s
  end.

Fixpoint remove_first (accountId : string) (l : list string) : list string :=
  match l with
  | [] => []
  | x :: l' => if bool_decide (x = accountId) then l' else x :: remove_first accountId l'
  end.

(** A run of the account settles, fulfilled or rejected: the [finally]
    block deletes the mark. *)
Definition run_settled (accountId : string) (s : Service) : Service :=
  if bool_decide (accountId ∈ running s) then
    {| timers := timers s;
       intervals := intervals s;
       inFlight := inFlight s ∖ {[accountId]};
       running := remove_first accountId (running s);
       handles := handles s |}
  else s.

Inductive ServiceEvent : Type :=
| Start (accounts : list ServiceAccount)
| Stop
| Fire (handle : nat)
| Settled (accountId : string).

Definition service_step (s : Service) (ev : ServiceEvent) : Service :=
  match ev with
  | Start accounts => start accounts s
  | Stop => stop s
  | Fire handle => fire handle s
  | Settled accountId => run_settled accountId s
  end.

Definition service_run (events : list ServiceEvent) : Service :=
  fold_left service_step events created.

Definition example_service_account : ServiceAccount :=
  {| account := {| Directory.accountId := "acct"; Directory.directorySync := None |};
     enabled := true; has_store := true; intervalMinutes := Some 1 |}.

(** At most one run per account, marked in flight exactly when it runs. *)
Definition one_run (s : Service) : Prop :=
  NoDup (running s) /\ forall a, a ∈ inFlight s <-> a ∈ running s.

Definition slow (s : Service) : Prop :=
  forall i, i ∈ intervals s -> 600000 <= i.2.

End DirectoryService.

(** * Part II: statements and proofs *)

(** ** Facts about the store primitives *)

Module StoreFacts.
Import Store.

Section Keyed.
Context {A K : Type} `{EqDecision K}.
Variable key : A -> K.
Variable k : K.
Variable upd : A -> A.
Variable new : A.
Hypothesis upd_key : forall r, key (upd r) = key r.
Hypothesis new_key : key new = k.

Abbreviation dup := (fun r => bool_decide (key r = k)).

Lemma upsert_keys (rows : list A) :
  map key (insert_on_duplicate_key_update dup upd new rows)
  = if existsb dup rows then map key rows else map key rows ++ [k].
Proof.
  induction rows as [|r rs IH]; simpl.
  - by rewrite new_key.
  - destruct (bool_decide (key r = k)) eqn:E; simpl.
    + by rewrite upd_key.
    + rewrite IH. by destruct (existsb _ rs).
Qed.

Lemma existsb_dup_in (rows : list A) :
  existsb dup rows = true <-> k ∈ map key rows.
Proof.
  induction rows as [|r rs IH]; simpl.
  - split; [discriminate | by intros ?%elem_of_nil].
  - rewrite elem_of_cons, orb_true_iff, bool_decide_eq_true, IH. naive_solver.
Qed.

Lemma upsert_NoDup (rows : list A) :
  NoDup (map key rows) ->
  NoDup (map key (insert_on_duplicate_key_update dup upd new rows)).
Proof.
  intros H. rewrite upsert_keys.
  destruct (existsb dup rows) eqn:E; [done|].
  apply NoDup_app. split; [done|]. split; [|apply NoDup_singleton].
  intros x Hx ->%list_elem_of_singleton.
  apply existsb_dup_in in Hx. congruence.
Qed.

Lemma count_zero (rows : list A) :
  k ∉ map key rows -> count_where dup rows = 0%nat.
Proof.
  unfold count_where. induction rows as [|r rs IH]; simpl; [done|].
  rewrite not_elem_of_cons. intros [Hr Hrs].
  rewrite bool_decide_eq_false_2 by done. auto.
Qed.

Lemma upsert_count (rows : list A) :
  NoDup (map key rows) ->
  count_where dup (insert_on_duplicate_key_update dup upd new rows) = 1%nat.
Proof.
  unfold count_where. induction rows as [|r rs IH]; simpl; intros Hnd.
  - by rewrite bool_decide_eq_true_2.
  - apply NoDup_cons in Hnd as [Hr Hrs].
    destruct (bool_decide (key r = k)) eqn:E; simpl.
    + apply bool_decide_eq_true in E.
      rewrite bool_decide_eq_true_2 by (by rewrite upd_key). simpl.
      f_equal. apply count_zero. by rewrite <- E.
    + rewrite E. auto.
Qed.

Lemma upsert_length (rows : list A) :
  length (insert_on_duplicate_key_update dup upd new rows)
  = if existsb dup rows then length rows else S (length rows).
Proof.
  induction rows as [|r rs IH]; simpl; [done|].
  destruct (bool_decide (key r = k)); simpl; [done|].
  rewrite IH. by destruct (existsb _ rs).
Qed.

(** After an upsert the key is there, so a second upsert only updates. *)
Lemma upsert_present (rows : list A) :
  existsb dup (insert_on_duplicate_key_update dup upd new rows) = true.
Proof.
  induction rows as [|r rs IH]; simpl.
  - by rewrite bool_decide_eq_true_2.
  - destruct (bool_decide (key r = k)) eqn:E; simpl.
    + by rewrite bool_decide_eq_true_2 by (by rewrite upd_key; apply bool_decide_eq_true in E).
    + by rewrite E, IH.
Qed.

(** The row that an upsert leaves under the key: where it is and what it
    holds. *)
Lemma upsert_lookup (rows : list A) :
  exists i x,
    insert_on_duplicate_key_update dup upd new rows !! i = Some x
    /\ key x = k
    /\ (forall j y, (j < i)%nat -> insert_on_duplicate_key_update dup upd new rows !! j = Some y
                    -> key y <> k)
    /\ ((x = new /\ i = length rows /\ existsb dup rows = false) \/
        (exists r, rows !! i = Some r /\ key r = k /\ x = upd r)).
Proof.
  induction rows as [|r rs IH]; simpl.
  - exists 0%nat, new. split; [done|]. split; [done|]. split; [lia|]. by left.
  - destruct (bool_decide (key r = k)) eqn:E; simpl.
    + apply bool_decide_eq_true in E.
      exists 0%nat, (upd r). split; [done|]. split; [by rewrite upd_key|].
      split; [lia|]. right. by exists r.
    + apply bool_decide_eq_false in E.
      destruct IH as (i & x & Hi & Hx & Hbefore & Hcase).
      exists (S i), x. split; [done|]. split; [done|]. split.
      * intros [|j] y Hj Hy; simpl in Hy; [by inversion Hy; subst|].
        eapply Hbefore; [|done]. lia.
      * destruct Hcase as [(-> & -> & Hn)|(r' & Hr' & Hk & ->)]; [by left|].
        right. by exists r'.
Qed.

(** An update in place: the row under the key at its first position [i]. *)
Lemma upsert_in_place (rows : list A) (i : nat) (r : A) :
  rows !! i = Some r -> key r = k ->
  (forall j y, (j < i)%nat -> rows !! j = Some y -> key y <> k) ->
  insert_on_duplicate_key_update dup upd new rows = <[i := upd r]> rows.
Proof.
  revert i. induction rows as [|r0 rs IH]; intros i Hi Hk Hbefore; [done|].
  simpl. destruct i as [|i]; simpl in *.
  - inversion Hi; subst. by rewrite bool_decide_eq_true_2.
  - rewrite bool_decide_eq_false_2 by (eapply (Hbefore 0%nat); [lia|done]).
    f_equal. apply IH; [done..|].
    intros j y Hj Hy. apply (Hbefore (S j)); [lia|done].
Qed.

End Keyed.

Section Any.
Context {A : Type}.
Variable dup : A -> bool.
Variable upd : A -> A.
Variable new : A.

Lemma upsert_length_any (rows : list A) :
  length (insert_on_duplicate_key_update dup upd new rows)
  = if existsb dup rows then length rows else S (length rows).
Proof.
  induction rows as [|r rs IH]; simpl; [done|].
  destruct (dup r); simpl; [done|].
  rewrite IH. by destruct (existsb _ rs).
Qed.

(** A row that was there stays where it is, as it was or updated. *)
Lemma upsert_frame (rows : list A) (i : nat) (r : A) :
  rows !! i = Some r ->
  insert_on_duplicate_key_update dup upd new rows !! i = Some r
  \/ insert_on_duplicate_key_update dup upd new rows !! i = Some (upd r).
Proof.
  revert i. induction rows as [|r0 rs IH]; intros i Hi; [done|].
  simpl. destruct (dup r0) eqn:E.
  - destruct i as [|i]; simpl in *; [|by left]. inversion Hi; subst. by right.
  - destruct i as [|i]; simpl in *; [by left|]. by apply IH.
Qed.

Lemma upsert_existsb (p : A -> bool) (rows : list A) :
  (forall r, p r = true -> p (upd r) = true) ->
  existsb p rows = true ->
  existsb p (insert_on_duplicate_key_update dup upd new rows) = true.
Proof.
  intros Hupd. induction rows as [|r rs IH]; simpl; [done|].
  intros [Hr|Hrs]%orb_true_iff.
  - destruct (dup r); simpl; [by rewrite Hupd|by rewrite Hr].
  - destruct (dup r); simpl; [by rewrite Hrs, orb_true_r|].
    by rewrite IH, orb_true_r.
Qed.

Lemma upsert_present_any (rows : list A) :
  dup new = true -> (forall r, dup r = true -> dup (upd r) = true) ->
  existsb dup (insert_on_duplicate_key_update dup upd new rows) = true.
Proof.
  intros Hnew Hupd. induction rows as [|r rs IH]; simpl.
  - by rewrite Hnew.
  - destruct (dup r) eqn:E; simpl; [by rewrite Hupd|by rewrite E, IH].
Qed.

(** Where the update lands when the key is there: on its first holder. *)
Lemma upsert_first (rows : list A) (i : nat) (r : A) :
  rows !! i = Some r -> dup r = true ->
  (forall j y, (j < i)%nat -> rows !! j = Some y -> dup y = false) ->
  insert_on_duplicate_key_update dup upd new rows = <[i := upd r]> rows.
Proof.
  revert i. induction rows as [|r0 rs IH]; intros i Hi Hk Hbefore; [done|].
  simpl. destruct i as [|i]; simpl in *.
  - inversion Hi; subst. by rewrite Hk.
  - rewrite (Hbefore 0%nat r0) by (done || lia).
    f_equal. apply IH; [done..|].
    intros j y Hj Hy. apply (Hbefore (S j)); [lia|done].
Qed.

Lemma upsert_find (rows : list A) :
  dup new = true -> (forall r, dup r = true -> dup (upd r) = true) ->
  List.find dup (insert_on_duplicate_key_update dup upd new rows)
  = Some (match List.find dup rows with Some r => upd r | None => new end).
Proof.
  intros Hnew Hupd. induction rows as [|r rs IH]; simpl.
  - by rewrite Hnew.
  - destruct (dup r) eqn:E; simpl; [by rewrite Hupd|by rewrite E].
Qed.

(** Under a key held by at most one row, the upsert leaves exactly one. *)
Lemma upsert_filter (rows : list A) :
  dup new = true -> (forall r, dup r = true -> dup (upd r) = true) ->
  (length (List.filter dup rows) <= 1)%nat ->
  List.filter dup (insert_on_duplicate_key_update dup upd new rows)
  = [match List.find dup rows with Some r => upd r | None => new end].
Proof.
  intros Hnew Hupd. induction rows as [|r rs IH]; simpl; intros Hle.
  - by rewrite Hnew.
  - destruct (dup r) eqn:E; simpl in *.
    + rewrite Hupd by done. f_equal.
      destruct (List.filter dup rs); [done|simpl in Hle; lia].
    + rewrite E. by apply IH.
Qed.

(** As [upsert_frame], naming the key of the row that was updated. *)
Lemma upsert_frame_dup (rows : list A) (i : nat) (r : A) :
  rows !! i = Some r ->
  insert_on_duplicate_key_update dup upd new rows !! i = Some r
  \/ (dup r = true /\ insert_on_duplicate_key_update dup upd new rows !! i = Some (upd r)).
Proof.
  revert i. induction rows as [|r0 rs IH]; intros i Hi; [done|].
  simpl. destruct (dup r0) eqn:E.
  - destruct i as [|i]; simpl in *; [|by left]. inversion Hi; subst. by right.
  - destruct i as [|i]; simpl in *; [by left|]. by apply IH.
Qed.

End Any.

(** [order_by] only rearranges. *)
Lemma insert_by_Permutation {A : Type} (key : A -> Z) (x : A) (l : list A) :
  Permutation (insert_by key x l) (x :: l).
Proof.
  induction l as [|y l IH]; simpl; [done|].
  destruct (key x <=? key y)%Z; [done|].
  rewrite IH. apply perm_swap.
Qed.

Lemma order_by_Permutation {A : Type} (key : A -> Z) (l : list A) :
  Permutation (order_by key l) l.
Proof.
  induction l as [|x l IH]; simpl; [done|].
  rewrite insert_by_Permutation. by constructor.
Qed.

Lemma update_where_length {A : Type} (cond : A -> bool) (upd : A -> A) (rows : list A) :
  length (update_where cond upd rows) = length rows.
Proof. unfold update_where. by rewrite length_map. Qed.

Lemma insert_by_sorted {A : Type} (key : A -> Z) (x : A) (l : list A) :
  StronglySorted (fun a b => (key a <= key b)%Z) l ->
  StronglySorted (fun a b => (key a <= key b)%Z) (insert_by key x l).
Proof.
  induction 1 as [|y l Hs IH Hall]; cbn.
  - repeat constructor.
  - destruct (Z.leb_spec (key x) (key y)) as [Hle|Hgt].
    + constructor; [by constructor|].
      constructor; [done|]. eapply Forall_impl; [exact Hall|]. intros z Hz. cbn in Hz. lia.
    + constructor; [done|].
      apply Forall_forall. intros z Hz.
      rewrite (insert_by_Permutation key x l) in Hz.
      apply elem_of_cons in Hz as [->|Hz]; [lia|].
      rewrite Forall_forall in Hall. by apply Hall.
Qed.

Lemma order_by_sorted {A : Type} (key : A -> Z) (l : list A) :
  StronglySorted (fun a b => (key a <= key b)%Z) (order_by key l).
Proof.
  induction l as [|x l IH]; cbn; [constructor|]. by apply insert_by_sorted.
Qed.

(** The columns that the update clause leaves alone, along an upsert. *)
Lemma upsert_map {A B : Type} (f : A -> B) (dup : A -> bool) (upd : A -> A) (new : A)
    (rows : list A) :
  (forall r, f (upd r) = f r) ->
  map f (insert_on_duplicate_key_update dup upd new rows)
  = if existsb dup rows then map f rows else map f rows ++ [f new].
Proof.
  intros Hf. induction rows as [|r rows IH]; [done|]. cbn.
  destruct (dup r); cbn; [by rewrite Hf|].
  rewrite IH. by destruct (existsb dup rows).
Qed.

Lemma upsert_elem {A : Type} (dup : A -> bool) (upd : A -> A) (new : A)
    (rows : list A) (x : A) :
  x ∈ insert_on_duplicate_key_update dup upd new rows ->
  x ∈ rows \/ x = new \/ exists r, r ∈ rows /\ dup r = true /\ x = upd r.
Proof.
  induction rows as [|r rows IH]; cbn.
  - intros ->%list_elem_of_singleton. by right; left.
  - destruct (dup r) eqn:E.
    + intros [->|Hx]%elem_of_cons.
      * right; right. exists r. split; [apply list_elem_of_here|done].
      * left. by apply list_elem_of_further.
    + intros [->|Hx]%elem_of_cons; [left; apply list_elem_of_here|].
      destruct (IH Hx) as [H|[H|(r0 & H0 & H1 & H2)]].
      * left. by apply list_elem_of_further.
      * by right; left.
      * right; right. exists r0. split; [by apply list_elem_of_further|done].
Qed.

(** The rows under the key of an upsert: the first is updated, or the new
    row is the only one. *)
Lemma upsert_filter_head {A : Type} (dup : A -> bool) (upd : A -> A) (new : A)
    (rows : list A) :
  dup new = true -> (forall r, dup r = true -> dup (upd r) = true) ->
  List.filter dup (insert_on_duplicate_key_update dup upd new rows)
  = match List.filter dup rows with
    | [] => [new]
    | x :: rest => upd x :: rest
    end.
Proof.
  intros Hnew Hupd. induction rows as [|r rows IH]; cbn.
  - by rewrite Hnew.
  - destruct (dup r) eqn:E; cbn.
    + by rewrite Hupd.
    + by rewrite E.
Qed.

(** The rows under another key are left alone. *)
Lemma upsert_filter_other {A : Type} (dup p : A -> bool) (upd : A -> A) (new : A)
    (rows : list A) :
  p new = false -> (forall r, dup r = true -> p r = false /\ p (upd r) = false) ->
  List.filter p (insert_on_duplicate_key_update dup upd new rows) = List.filter p rows.
Proof.
  intros Hnew Hupd. induction rows as [|r rows IH]; cbn.
  - by rewrite Hnew.
  - destruct (dup r) eqn:E; cbn.
    + destruct (Hupd r E) as [-> ->]. done.
    + by rewrite IH.
Qed.

End StoreFacts.

(** ** The message upsert *)

Module PersistenceFacts.
Import Persistence.

Section WithRuntime.
Context (rt : Runtime).

Lemma persistMessage_Ok now event (db db' : Db rt) :
  persistMessage rt now event db = (Ok tt, db') ->
  message_table db' = upsert_message rt now event (message_table db).
Proof.
  unfold persistMessage. intros H.
  destruct (exec_chat_upsert _ _ _ _ _ _) as [o1|]; [|discriminate].
  destruct (hasSenderId event).
  - destruct (exec_user_upsert _ _ _ _ _ _ _) as [o2|]; [|discriminate].
    by inversion H.
  - by inversion H.
Qed.

(** A throw of [persistMessage] leaves the message table alone. *)
Lemma persistMessage_Throw now event (db db' : Db rt) e :
  persistMessage rt now event db = (Throw e, db') ->
  message_table db' = message_table db.
Proof.
  unfold persistMessage. intros H.
  destruct (exec_chat_upsert _ _ _ _ _ _) as [o1|]; [|by inversion H].
  destruct (hasSenderId event).
  - destruct (exec_user_upsert _ _ _ _ _ _ _) as [o2|]; by inversion H.
  - by inversion H.
Qed.

Lemma upsert_message_uniq now event t :
  uniq_message_id t -> uniq_message_id (upsert_message rt now event t).
Proof.
  unfold uniq_message_id, upsert_message. simpl. intros H.
  by apply (StoreFacts.upsert_NoDup row_message_id).
Qed.

Lemma upsert_message_count now event t :
  uniq_message_id t ->
  rows_with_id (message_id (message event)) (upsert_message rt now event t) = 1%nat.
Proof.
  unfold uniq_message_id, upsert_message, rows_with_id. simpl. intros H.
  by apply (StoreFacts.upsert_count row_message_id).
Qed.

Lemma update_twice (v1 v2 r : MessageRow) :
  on_duplicate_update v2 (on_duplicate_update v1 r) = on_duplicate_update v2 r.
Proof. done. Qed.

(** The row stored under the message id of [event] after it was persisted:
    its place, and the values it took from the event. *)
Lemma upsert_message_row now event t :
  exists i x,
    rows (upsert_message rt now event t) !! i = Some x
    /\ row_message_id x = message_id (message event)
    /\ (forall j y, (j < i)%nat -> rows (upsert_message rt now event t) !! j = Some y
                    -> row_message_id y <> message_id (message event))
    /\ on_duplicate_update (inserted_row rt event (auto_increment t) now) x = x.
Proof.
  unfold upsert_message. simpl.
  destruct (StoreFacts.upsert_lookup row_message_id (message_id (message event))
              (on_duplicate_update (inserted_row rt event (auto_increment t) now))
              (inserted_row rt event (auto_increment t) now)
              (fun _ => eq_refl) eq_refl (rows t))
    as (i & x & Hi & Hx & Hbefore & Hcase).
  exists i, x. repeat split; [done..|].
  destruct Hcase as [(-> & _)|(r & _ & _ & ->)]; done.
Qed.

Lemma update_independent_of_id event id now id' now' :
  on_duplicate_update (inserted_row rt event id now)
  = on_duplicate_update (inserted_row rt event id' now').
Proof. done. Qed.

(** Persisting [event'] after an event with the same message id rewrites the
    row of that id where it stands. *)
Lemma upsert_message_again now now' event event' t :
  message_id (message event') = message_id (message event) ->
  exists i x,
    rows (upsert_message rt now event t) !! i = Some x
    /\ row_message_id x = message_id (message event)
    /\ on_duplicate_update (inserted_row rt event 0 0) x = x
    /\ rows (upsert_message rt now' event' (upsert_message rt now event t))
       = <[i := on_duplicate_update (inserted_row rt event' 0 0) x]>
           (rows (upsert_message rt now event t)).
Proof.
  intros Hid.
  destruct (upsert_message_row now event t) as (i & x & Hi & Hx & Hbefore & Hfix).
  exists i, x. split; [done|]. split; [done|]. split.
  { by rewrite (update_independent_of_id event 0 0 (auto_increment t) now). }
  unfold upsert_message at 1. cbn [rows].
  rewrite (update_independent_of_id event' 0 0
             (auto_increment (upsert_message rt now event t)) now').
  apply (StoreFacts.upsert_in_place row_message_id); [done|done|..].
  - cbn. by rewrite Hid.
  - intros j y Hj Hy. cbn. rewrite Hid. by eapply Hbefore.
Qed.

End WithRuntime.

(** C1. Persisting an event is an upsert keyed by its message id.  On a
    message table that respects its unique key, once [event] is persisted
    ([db1]): the table holds exactly one row of that message id, whose dedupe
    hash is the hash of the message id and the serialized event; persisting
    [event] again ([db2]) changes no row, so the row count and the hash stay;
    persisting an event of the same message id with another payload ([db3])
    rewrites that one row where it stands (same position, [id] and
    [created_at]; content, text, dedupe hash and raw event of the new
    payload) and still leaves exactly one row of that message id. *)
Theorem persistMessage_idempotent_upsert (rt : Runtime) (now1 now2 now3 : Z)
    (event event' : LarkMessageEvent) (db db1 db2 db3 : Db rt) :
  uniq_message_id (message_table db) ->
  persistMessage rt now1 event db = (Ok tt, db1) ->
  persistMessage rt now2 event db1 = (Ok tt, db2) ->
  message_id (message event') = message_id (message event) ->
  persistMessage rt now3 event' db1 = (Ok tt, db3) ->
  rows_with_id (message_id (message event)) (message_table db1) = 1%nat
  /\ rows_with_id (message_id (message event)) (message_table db2) = 1%nat
  /\ rows (message_table db2) = rows (message_table db1)
  /\ rows_with_id (message_id (message event)) (message_table db3) = 1%nat
  /\ exists i r r',
       rows (message_table db1) !! i = Some r
       /\ row_message_id r = message_id (message event)
       /\ row_dedupe_hash r
          = computeDedupeHash rt (message_id (message event)) (JSON_stringify rt event)
       /\ rows (message_table db3) = <[i := r']> (rows (message_table db1))
       /\ row_id r' = row_id r
       /\ row_message_id r' = message_id (message event)
       /\ row_created_at r' = row_created_at r
       /\ row_content r' = Some (default "" (content (message event')))
       /\ row_text_content r' = row_text_content (inserted_row rt event' 0 0)
       /\ row_dedupe_hash r'
          = computeDedupeHash rt (message_id (message event)) (JSON_stringify rt event')
       /\ row_raw_event r' = JSON_stringify rt event'.
Proof.
  intros Huniq H1%persistMessage_Ok H2%persistMessage_Ok Hid H3%persistMessage_Ok.
  pose proof (upsert_message_uniq rt now1 event _ Huniq) as Huniq1.
  rewrite <- H1 in Huniq1.
  split; [rewrite H1; by apply upsert_message_count|].
  split; [rewrite H2; by apply upsert_message_count|].
  destruct (upsert_message_again rt now1 now2 event event (message_table db) eq_refl)
    as (i & x & Hi & Hx & Hfix & Hsame).
  destruct (upsert_message_again rt now1 now3 event event' (message_table db) Hid)
    as (i' & x' & Hi' & Hx' & Hfix' & Hnew).
  rewrite <- H1 in Hi, Hsame, Hi', Hnew.
  split.
  { rewrite H2, Hsame, Hfix. by apply list_insert_id. }
  split; [rewrite H3, <- Hid; by apply upsert_message_count|].
  exists i', x', (on_duplicate_update (inserted_row rt event' 0 0) x').
  split; [done|]. split; [done|]. split; [by rewrite <- Hfix'|].
  split; [by rewrite H3|]. cbn. by rewrite Hid, Hx'.
Qed.

Lemma persistMessage_idempotent_upsert_witness :
  rows_with_id "om_1"
    (message_table (persisted 10 (example_event "tenant_a" "hello") empty_db)) = 1%nat.
Proof.
  apply (persistMessage_idempotent_upsert example_runtime 10 11 12
           (example_event "tenant_a" "hello") (example_event "tenant_a" "hello, edited")
           empty_db
           (persisted 10 (example_event "tenant_a" "hello") empty_db)
           (persisted 11 (example_event "tenant_a" "hello")
              (persisted 10 (example_event "tenant_a" "hello") empty_db))
           (persisted 12 (example_event "tenant_a" "hello, edited")
              (persisted 10 (example_event "tenant_a" "hello") empty_db))).
  - constructor.
  - reflexivity.
  - reflexivity.
  - reflexivity.
  - reflexivity.
Defined.

(** C10, as stated, fails: two events with the message id [om_1], one of
    [tenant_a] and one of [tenant_b], persisted in turn into an empty table,
    leave one row, which carries the tenant key and the payload of the
    second event; no row of [tenant_a] remains. *)
Lemma persistMessage_tenant_scoped_counterexample :
  map (fun r => (row_message_id r, row_tenant_key r, row_raw_event r))
      (rows (message_table
               (persisted 11 (example_event "tenant_b" "from b")
                  (persisted 10 (example_event "tenant_a" "from a") empty_db))))
  = [("om_1", Some "tenant_b", "from b")].
Proof. reflexivity. Qed.

(** C10, amended. Message ids are unique across the whole message table,
    the tenant key being an ordinary column that the upsert overwrites: on a
    table that respects its unique key, persisting two events that carry the
    same message id, whatever their tenant keys, leaves exactly one row of
    that message id; the second persist rewrites the row of the first where
    it stands, and every row of that message id then carries the tenant key
    of the second event. *)
Theorem persistMessage_message_id_global (rt : Runtime) (now1 now2 : Z)
    (event1 event2 : LarkMessageEvent) (db db1 db2 : Db rt) :
  uniq_message_id (message_table db) ->
  message_id (message event2) = message_id (message event1) ->
  persistMessage rt now1 event1 db = (Ok tt, db1) ->
  persistMessage rt now2 event2 db1 = (Ok tt, db2) ->
  rows_with_id (message_id (message event1)) (message_table db2) = 1%nat
  /\ length (rows (message_table db2)) = length (rows (message_table db1))
  /\ (exists i r1 r2,
        rows (message_table db1) !! i = Some r1
        /\ row_message_id r1 = message_id (message event1)
        /\ row_tenant_key r1 = tenant_key event1
        /\ rows (message_table db2) = <[i := r2]> (rows (message_table db1))
        /\ row_id r2 = row_id r1
        /\ row_tenant_key r2 = tenant_key event2)
  /\ (forall r, r ∈ rows (message_table db2) ->
                row_message_id r = message_id (message event1) ->
                row_tenant_key r = tenant_key event2).
Proof.
  intros Huniq Hid H1%persistMessage_Ok H2%persistMessage_Ok.
  pose proof (upsert_message_uniq rt now1 event1 _ Huniq) as Huniq1.
  pose proof (upsert_message_uniq rt now2 event2 _ Huniq1) as Huniq2.
  rewrite <- H1 in Huniq1. rewrite <- H1, <- H2 in Huniq2.
  destruct (upsert_message_again rt now1 now2 event1 event2 (message_table db) Hid)
    as (i & x & Hi & Hx & Hfix & Hnew).
  rewrite <- H1 in Hi, Hnew. rewrite <- H2 in Hnew.
  split; [rewrite H2, <- Hid; by apply upsert_message_count|].
  split; [by rewrite Hnew, length_insert|].
  split.
  { exists i, x, (on_duplicate_update (inserted_row rt event2 0 0) x).
    split; [done|]. split; [done|]. split; [by rewrite <- Hfix|]. done. }
  intros r Hr Hmid.
  apply list_elem_of_lookup in Hr as [j Hj].
  destruct (decide (j = i)) as [->|Hne].
  - rewrite Hnew, list_lookup_insert_eq in Hj by (by eapply lookup_lt_Some).
    by inversion Hj.
  - exfalso. unfold uniq_message_id in Huniq2.
    assert (Hi2 : rows (message_table db2) !! i
                  = Some (on_duplicate_update (inserted_row rt event2 0 0) x)).
    { rewrite Hnew. apply list_lookup_insert_eq. by eapply lookup_lt_Some. }
    apply Hne. eapply NoDup_lookup; [exact Huniq2|..].
    + rewrite list_lookup_fmap, Hj. cbn. by rewrite Hmid.
    + rewrite list_lookup_fmap, Hi2. cbn. by rewrite Hx.
Qed.

Lemma persistMessage_message_id_global_witness :
  rows_with_id "om_1"
    (message_table
       (persisted 11 (example_event "tenant_b" "from b")
          (persisted 10 (example_event "tenant_a" "from a") empty_db))) = 1%nat.
Proof.
  apply (persistMessage_message_id_global example_runtime 10 11
           (example_event "tenant_a" "from a") (example_event "tenant_b" "from b")
           empty_db
           (persisted 10 (example_event "tenant_a" "from a") empty_db)
           (persisted 11 (example_event "tenant_b" "from b")
              (persisted 10 (example_event "tenant_a" "from a") empty_db))).
  - constructor.
  - reflexivity.
  - reflexivity.
  - reflexivity.
Defined.


(** *** Histories of persisted events *)

Section History.
Context (rt : Runtime).

Lemma find_other_upsert (mid mid' : string) (upd : MessageRow -> MessageRow)
    (new : MessageRow) (l : list MessageRow) :
  mid' <> mid -> row_message_id new = mid ->
  (forall r, row_message_id (upd r) = row_message_id r) ->
  List.find (holds_message_id mid')
    (Store.insert_on_duplicate_key_update (holds_message_id mid) upd new l)
  = List.find (holds_message_id mid') l.
Proof.
  intros Hne Hnew Hupd. unfold holds_message_id.
  induction l as [|r l IH]; cbn [Store.insert_on_duplicate_key_update List.find].
  - by rewrite bool_decide_eq_false_2 by congruence.
  - destruct (decide (row_message_id r = mid)) as [Hr|Hr].
    + rewrite (bool_decide_eq_true_2 _ Hr). cbn [List.find].
      rewrite !bool_decide_eq_false_2; [done|congruence|rewrite Hupd; congruence].
    + rewrite (bool_decide_eq_false_2 _ Hr). cbn [List.find]. by rewrite IH.
Qed.

Lemma reflects_upsert persisted t now event :
  reflects rt persisted t ->
  reflects rt (persisted ++ [(now, event)]) (upsert_message rt now event t).
Proof.
  intros [Huniq Hrows]. split; [by apply upsert_message_uniq|].
  intros mid. specialize (Hrows mid).
  rewrite List.filter_app. cbn [List.filter]. unfold about at 2. cbn [snd].
  unfold message_row, upsert_message in *. cbn [rows].
  change (row_message_id (inserted_row rt event (auto_increment t) now))
    with (message_id (message event)).
  case_bool_decide as Hmid.
  - subst mid.
    rewrite StoreFacts.upsert_find;
      [|by apply bool_decide_eq_true_2
       |intros r Hr; apply bool_decide_eq_true_2;
        by apply bool_decide_eq_true_1 in Hr].
    destruct (List.filter _ persisted) as [|[now0 first] later].
    + rewrite Hrows. cbn. by exists (auto_increment t).
    + destruct Hrows as [id ->]. exists id. cbn [app].
      by rewrite last_last.
  - rewrite find_other_upsert by done. by rewrite app_nil_r.
Qed.

Lemma persist_all_reflects (calls : list (Z * LarkMessageEvent)) :
  forall (db : Db rt) (before : list (Z * LarkMessageEvent)),
    reflects rt before (message_table db) ->
    reflects rt (before ++ fst (persist_all rt calls db))
             (message_table (snd (persist_all rt calls db))).
Proof.
  induction calls as [|[now event] rest IH]; intros db before Hinv.
  - cbn. by rewrite app_nil_r.
  - cbn [persist_all].
    destruct (persistMessage rt now event db) as [answer db1] eqn:Hrun.
    specialize (IH db1).
    destruct (persist_all rt rest db1) as [persisted db'] eqn:Hrest.
    cbn [fst snd] in *.
    destruct answer as [[]|e].
    + apply persistMessage_Ok in Hrun.
      rewrite (cons_middle _ before persisted), app_assoc.
      apply IH. rewrite Hrun. by apply reflects_upsert.
    + apply persistMessage_Throw in Hrun.
      apply IH. by rewrite Hrun.
Qed.

End History.

(** X1. Whatever calls of [persistMessage] a store with an empty
    message table is sent one after the other, and whichever of them throw:
    the table keeps its unique key, holds no row for a message id that no
    call that returned bears, and for any other message id holds the row
    inserted by the first call that returned for it (its [id] and
    [created_at]) with the payload of the last one. *)
Theorem persistMessage_last_write_wins (rt : Runtime) (o : OtherTables rt)
    (calls : list (Z * LarkMessageEvent)) (mid : string) :
  let persisted := fst (persist_all rt calls (fresh rt o)) in
  let table := message_table (snd (persist_all rt calls (fresh rt o))) in
  uniq_message_id table
  /\ match List.filter (about mid) persisted with
     | [] => message_row mid table = None
     | (now0, first) :: later =>
         exists id : Z,
           message_row mid table
           = Some (on_duplicate_update
                     (inserted_row rt (snd (List.last later (now0, first))) 0 0)
                     (inserted_row rt first id now0))
     end.
Proof.
  cbn zeta.
  destruct (persist_all_reflects rt calls (fresh rt o) []) as [Huniq Hrows].
  { split; [apply NoDup_nil_2|]. by intros mid'. }
  split; [done|]. apply Hrows.
Qed.

(** Two events of one message id leave one row: the [id] and [created_at]
    of the first, the content of the second. *)
Example persist_all_history :
  let calls := [ (10, example_event "t1" "a"); (20, example_event "t1" "b") ] in
  map (fun r => (row_id r, row_content r, row_created_at r))
      (rows (message_table (snd (persist_all example_runtime calls empty_db))))
  = [ (1, Some "b", 10) ].
Proof. by vm_compute. Qed.

End PersistenceFacts.

(** ** The serialized write queue *)

Module QueueFacts.
Import Persistence.

#[local] Open Scope nat_scope.

Lemma enqueue_all_snoc (calls : list Call) (c : Call) (q : Queues) :
  enqueue_all (calls ++ [c]) q
  = snd (enqueueWrite (call_time c) (call_key c) (call_env c) (call_task c)
                      (enqueue_all calls q)).
Proof. unfold enqueue_all. by rewrite fold_left_app. Qed.

(** One call, spelled out: the task starts when the promise found under the
    key has settled and the call is made; the promise left under the key
    settles when the task does. *)
Lemma enqueue_step (c : Call) (q : Queues) :
  let s := Nat.max (settles_at (default (Promise_resolve (call_time c))
                                        (writeQueues q !! call_key c)))
                   (call_time c) in
  exists next rep,
    snd (enqueueWrite (call_time c) (call_key c) (call_env c) (call_task c) q)
    = {| writeQueues := <[call_key c := next]> (writeQueues q);
         calls_made := S (calls_made q);
         schedule := schedule q
                     ++ [Started (call_key c) (calls_made q) s;
                         Settled (call_key c) (calls_made q) (finish c s) (ending c s)]
                     ++ rep |}
    /\ settles_at next = finish c s
    /\ (forall ev, ev ∈ rep ->
          exists text, ev = Reported (call_key c) (calls_made q) (finish c s) text)
    /\ (forall e sink,
          ending c s = Rejected e -> call_env c ≫= error = Some sink ->
          Reported (call_key c) (calls_made q) (finish c s)
                   ("[lark] mysql write failed: " +:+ e) ∈ rep).
Proof.
  intros s. unfold enqueueWrite, then_task, catch_undefined. cbn [outcome settles_at].
  set (e0 := settles_at (default (Promise_resolve (call_time c))
                                 (writeQueues q !! call_key c))) in *.
  assert (Hs : Nat.max (Nat.max e0 (call_time c)) (call_time c) = s) by (subst s; lia).
  rewrite Hs. unfold finish, ending.
  destruct (run (call_task c) s) as [d o] eqn:Hrun. cbn [fst snd].
  assert (Hf : Nat.max (s + d) (call_time c) = s + d) by (subst s; lia).
  unfold catch_report. cbn [outcome settles_at]. rewrite Hf.
  destruct o as [|e].
  - eexists _, []. cbn [snd]. split; [reflexivity|]. split; [done|].
    split; [by intros ev ?%elem_of_nil | discriminate].
  - destruct (call_env c ≫= error) as [sink|] eqn:Hsink.
    + eexists _, [_]. cbn [snd]. split; [reflexivity|]. split; [done|]. split.
      * intros ev ->%list_elem_of_singleton. by eexists.
      * intros e' sink' [= <-] _. by apply list_elem_of_singleton.
    + eexists _, []. cbn [snd]. split; [reflexivity|]. split; [done|].
      split; [by intros ev ?%elem_of_nil | discriminate].
Qed.

Lemma consistent_nil : consistent [] no_queues.
Proof.
  split; cbn.
  - done.
  - by intros ev ?%elem_of_nil.
  - intros j c. by rewrite lookup_nil.
  - by intros k k' j s s' ?%elem_of_nil.
  - by intros k k' j f f' o o' ?%elem_of_nil.
  - intros k. rewrite lookup_empty. intros i ci Hi. lia.
Qed.

Lemma none_before_snoc calls c k j :
  j <= length calls -> none_before calls k j -> none_before (calls ++ [c]) k j.
Proof.
  intros Hj H i ci Hi Hl. apply (H i ci Hi).
  by rewrite lookup_app_l in Hl by lia.
Qed.

Lemma last_before_snoc calls c k j i :
  j <= length calls -> last_before calls k j i -> last_before (calls ++ [c]) k j i.
Proof.
  intros Hj (Hi & (ci & Hci & Hk) & Hafter). split; [done|]. split.
  - exists ci. split; [|done]. by rewrite lookup_app_l by lia.
  - intros i' ci' Hi' Hl. apply (Hafter i' ci' Hi').
    by rewrite lookup_app_l in Hl by lia.
Qed.

Lemma start_rule_snoc calls c sched more j cj s :
  j <= length calls ->
  start_rule calls sched j cj s -> start_rule (calls ++ [c]) (sched ++ more) j cj s.
Proof.
  intros Hj [[Hn ->]|(i & ci & si & Hl & Hi & Hs & ->)].
  - left. split; [|done]. by apply none_before_snoc.
  - right. exists i, ci, si. split; [by apply last_before_snoc|].
    split; [|split; [|done]].
    + rewrite lookup_app_l; [done|]. by eapply lookup_lt_Some.
    + apply elem_of_app. by left.
Qed.

Lemma consistent_snoc (calls : list Call) (c : Call) (q : Queues) :
  consistent calls q ->
  consistent (calls ++ [c])
    (snd (enqueueWrite (call_time c) (call_key c) (call_env c) (call_task c) q)).
Proof.
  intros [Hmade Hfresh Hstarted Hone Hend Htail].
  destruct (enqueue_step c q) as (next & rep & -> & Hnext & Hrep & Hreported).
  set (s := Nat.max (settles_at (default (Promise_resolve (call_time c))
                                         (writeQueues q !! call_key c)))
                    (call_time c)) in *.
  rewrite Hmade in *.
  set (n := length calls) in *.
  assert (Hnew : forall ev,
             ev ∈ [Started (call_key c) n s;
                   Settled (call_key c) n (finish c s) (ending c s)] ++ rep ->
             event_call ev = n).
  { cbn [app]. intros ev [->|[->|Hev]%elem_of_cons]%elem_of_cons; [done|done|].
    destruct (Hrep ev Hev) as [text ->]. done. }
  assert (Hrule : start_rule (calls ++ [c])
                    (schedule q ++ [Started (call_key c) n s;
                                    Settled (call_key c) n (finish c s) (ending c s)] ++ rep)
                    n c s).
  { specialize (Htail (call_key c)). subst s.
    destruct (writeQueues q !! call_key c) as [p|]; cbn.
    - destruct Htail as (i & ci & si & Hl & Hi & Hs & Hp).
      right. exists i, ci, si. split; [by apply last_before_snoc|].
      split; [by rewrite lookup_app_l by (by eapply lookup_lt_Some)|].
      split; [apply elem_of_app; by left|]. by rewrite Hp.
    - left. split; [by apply none_before_snoc|lia]. }
  split; cbn [calls_made schedule writeQueues].
  - rewrite length_app. cbn. lia.
  - intros ev [Hev|Hev]%elem_of_app; rewrite length_app; cbn.
    + specialize (Hfresh ev Hev). lia.
    + rewrite (Hnew ev Hev). lia.
  - intros j cj Hj.
    destruct (decide (j < n)) as [Hlt|Hge].
    + rewrite lookup_app_l in Hj by done.
      destruct (Hstarted j cj Hj) as (sj & H1 & H2 & H3 & H4).
      exists sj. split; [apply elem_of_app; by left|].
      split; [apply elem_of_app; by left|].
      split; [apply start_rule_snoc; [lia|done]|].
      intros e sink He Hsink. apply elem_of_app. left. by eapply H4.
    + assert (j = n) as -> by (apply lookup_lt_Some in Hj; rewrite length_app in Hj; cbn in Hj; lia).
      rewrite list_lookup_middle in Hj by done. injection Hj as <-.
      exists s. split; [apply elem_of_app; right; apply elem_of_cons; by left|].
      split; [apply elem_of_app; right; apply elem_of_cons; right; apply elem_of_cons; by left|].
      split; [done|].
      intros e sink He Hsink. apply elem_of_app. right.
      do 2 (apply elem_of_cons; right). by eapply Hreported.
  - intros k k' j sj sj' [H1|H1]%elem_of_app [H2|H2]%elem_of_app.
    + by eapply Hone.
    + apply Hfresh in H1. apply Hnew in H2. cbn in *. lia.
    + apply Hfresh in H2. apply Hnew in H1. cbn in *. lia.
    + apply elem_of_cons in H1 as [H1|H1]; [|apply elem_of_cons in H1 as [H1|H1]; [done|]].
      2:{ destruct (Hrep _ H1) as [? ?]. done. }
      apply elem_of_cons in H2 as [H2|H2]; [|apply elem_of_cons in H2 as [H2|H2]; [done|]].
      2:{ destruct (Hrep _ H2) as [? ?]. done. }
      by simplify_eq.
  - intros k k' j f f' o o' [H1|H1]%elem_of_app [H2|H2]%elem_of_app.
    + by eapply Hend.
    + apply Hfresh in H1. apply Hnew in H2. cbn in *. lia.
    + apply Hfresh in H2. apply Hnew in H1. cbn in *. lia.
    + apply elem_of_cons in H1 as [H1|H1]; [done|apply elem_of_cons in H1 as [H1|H1]].
      2:{ destruct (Hrep _ H1) as [? ?]. done. }
      apply elem_of_cons in H2 as [H2|H2]; [done|apply elem_of_cons in H2 as [H2|H2]].
      2:{ destruct (Hrep _ H2) as [? ?]. done. }
      by simplify_eq.
  - intros k. rewrite length_app. cbn [length]. replace (length calls + 1) with (S n) by (subst n; lia).
    destruct (decide (call_key c = k)) as [<-|Hne].
    + rewrite lookup_insert_eq. exists n, c, s.
      split.
      { split; [lia|]. split.
        - exists c. split; [|done]. by apply list_lookup_middle.
        - intros i' ci' Hi'. lia. }
      split; [by apply list_lookup_middle|].
      split; [apply elem_of_app; right; apply elem_of_cons; by left|done].
    + rewrite lookup_insert_ne by done. specialize (Htail k).
      destruct (writeQueues q !! k) as [p|].
      * destruct Htail as (i & ci & si & (Hi & (ci' & Hci' & Hk) & Hafter) & Hci & Hs & Hp).
        exists i, ci, si. split.
        { split; [lia|]. split.
          - exists ci'. split; [|done]. by rewrite lookup_app_l by (by eapply lookup_lt_Some).
          - intros i' x Hi' Hx. destruct (decide (i' = n)) as [->|Hn].
            + rewrite list_lookup_middle in Hx by done. by injection Hx as <-.
            + rewrite lookup_app_l in Hx by (subst n; lia).
              apply (Hafter i' x); [subst n; lia|done]. }
        split; [by rewrite lookup_app_l by (by eapply lookup_lt_Some)|].
        split; [apply elem_of_app; by left|done].
      * intros i ci Hi Hci. destruct (decide (i = n)) as [->|Hn].
        -- rewrite list_lookup_middle in Hci by done. by injection Hci as <-.
        -- rewrite lookup_app_l in Hci by (subst n; lia).
           apply (Htail i ci); [subst n; lia|done].
Qed.

Lemma consistent_all (calls : list Call) : consistent calls (enqueue_all calls no_queues).
Proof.
  induction calls as [|c calls IH] using rev_ind.
  - apply consistent_nil.
  - rewrite enqueue_all_snoc. by apply consistent_snoc.
Qed.

(** Tasks of one key run in the order of their calls, one at a time. *)
Lemma consistent_ordered (calls : list Call) (q : Queues) :
  consistent calls q ->
  forall j i ci cj fi oi sj,
    i < j -> calls !! i = Some ci -> calls !! j = Some cj ->
    call_key ci = call_key cj ->
    Settled (call_key ci) i fi oi ∈ schedule q ->
    Started (call_key cj) j sj ∈ schedule q ->
    fi <= sj.
Proof.
  intros [_ _ Hstarted Hone Hend _].
  induction j as [j IH] using lt_wf_ind.
  intros i ci cj fi oi sj Hij Hi Hj Hkey Hfi Hsj.
  destruct (Hstarted j cj Hj) as (s & Hs & _ & Hrule & _).
  destruct (Hone _ _ _ _ _ Hsj Hs) as [_ ->].
  destruct Hrule as [[Hnone _]|(l & cl & sl & (Hlj & _ & Hafter) & Hl & Hsl & ->)].
  { exfalso. by apply (Hnone i ci Hij Hi). }
  destruct (Hstarted l cl Hl) as (sl' & Hsl' & Hfl & _).
  assert (Hkl : call_key cl = call_key cj).
  { destruct (Hone _ _ _ _ _ Hsl Hsl') as [Hk _]. done. }
  rewrite Hkl in Hsl'.
  destruct (Hone _ _ _ _ _ Hsl Hsl') as [_ <-].
  destruct (decide (i = l)) as [->|Hne].
  - assert (ci = cl) as -> by congruence.
    destruct (Hend _ _ _ _ _ _ _ Hfi Hfl) as (_ & -> & _). lia.
  - assert (i < l).
    { destruct (decide (i < l)); [done|]. exfalso.
      apply (Hafter i ci); [lia|done|done]. }
    assert (fi <= sl).
    { apply (IH l Hlj i ci cl fi oi sl); try done; congruence. }
    unfold finish. lia.
Qed.

(** C5. [enqueueWrite] returns nothing to its caller, and after any
    sequence of calls the schedule it has produced is this.  Every task is
    run, whatever became of the tasks before it: the task of each call starts
    exactly once, not before the call, and settles exactly once as its run
    says; if it rejects and the caller gave an error sink, the error text is
    sent to the sink when the task settles.  A task starts at the time of its
    call when no earlier call had its key, and otherwise at the later of that
    time and the settlement of the task of the last earlier call with its
    key, so that calls with other keys have no part in it.  Hence for two
    calls with one key the task of the later call starts only after the task
    of the earlier has settled, be it fulfilled or rejected. *)
Theorem enqueueWrite_serializes_per_key (calls : list Call) :
  (forall now key env task q, fst (enqueueWrite now key env task q) = tt)
  /\ (forall j c,
        calls !! j = Some c ->
        exists s,
          Started (call_key c) j s ∈ schedule (enqueue_all calls no_queues)
          /\ call_time c <= s
          /\ Settled (call_key c) j (finish c s) (ending c s)
             ∈ schedule (enqueue_all calls no_queues)
          /\ start_rule calls (schedule (enqueue_all calls no_queues)) j c s
          /\ (forall k' s',
                Started k' j s' ∈ schedule (enqueue_all calls no_queues) ->
                k' = call_key c /\ s' = s)
          /\ (forall k' f o,
                Settled k' j f o ∈ schedule (enqueue_all calls no_queues) ->
                k' = call_key c /\ f = finish c s /\ o = ending c s)
          /\ (forall e sink,
                ending c s = Rejected e -> call_env c ≫= error = Some sink ->
                Reported (call_key c) j (finish c s) ("[lark] mysql write failed: " +:+ e)
                ∈ schedule (enqueue_all calls no_queues)))
  /\ (forall i j ci cj fi oi sj,
        i < j -> calls !! i = Some ci -> calls !! j = Some cj ->
        call_key ci = call_key cj ->
        Settled (call_key ci) i fi oi ∈ schedule (enqueue_all calls no_queues) ->
        Started (call_key cj) j sj ∈ schedule (enqueue_all calls no_queues) ->
        fi <= sj)
  /\ (forall j cj,
        calls !! j = Some cj -> none_before calls (call_key cj) j ->
        Started (call_key cj) j (call_time cj) ∈ schedule (enqueue_all calls no_queues)).
Proof.
  pose proof (consistent_all calls) as Hc.
  split.
  { intros now key env task q. unfold enqueueWrite.
    destruct (then_task _ _ _ _ _) as [p2 ev2]. by destruct (catch_report _ _ _ _ _). }
  split.
  { intros j c Hj. destruct (c_started _ _ Hc j c Hj) as (s & Hs & Hf & Hrule & Hrep).
    exists s. split; [done|]. split.
    { destruct Hrule as [[_ ->]|(i & ci & si & _ & _ & _ & ->)]; lia. }
    split; [done|]. split; [done|]. split.
    { intros k' s' Hs'. destruct (c_one_start _ _ Hc _ _ _ _ _ Hs' Hs) as [-> ->]. done. }
    split; [|done].
    intros k' f o Hf'. destruct (c_one_end _ _ Hc _ _ _ _ _ _ _ Hf' Hf) as (-> & -> & ->).
    done. }
  split.
  { intros i j ci cj fi oi sj. by apply consistent_ordered. }
  intros j cj Hj Hnone.
  destruct (c_started _ _ Hc j cj Hj) as (s & Hs & _ & Hrule & _).
  destruct Hrule as [[_ ->]|(i & ci & si & (Hi & (x & Hx & Hk) & _) & _)]; [done|].
  exfalso. by apply (Hnone i x Hi Hx).
Qed.

Example enqueueWrite_schedule :
  schedule (enqueue_all example_calls no_queues)
  = [ Started "db1" 0 0; Settled "db1" 0 5 (Rejected "boom");
      Reported "db1" 0 5 "[lark] mysql write failed: boom";
      Started "db1" 1 5; Settled "db1" 1 7 Fulfilled;
      Started "db2" 2 1; Settled "db2" 2 2 Fulfilled ].
Proof. vm_compute. reflexivity. Qed.

Lemma enqueueWrite_serializes_per_key_witness :
  Started "db2" 2 1 ∈ schedule (enqueue_all example_calls no_queues).
Proof.
  refine (proj2 (proj2 (proj2 (enqueueWrite_serializes_per_key example_calls))) 2
            {| call_time := 1; call_key := "db2"; call_env := None;
               call_task := {| run := fun _ => (1, Fulfilled) |} |} _ _).
  - reflexivity.
  - intros [|[|i]] ci Hi Hci; [| |lia]; injection Hci as <-; discriminate.
Defined.

End QueueFacts.

(** ** Resource registration *)

Module ResourceFacts.
Import Resource.

Lemma same_but_metadata_refl r : same_but_metadata r r.
Proof. by repeat split. Qed.

Lemma same_but_metadata_trans r1 r2 r3 :
  same_but_metadata r1 r2 -> same_but_metadata r2 r3 -> same_but_metadata r1 r3.
Proof. unfold same_but_metadata. intros H1 H2. destruct_and!. repeat split; congruence. Qed.

Lemma refresh_same_but_metadata res r : same_but_metadata r (refresh_metadata res r).
Proof. by repeat split. Qed.

Lemma same_key_refresh t m f res r :
  same_key t m f (refresh_metadata res r) = same_key t m f r.
Proof. done. Qed.

(** One row of the insert: the rows that were there keep their place. *)
Lemma upsert_resource_frame tenantKey now rows next res i r :
  rows !! i = Some r ->
  exists r', (upsert_resource tenantKey now (rows, next) res).1 !! i = Some r'
             /\ same_but_metadata r r'.
Proof.
  intros Hi. cbn.
  destruct (StoreFacts.upsert_frame
              (same_key tenantKey (Found.messageId res) (Found.fileKey res))
              (refresh_metadata res) (registered_row tenantKey res next now) rows i r Hi)
    as [H|H]; rewrite H; eexists; (split; [done|]).
  - apply same_but_metadata_refl.
  - apply refresh_same_but_metadata.
Qed.

Lemma fold_upsert_frame tenantKey now resources rows next i r :
  rows !! i = Some r ->
  exists r', (fold_left (upsert_resource tenantKey now) resources (rows, next)).1 !! i
             = Some r'
             /\ same_but_metadata r r'.
Proof.
  revert rows next r. induction resources as [|res rest IH]; intros rows next r Hi.
  - exists r. split; [done|apply same_but_metadata_refl].
  - cbn [fold_left].
    destruct (upsert_resource_frame tenantKey now rows next res i r Hi) as (r1 & H1 & Hs1).
    destruct (upsert_resource tenantKey now (rows, next) res) as [rows1 next1] eqn:E.
    destruct (IH rows1 next1 r1 H1) as (r2 & H2 & Hs2).
    exists r2. split; [done|]. by eapply same_but_metadata_trans.
Qed.

Lemma fold_upsert_registered tenantKey now resources rows next res :
  registered tenantKey res rows = true ->
  registered tenantKey res
    (fold_left (upsert_resource tenantKey now) resources (rows, next)).1 = true.
Proof.
  revert rows next. induction resources as [|res' rest IH]; intros rows next H; [done|].
  cbn [fold_left]. unfold upsert_resource at 2. apply IH.
  by apply StoreFacts.upsert_existsb.
Qed.

Lemma fold_upsert_registers tenantKey now resources rows next res :
  res ∈ resources ->
  registered tenantKey res
    (fold_left (upsert_resource tenantKey now) resources (rows, next)).1 = true.
Proof.
  revert rows next. induction resources as [|res' rest IH]; intros rows next Hin.
  - by apply elem_of_nil in Hin.
  - cbn [fold_left]. unfold upsert_resource at 2.
    apply elem_of_cons in Hin as [->|Hin]; [|by apply IH].
    apply fold_upsert_registered. unfold registered.
    apply StoreFacts.upsert_present_any; [|done].
    unfold same_key. cbn. by rewrite !bool_decide_eq_true_2.
Qed.

Lemma fold_upsert_length tenantKey now resources rows next :
  (forall res, res ∈ resources -> registered tenantKey res rows = true) ->
  length (fold_left (upsert_resource tenantKey now) resources (rows, next)).1
  = length rows.
Proof.
  revert rows next. induction resources as [|res rest IH]; intros rows next Hall; [done|].
  cbn [fold_left]. unfold upsert_resource at 2. rewrite IH.
  - rewrite StoreFacts.upsert_length_any.
    specialize (Hall res (list_elem_of_here _ _)). unfold registered in Hall.
    by rewrite Hall.
  - intros res' Hin. apply StoreFacts.upsert_existsb; [done|].
    apply Hall. by apply list_elem_of_further.
Qed.

Lemma upsertResources_table pl tenantKey resources w :
  table (upsertResources pl tenantKey resources w)
  = (fold_left (upsert_resource tenantKey (clock pl (tick w))) resources
               (table w, auto_increment w)).1.
Proof.
  unfold upsertResources. destruct resources as [|res rest]; [done|].
  by destruct (fold_left _ _ _).
Qed.

(** C8. Registering attachments never touches the status or the attempts of
    a row: whatever the table holds, every row keeps its place and all its
    columns but [file_name], [mime_type] and [size_bytes].  What is
    registered is found afterwards under its key (tenant, message id, file
    key), and registering attachments whose keys are all there adds no row.
    So registering the same attachments twice leaves, the second time, the
    number of rows unchanged and each row with its status and attempts. *)
Theorem upsertResources_reregistration (pl : Platform) (tenantKey : string)
    (resources : list Found.t) (w : World) :
  (forall i r,
      table w !! i = Some r ->
      exists r', table (upsertResources pl tenantKey resources w) !! i = Some r'
                 /\ same_but_metadata r r')
  /\ (forall res,
        res ∈ resources ->
        registered tenantKey res (table (upsertResources pl tenantKey resources w)) = true)
  /\ ((forall res, res ∈ resources -> registered tenantKey res (table w) = true) ->
      length (table (upsertResources pl tenantKey resources w)) = length (table w))
  /\ length (table (upsertResources pl tenantKey resources
                      (upsertResources pl tenantKey resources w)))
     = length (table (upsertResources pl tenantKey resources w))
  /\ (forall i r,
        table (upsertResources pl tenantKey resources w) !! i = Some r ->
        exists r',
          table (upsertResources pl tenantKey resources
                   (upsertResources pl tenantKey resources w)) !! i = Some r'
          /\ Col.id r' = Col.id r
          /\ Col.status r' = Col.status r
          /\ Col.attempts r' = Col.attempts r).
Proof.
  assert (Hframe : forall w0 i r,
             table w0 !! i = Some r ->
             exists r', table (upsertResources pl tenantKey resources w0) !! i = Some r'
                        /\ same_but_metadata r r').
  { intros w0 i r Hi. rewrite upsertResources_table. by apply fold_upsert_frame. }
  assert (Hreg : forall w0 res,
             res ∈ resources ->
             registered tenantKey res (table (upsertResources pl tenantKey resources w0))
             = true).
  { intros w0 res Hin. rewrite upsertResources_table. by apply fold_upsert_registers. }
  assert (Hlen : forall w0,
             (forall res, res ∈ resources -> registered tenantKey res (table w0) = true) ->
             length (table (upsertResources pl tenantKey resources w0)) = length (table w0)).
  { intros w0 Hall. rewrite upsertResources_table. by apply fold_upsert_length. }
  split; [apply Hframe|]. split; [apply Hreg|]. split; [apply Hlen|].
  split; [apply Hlen, Hreg|].
  intros i r Hi. destruct (Hframe _ i r Hi) as (r' & Hr' & Hs).
  exists r'. split; [done|]. unfold same_but_metadata in Hs. by destruct_and!.
Qed.

(** ** The download worker *)

Lemma set_status_twice st1 sp1 su1 er1 a n1 st2 sp2 su2 er2 n2 r :
  set_status st2 sp2 su2 er2 None n2 (set_status st1 sp1 su1 er1 (Some a) n1 r)
  = set_status st2 sp2 su2 er2 (Some a) n2 r.
Proof. done. Qed.

Lemma is_row_set_status t i st sp su er a n r :
  is_row t i (set_status st sp su er a n r) = is_row t i r.
Proof. done. Qed.

Lemma update_where_twice {A : Type} (cond : A -> bool) (f g : A -> A) (rows : list A) :
  (forall r, cond (g r) = cond r) ->
  Store.update_where cond f (Store.update_where cond g rows)
  = Store.update_where cond (fun r => f (g r)) rows.
Proof.
  intros Hc. unfold Store.update_where. rewrite map_map.
  apply map_ext. intros r. destruct (cond r) eqn:E; [by rewrite Hc, E|by rewrite E].
Qed.

(** What [downloadResource] leaves in the table: nothing when it throws or
    skips a document, else one status update, to [too_large] without a
    storage path or to [ready]. *)
Lemma downloadResource_table pl t res L w out w' :
  downloadResource pl t res L w = (out, w') ->
  table w' = table w
  \/ (out = Ok tt
      /\ exists st sp er n,
          table w' = Store.update_where (is_row t (id res))
                       (set_status st sp sp er None n) (table w)
          /\ ((st = "too_large" /\ sp = None) \/ st = "ready")).
Proof.
  unfold downloadResource. intros H.
  destruct (bool_decide (resourceType res = "doc")); [left; by inversion H|].
  destruct (ensureLarkResourceDir pl (tick w)) as [baseDir|e]; [|left; by inversion H].
  destruct (mkdir pl _ _) as [[]|e]; [|left; by inversion H].
  destruct (exceeds (sizeBytes res) L).
  { right. inversion H; subst. split; [done|]. cbn.
    eexists _, _, _, _. split; [reflexivity|]. by left. }
  destruct (messageResource_get pl _ _ _ _ _) as [response|e]; [|left; by inversion H].
  destruct (exceeds _ L).
  { right. inversion H; subst. split; [done|]. cbn.
    eexists _, _, _, _. split; [reflexivity|]. by left. }
  destruct (writeFile response _) as [[]|e]; [|left; by inversion H].
  right. inversion H; subst. split; [done|]. cbn.
  eexists _, _, _, _. split; [reflexivity|]. by right.
Qed.

Lemma downloadResource_Throw_table pl t res L w e w' :
  downloadResource pl t res L w = (Throw e, w') -> table w' = table w.
Proof.
  intros H. destruct (downloadResource_table _ _ _ _ _ _ _ H) as [?|[? _]]; done.
Qed.

(** What one turn of the loop leaves in the table: one update of the row of
    the resource, which sets its attempts to one more than selected. *)
Lemma process_resource_table pl t L w res :
  exists st sp er n,
    table (process_resource pl t L w res)
    = Store.update_where (is_row t (id res))
        (set_status st sp sp er (Some (attempts res + 1)) n) (table w)
    /\ (st = "downloading" \/ (st = "too_large" /\ sp = None) \/ st = "ready"
        \/ (st = "failed" /\ sp = None))
    /\ (st = "failed" <->
        exists e w2,
          downloadResource pl t res L
            (updateResourceStatus pl t (id res) "downloading" None None None
               (Some (attempts res + 1)) w) = (Throw e, w2)).
Proof.
  unfold process_resource.
  set (w1 := updateResourceStatus pl t (id res) "downloading" None None None
               (Some (attempts res + 1)) w).
  destruct (downloadResource pl t res L w1) as [[[]|e] w2] eqn:Hd.
  - destruct (downloadResource_table _ _ _ _ _ _ _ Hd) as [Ht|(_ & st & sp & er & n & Ht & Hst)].
    + rewrite Ht. subst w1. unfold updateResourceStatus. cbn [table].
      eexists "downloading", None, None, _.
      split; [reflexivity|]. split; [by left|].
      split; [done|]. by intros (e & w3 & [=]).
    + rewrite Ht. subst w1. unfold updateResourceStatus at 1. cbn [table].
      rewrite update_where_twice by done.
      exists st, sp, er, n. split; [done|]. split; [naive_solver|].
      split; [|by intros (e & w3 & [=])].
      intros ->. destruct Hst as [[[=] _]|[=]].
  - apply downloadResource_Throw_table in Hd as Ht.
    unfold updateResourceStatus at 1. cbn [table]. rewrite Ht.
    subst w1. unfold updateResourceStatus at 1. cbn [table].
    rewrite update_where_twice by done.
    eexists "failed", None, (Some e), _. split; [reflexivity|]. split; [naive_solver|].
    split; [by eauto|done].
Qed.

(** *** Selections *)

Lemma filter_fmap_sublist {A B : Type} (g : A -> B) (f : A -> bool) (l : list A) :
  map g (List.filter f l) `sublist_of` map g l.
Proof.
  induction l as [|x l IH]; simpl; [done|].
  destruct (f x); simpl; by constructor.
Qed.

Lemma uniq_id_inj w r r' :
  uniq_id w -> r ∈ table w -> r' ∈ table w -> Col.id r = Col.id r' -> r = r'.
Proof.
  unfold uniq_id. intros Hnd [i Hi]%list_elem_of_lookup [j Hj]%list_elem_of_lookup Heq.
  assert (i = j) as ->; [|congruence].
  eapply NoDup_lookup; [exact Hnd|..].
  - by rewrite list_lookup_fmap, Hi.
  - rewrite list_lookup_fmap, Hj. cbn. by rewrite Heq.
Qed.

Lemma selection_sound t w res :
  res ∈ fetchPendingResources t w -> selected t w res.
Proof.
  unfold fetchPendingResources.
  intros (r & -> & Hr)%list_elem_of_fmap.
  apply elem_of_take in Hr as (i & Hi & _).
  apply list_elem_of_lookup_2 in Hi.
  rewrite (StoreFacts.order_by_Permutation Col.created_at) in Hi.
  apply list_elem_of_In, filter_In in Hi as [Hin Hsel].
  exists r. by rewrite list_elem_of_In.
Qed.

Lemma selection_NoDup t w :
  uniq_id w -> NoDup (map id (fetchPendingResources t w)).
Proof.
  unfold uniq_id, fetchPendingResources. intros Hnd.
  rewrite map_map. change (fun x => id (to_ResourceRow x)) with Col.id.
  apply (sublist_NoDup _ (map Col.id (Store.order_by Col.created_at
                                        (List.filter (selectable t) (table w))))).
  2:{ apply fmap_sublist. apply sublist_take. }
  rewrite (StoreFacts.order_by_Permutation Col.created_at).
  apply (sublist_NoDup _ (map Col.id (table w))); [done|apply filter_fmap_sublist].
Qed.

Lemma selection_empty t w r :
  fetchPendingResources t w = [] -> r ∈ table w -> selectable t r = false.
Proof.
  unfold fetchPendingResources. intros Hnil Hin.
  apply fmap_nil_inv in Hnil.
  destruct (Store.order_by Col.created_at (List.filter (selectable t) (table w)))
    as [|x l] eqn:E; [|discriminate].
  pose proof (StoreFacts.order_by_Permutation Col.created_at
                (List.filter (selectable t) (table w))) as Hp.
  rewrite E in Hp. apply Permutation_nil in Hp.
  destruct (selectable t r) eqn:Hs; [|done].
  assert (In r (List.filter (selectable t) (table w))) as Hr.
  { apply filter_In. by rewrite <- list_elem_of_In. }
  rewrite Hp in Hr. destruct Hr.
Qed.

(** *** One turn of the loop, on a table with unique ids *)

Lemma update_ids t i st sp su er a n rows :
  map Col.id (Store.update_where (is_row t i) (set_status st sp su er a n) rows)
  = map Col.id rows.
Proof.
  unfold Store.update_where. rewrite map_map. apply map_ext.
  intros r. by destruct (is_row t i r).
Qed.

Lemma update_other {A : Type} (cond : A -> bool) f (rows : list A) r :
  r ∈ rows -> cond r = false -> r ∈ Store.update_where cond f rows.
Proof.
  intros Hin Hc. unfold Store.update_where.
  apply list_elem_of_fmap. exists r. by rewrite Hc.
Qed.

Lemma update_hit {A : Type} (cond : A -> bool) f (rows : list A) r :
  r ∈ rows -> cond r = true -> f r ∈ Store.update_where cond f rows.
Proof.
  intros Hin Hc. unfold Store.update_where.
  apply list_elem_of_fmap. exists r. by rewrite Hc.
Qed.

Lemma update_elem {A : Type} (cond : A -> bool) f (rows : list A) r' :
  r' ∈ Store.update_where cond f rows ->
  (r' ∈ rows /\ cond r' = false) \/ (exists r, r ∈ rows /\ cond r = true /\ r' = f r).
Proof.
  unfold Store.update_where. intros (r & -> & Hin)%list_elem_of_fmap.
  destruct (cond r) eqn:E; [right; by exists r|by left].
Qed.

Lemma is_row_true t i r :
  is_row t i r = true <-> Col.tenant_key r = t /\ Col.id r = i.
Proof. unfold is_row. by rewrite andb_true_iff, !bool_decide_eq_true. Qed.

Lemma selectable_true t r :
  selectable t r = true <->
  Col.tenant_key r = t
  /\ (Col.status r = "pending" \/ Col.status r = "failed")
  /\ Col.attempts r < MAX_ATTEMPTS.
Proof.
  unfold selectable.
  rewrite !andb_true_iff, orb_true_iff, !bool_decide_eq_true. tauto.
Qed.

Lemma retries_left_cons t r rs :
  retries_left t (r :: rs)
  = ((if selectable t r then Z.to_nat (MAX_ATTEMPTS - Col.attempts r) else 0)
     + retries_left t rs)%nat.
Proof. done. Qed.

(** The count of retries left goes down by at least the number of rows hit,
    when each row hit was selectable with [a] attempts. *)
Lemma retries_left_update t i st sp su er a n rows :
  (forall r, r ∈ rows -> is_row t i r = true ->
             selectable t r = true /\ Col.attempts r = a) ->
  (retries_left t (Store.update_where (is_row t i)
                     (set_status st sp su er (Some (a + 1)%Z) n) rows)
   + Store.count_where (is_row t i) rows <= retries_left t rows)%nat.
Proof.
  unfold Store.count_where, Store.update_where.
  induction rows as [|r rs IH]; intros Hall; [done|].
  assert (IH' := IH (fun r' Hin => Hall r' (list_elem_of_further _ _ _ Hin))).
  cbn [map List.filter]. rewrite !retries_left_cons.
  destruct (is_row t i r) eqn:E; cbn [length]; [|lia].
  destruct (Hall r (list_elem_of_here _ _) E) as [Hsel Ha].
  rewrite Hsel. apply selectable_true in Hsel as (Ht & _ & Hlt).
  assert (Hnew : Col.attempts (set_status st sp su er (Some (a + 1)%Z) n r) = (a + 1)%Z)
    by done.
  rewrite Hnew. unfold MAX_ATTEMPTS in *.
  destruct (selectable t (set_status st sp su er (Some (a + 1)%Z) n r)); lia.
Qed.

Lemma count_where_hit {A : Type} (p : A -> bool) (rows : list A) r :
  r ∈ rows -> p r = true -> (1 <= Store.count_where p rows)%nat.
Proof.
  unfold Store.count_where. intros Hin Hp.
  assert (In r (List.filter p rows)) as Hr by (apply filter_In; by rewrite <- list_elem_of_In).
  destruct (List.filter p rows); [done|cbn; lia].
Qed.

Lemma process_resource_step pl t L w res :
  uniq_id w -> selected t w res ->
  uniq_id (process_resource pl t L w res)
  /\ (retries_left t (table (process_resource pl t L w res)) + 1
      <= retries_left t (table w))%nat
  /\ (forall r, r ∈ table w -> Col.id r <> id res ->
                r ∈ table (process_resource pl t L w res))
  /\ exists r st sp er n,
      r ∈ table w /\ to_ResourceRow r = res /\ selectable t r = true
      /\ set_status st sp sp er (Some (attempts res + 1)) n r
         ∈ table (process_resource pl t L w res)
      /\ (st = "downloading" \/ (st = "too_large" /\ sp = None) \/ st = "ready"
          \/ (st = "failed" /\ sp = None))
      /\ (st = "failed" <->
          exists e w2,
            downloadResource pl t res L
              (updateResourceStatus pl t (id res) "downloading" None None None
                 (Some (attempts res + 1)) w) = (Throw e, w2)).
Proof.
  intros Huniq (r & Hin & Hres & Hsel).
  destruct (process_resource_table pl t L w res) as (st & sp & er & n & Ht & Hst & Hfail).
  assert (Hrow : is_row t (id res) r = true).
  { apply is_row_true. apply selectable_true in Hsel as (? & _). by subst res. }
  rewrite Ht. split; [|split; [|split]].
  - unfold uniq_id in *. rewrite Ht. by rewrite update_ids.
  - pose proof (retries_left_update t (id res) st sp sp er (attempts res) n (table w)) as Hle.
    pose proof (count_where_hit _ _ _ Hin Hrow) as Hone.
    assert (Hall : forall r', r' ∈ table w -> is_row t (id res) r' = true ->
                              selectable t r' = true /\ Col.attempts r' = attempts res).
    { intros r' Hin' [_ Hid]%is_row_true.
      assert (r' = r) as ->; [|by subst res].
      apply (uniq_id_inj w); [done..|]. subst res. done. }
    specialize (Hle Hall). lia.
  - intros r' Hin' Hne. apply update_other; [done|].
    apply not_true_is_false. by intros [_ ?]%is_row_true.
  - exists r, st, sp, er, n. repeat split; try done; try tauto.
    by apply update_hit.
Qed.

Lemma process_batch_invariant pl t L (Inv : World -> Prop) :
  (forall w res, uniq_id w -> Inv w -> selected t w res ->
                 Inv (process_resource pl t L w res)) ->
  forall pending w,
    uniq_id w -> Inv w -> NoDup (map id pending) ->
    (forall res, res ∈ pending -> selected t w res) ->
    uniq_id (process_batch pl t L w pending)
    /\ Inv (process_batch pl t L w pending)
    /\ (retries_left t (table (process_batch pl t L w pending)) + length pending
        <= retries_left t (table w))%nat.
Proof.
  intros Hstep. induction pending as [|res rest IH]; intros w Huniq Hinv Hnd Hsel.
  - cbn. split; [done|]. split; [done|lia].
  - cbn [process_batch fold_left].
    apply NoDup_cons in Hnd as [Hfirst Hnd].
    assert (Hres : selected t w res) by apply Hsel, list_elem_of_here.
    destruct (process_resource_step pl t L w res Huniq Hres) as (Hu1 & Hle & Hother & _).
    destruct (IH (process_resource pl t L w res)) as (Hu2 & Hi2 & Hle2).
    + done.
    + by apply Hstep.
    + done.
    + intros res' Hin'.
      destruct (Hsel res' (list_elem_of_further _ _ _ Hin')) as (r' & Hr' & Hres' & Hs').
      exists r'. split; [|done]. apply Hother; [done|].
      intros Heq. apply Hfirst. apply list_elem_of_fmap. exists res'.
      split; [|done]. subst res'. done.
    + split; [done|]. split; [done|]. cbn [length].
      unfold process_batch in Hle2. lia.
Qed.

Lemma drain_invariant pl t L (Inv : World -> Prop) :
  (forall w res, uniq_id w -> Inv w -> selected t w res ->
                 Inv (process_resource pl t L w res)) ->
  forall fuel w w',
    uniq_id w -> Inv w -> drain fuel pl t L w = Some w' ->
    uniq_id w' /\ Inv w' /\ fetchPendingResources t w' = [].
Proof.
  intros Hstep. induction fuel as [|fuel IH]; intros w w' Huniq Hinv Hd; [done|].
  cbn [drain] in Hd.
  destruct (fetchPendingResources t w) as [|res rest] eqn:Hsel.
  - by inversion Hd; subst.
  - destruct (process_batch_invariant pl t L Inv Hstep (res :: rest) w) as (Hu & Hi & _).
    + done.
    + done.
    + rewrite <- Hsel. by apply selection_NoDup.
    + intros res' Hin. apply selection_sound. by rewrite Hsel.
    + by apply (IH _ _ Hu Hi).
Qed.

(** The loop ends: each turn uses up one of the retries left. *)
Lemma drain_terminates pl t L w :
  uniq_id w -> exists fuel w', drain fuel pl t L w = Some w'.
Proof.
  remember (retries_left t (table w)) as n eqn:Hn.
  assert (Hle : (retries_left t (table w) <= n)%nat) by lia. clear Hn.
  revert w Hle. induction n as [|n IH]; intros w Hle Huniq.
  - exists 1%nat. cbn [drain].
    destruct (fetchPendingResources t w) as [|res rest] eqn:Hsel; [by eexists|].
    destruct (process_batch_invariant pl t L (fun _ => True) (fun _ _ _ _ _ => I)
                (res :: rest) w) as (_ & _ & Hdec).
    + done.
    + done.
    + rewrite <- Hsel. by apply selection_NoDup.
    + intros res' Hin. apply selection_sound. by rewrite Hsel.
    + cbn [length] in Hdec. lia.
  - destruct (fetchPendingResources t w) as [|res rest] eqn:Hsel.
    + exists 1%nat. cbn [drain]. rewrite Hsel. by eexists.
    + destruct (process_batch_invariant pl t L (fun _ => True) (fun _ _ _ _ _ => I)
                  (res :: rest) w) as (Hu & _ & Hdec).
      * done.
      * done.
      * rewrite <- Hsel. by apply selection_NoDup.
      * intros res' Hin. apply selection_sound. by rewrite Hsel.
      * cbn [length] in Hdec.
        destruct (IH (process_batch pl t L w (res :: rest))) as (fuel & w' & Hd);
          [lia|done|].
        exists (S fuel), w'. cbn [drain]. by rewrite Hsel.
Qed.

(** *** The retry ceiling *)

Lemma downloadResource_effects pl t res L w out w' :
  downloadResource pl t res L w = (out, w') ->
  exists more, effects w' = effects w ++ more.
Proof.
  unfold downloadResource. intros H.
  destruct (bool_decide (resourceType res = "doc")).
  { inversion H; subst. exists []. by rewrite app_nil_r. }
  destruct (ensureLarkResourceDir pl (tick w)) as [baseDir|e].
  2:{ inversion H; subst. cbn. by eexists. }
  destruct (mkdir pl _ _) as [[]|e].
  2:{ inversion H; subst. cbn. rewrite <- app_assoc. by eexists. }
  destruct (exceeds (sizeBytes res) L).
  { inversion H; subst. cbn. rewrite <- !app_assoc. by eexists. }
  destruct (messageResource_get pl _ _ _ _ _) as [response|e].
  2:{ inversion H; subst. cbn. rewrite <- !app_assoc. by eexists. }
  destruct (exceeds _ L).
  { inversion H; subst. cbn. rewrite <- !app_assoc. by eexists. }
  destruct (writeFile response _) as [[]|e];
    inversion H; subst; cbn; rewrite <- !app_assoc; by eexists.
Qed.

(** The first thing a turn of the loop does is to mark the row
    [downloading] with one more attempt. *)
Lemma process_resource_effects pl t L w res :
  exists rest,
    effects (process_resource pl t L w res)
    = effects w
      ++ StatusWritten (id res) "downloading" (Some (attempts res + 1)) :: rest.
Proof.
  unfold process_resource.
  destruct (downloadResource _ _ _ _ _) as [[[]|e] w2] eqn:Hd;
    destruct (downloadResource_effects _ _ _ _ _ _ _ Hd) as [more Hmore].
  - rewrite Hmore. cbn. rewrite <- app_assoc. by eexists.
  - cbn. rewrite Hmore. cbn. rewrite <- !app_assoc. by eexists.
Qed.

Lemma retried_step pl t L r0 :
  always_fails pl t L r0 ->
  forall w res,
    uniq_id w -> retried t r0 w -> selected t w res ->
    retried t r0 (process_resource pl t L w res).
Proof.
  intros Hfails w res Huniq (r & Hin & Hid & Hten & Hsame & Hle & Hst) Hsel.
  destruct (process_resource_step pl t L w res Huniq Hsel)
    as (_ & _ & Hother & rs & st & sp & er & n & Hrs & Hres & Hrsel & Hhit & _ & Hfail).
  destruct (decide (id res = Col.id r0)) as [Heq|Hne].
  - assert (rs = r) as ->.
    { apply (uniq_id_inj w); [done..|]. subst res. cbn in Heq. congruence. }
    assert (st = "failed") as ->.
    { apply Hfail. rewrite <- Hres, Hsame. apply Hfails. }
    eexists. split; [exact Hhit|].
    apply selectable_true in Hrsel as (_ & _ & Hlt). unfold MAX_ATTEMPTS in *.
    subst res.
    split; [done|]. split; [done|]. split.
    { change (to_ResourceRow (set_status "failed" sp sp er
                                (Some (attempts (to_ResourceRow r) + 1)) n r))
        with (with_attempts (to_ResourceRow r) (Col.attempts r + 1)).
      by rewrite Hsame. }
    split; [cbn; unfold MAX_ATTEMPTS; lia|by left].
  - exists r. split; [|done]. apply Hother; [done|congruence].
Qed.

(** C2. Let [r0] be a row of the account's tenant that a selection can
    return (status [pending] or [failed], fewer than 3 attempts), in a table
    with unique ids, and let every call of [downloadResource] on its resource
    throw.  Then the worker's loop ends, and when it does the row of that id
    has status [failed] and exactly 3 attempts, and the selection is empty;
    any later run of the worker changes nothing.  In any world a selection
    returns only rows of the tenant with status [pending] or [failed] and
    fewer than 3 attempts; and in each turn of the loop the first thing done
    is the status write that marks the row [downloading] with one more
    attempt than selected, before anything is asked of the platform. *)
Theorem processResourceQueue_retry_ceiling (pl : Platform) (account : Account)
    (w : World) (r0 : Col.row) :
  uniq_id w ->
  r0 ∈ table w ->
  selectable (accountId account) r0 = true ->
  always_fails pl (accountId account) (max_bytes account) r0 ->
  (exists fuel w',
      processResourceQueue fuel pl account w = Some w'
      /\ (exists r,
            r ∈ table w'
            /\ Col.id r = Col.id r0
            /\ Col.status r = "failed"
            /\ Col.attempts r = MAX_ATTEMPTS
            /\ forall r', r' ∈ table w' -> Col.id r' = Col.id r0 -> r' = r)
      /\ fetchPendingResources (accountId account) w' = []
      /\ forall fuel2 w2,
            processResourceQueue fuel2 pl account w' = Some w2 -> w2 = w')
  /\ (forall t w1 res,
        res ∈ fetchPendingResources t w1 ->
        exists r,
          r ∈ table w1 /\ to_ResourceRow r = res /\ Col.tenant_key r = t
          /\ (Col.status r = "pending" \/ Col.status r = "failed")
          /\ Col.attempts r < MAX_ATTEMPTS)
  /\ (forall t L w1 res,
        exists rest,
          effects (process_resource pl t L w1 res)
          = effects w1
            ++ StatusWritten (id res) "downloading" (Some (attempts res + 1)) :: rest).
Proof.
  intros Huniq Hin Hsel Hfails.
  split; [|split].
  - destruct (drain_terminates pl (accountId account) (max_bytes account) w Huniq)
      as (fuel & w' & Hd).
    exists fuel, w'. split; [done|].
    destruct (drain_invariant pl (accountId account) (max_bytes account)
                (retried (accountId account) r0)
                (retried_step pl _ _ r0 Hfails) fuel w w' Huniq)
      as (Hu' & (r & Hr & Hid & Hten & _ & Hle & Hst) & Hempty); [|done|].
    { exists r0. apply selectable_true in Hsel as (Ht & _ & Hlt).
      unfold MAX_ATTEMPTS in *. repeat split; try done; [lia|by right]. }
    pose proof (selection_empty _ _ _ Hempty Hr) as Hnot.
    assert (Hfailed : Col.status r = "failed").
    { destruct Hst as [?| ->]; [done|congruence]. }
    split; [|split; [done|]].
    + exists r. split; [done|]. split; [done|]. split; [done|]. split.
      * destruct (decide (Col.attempts r < MAX_ATTEMPTS)) as [Hlt|Hge]; [|lia].
        exfalso. apply not_true_iff_false in Hnot. apply Hnot.
        apply selectable_true. auto.
      * intros r' Hr' Hid'. apply (uniq_id_inj w'); [done..|congruence].
    + intros [|fuel2] w2 Hd2; [done|].
      unfold processResourceQueue in Hd2.
      change (resolveLarkTenantKey pl account None) with (accountId account) in Hd2.
      cbn [drain] in Hd2. rewrite Hempty in Hd2. by inversion Hd2.
  - intros t w1 res (r & Hr & Hres & Hs)%selection_sound.
    apply selectable_true in Hs. exists r. tauto.
  - intros t L w1 res. apply process_resource_effects.
Qed.

Example retry_ceiling_run :
  option_map (fun w => map (fun r => (Col.status r, Col.attempts r, Col.error r)) (table w))
    (processResourceQueue 4 (example_platform (Throw "network down")) example_account
       (example_world None))
  = Some [("failed", 3, Some "network down")].
Proof. reflexivity. Qed.

Lemma processResourceQueue_retry_ceiling_witness :
  exists fuel w',
    processResourceQueue fuel (example_platform (Throw "network down")) example_account
      (example_world None) = Some w'
    /\ fetchPendingResources "acct" w' = [].
Proof.
  destruct (processResourceQueue_retry_ceiling
              (example_platform (Throw "network down")) example_account
              (example_world None) (example_row None))
    as [(fuel & w' & Hrun & _ & Hempty & _) _].
  - repeat constructor. by intros ?%elem_of_nil.
  - apply list_elem_of_here.
  - reflexivity.
  - intros a w. eexists _, _. reflexivity.
  - exists fuel, w'. split; assumption.
Defined.

(** *** Size governance *)

Lemma max_bytes_positive account : 0 < max_bytes account.
Proof. unfold max_bytes. lia. Qed.

Lemma exceeds_Some n L : 0 <= L -> L < n -> exceeds (Some n) L = true.
Proof.
  intros H0 Hlt. unfold exceeds, truthy_number.
  rewrite bool_decide_eq_false_2 by lia. by rewrite bool_decide_eq_true_2.
Qed.

(** A row that no selection returns is left alone by the worker. *)
Lemma unselectable_kept pl t L r fuel w w' :
  selectable t r = false ->
  uniq_id w -> r ∈ table w -> drain fuel pl t L w = Some w' -> r ∈ table w'.
Proof.
  intros Hnot Huniq Hin Hd.
  destruct (drain_invariant pl t L (fun w => r ∈ table w)) with (fuel := fuel) (w := w) (w' := w')
    as (_ & H & _); try done.
  intros w0 res Hu0 Hin0 Hsel0.
  destruct (process_resource_step pl t L w0 res Hu0 Hsel0) as (_ & _ & Hother & _).
  apply Hother; [done|]. intros Heq.
  destruct Hsel0 as (rs & Hrs & Hres & Hs).
  assert (rs = r) as ->; [|congruence].
  apply (uniq_id_inj w0); [done..|]. subst res. done.
Qed.

Lemma downloadResource_declared_too_large pl t res L w baseDir :
  resourceType res <> "doc" ->
  ensureLarkResourceDir pl (tick w) = Ok baseDir ->
  mkdir pl (S (tick w)) (path_join pl baseDir (messageId res)) = Ok tt ->
  exceeds (sizeBytes res) L = true ->
  downloadResource pl t res L w
  = (Ok tt,
     updateResourceStatus pl t (id res) "too_large" None None
       (Some (size_error (default 0 (sizeBytes res)))) None (advance [] (advance [] w))).
Proof.
  intros Hdoc Hdir Hmk Hbig. unfold downloadResource.
  rewrite bool_decide_eq_false_2 by done. rewrite Hdir.
  cbn [tick advance]. by rewrite Hmk, Hbig.
Qed.

Lemma downloadResource_reported_too_large pl t res L w baseDir response :
  resourceType res <> "doc" ->
  ensureLarkResourceDir pl (tick w) = Ok baseDir ->
  mkdir pl (S (tick w)) (path_join pl baseDir (messageId res)) = Ok tt ->
  exceeds (sizeBytes res) L = false ->
  messageResource_get pl (S (S (tick w))) (messageId res) (fileKey res)
                      (resourceType res) t = Ok response ->
  exceeds (content_length response ≫= Number pl) L = true ->
  downloadResource pl t res L w
  = (Ok tt,
     updateResourceStatus pl t (id res) "too_large" None None
       (Some (size_error (default 0 (content_length response ≫= Number pl)))) None
       (advance [TransferRequested (id res)] (advance [] (advance [] w)))).
Proof.
  intros Hdoc Hdir Hmk Hsmall Hget Hbig. unfold downloadResource.
  rewrite bool_decide_eq_false_2 by done. rewrite Hdir.
  cbn [tick advance]. rewrite Hmk, Hsmall, Hget. by rewrite Hbig.
Qed.

(** A turn that ends with the status write [too_large] leaves the row
    [too_large] for good. *)
Lemma too_large_turn pl t L w r w1 er n :
  uniq_id w -> r ∈ table w -> selectable t r = true ->
  uniq_id w1 ->
  table w1 = Store.update_where (is_row t (Col.id r))
               (set_status "too_large" None None er (Some (Col.attempts r + 1)) n)
               (table w) ->
  too_large_for_good pl t L r w1.
Proof.
  intros Huniq Hin Hsel Huniq1 Ht.
  assert (Hrow : is_row t (Col.id r) r = true).
  { apply is_row_true. by apply selectable_true in Hsel as (? & _). }
  set (r' := set_status "too_large" None None er (Some (Col.attempts r + 1)) n r).
  assert (Hin' : r' ∈ table w1) by (rewrite Ht; by apply update_hit).
  exists r'. split; [done|]. do 4 (split; [done|]). split.
  - intros x Hx Hid. by apply (uniq_id_inj w1).
  - intros fuel w'' x Hd Hx Hid.
    destruct (drain_invariant pl t L (fun _ => True) (fun _ _ _ _ _ => I) fuel w1 w''
                Huniq1 I Hd) as (Hu'' & _).
    apply (uniq_id_inj w''); [done|done| |done].
    apply (unselectable_kept pl t L r' fuel w1 w''); try done.
    unfold selectable. subst r'. cbn [set_status Col.status].
    rewrite (bool_decide_eq_false_2 ("too_large" = "pending")) by done.
    rewrite (bool_decide_eq_false_2 ("too_large" = "failed")) by done.
    cbn [orb]. by rewrite andb_false_r.
Qed.

(** C4. Take a row that a selection of the account's tenant returns, other
    than a linked document, in a table with unique ids, and a turn of the
    worker's loop on it in which preparing the local directories does not
    throw, so that the turn reaches the size checks.  The limit is
    [max_bytes account], the configured megabytes (at least one) in bytes.
    If the declared size stored in the row exceeds the limit, the turn
    writes the status [downloading] and then [too_large] and nothing else:
    no transfer is requested.  If the declared size does not let the first
    check fire (it is unknown, or within the limit) and the transfer answers
    with a content length that exceeds the limit, the turn requests the
    transfer and writes [too_large] without writing the body.  In both cases
    the row ends [too_large] with no storage path or url, and stays so
    whenever the worker runs again: it never becomes [ready]. *)
Theorem downloadResource_size_governance (pl : Platform) (account : Account)
    (w : World) (r : Col.row) (baseDir : string) :
  uniq_id w ->
  r ∈ table w ->
  selectable (accountId account) r = true ->
  Col.resource_type r <> "doc" ->
  ensureLarkResourceDir pl (S (tick w)) = Ok baseDir ->
  mkdir pl (S (S (tick w))) (path_join pl baseDir (Col.message_id r)) = Ok tt ->
  (forall n,
      Col.size_bytes r = Some n -> max_bytes account < n ->
      effects (process_resource pl (accountId account) (max_bytes account) w
                 (to_ResourceRow r))
      = effects w
        ++ [StatusWritten (Col.id r) "downloading" (Some (Col.attempts r + 1));
            StatusWritten (Col.id r) "too_large" None]
      /\ too_large_for_good pl (accountId account) (max_bytes account) r
           (process_resource pl (accountId account) (max_bytes account) w
              (to_ResourceRow r)))
  /\ (forall response header n,
        exceeds (Col.size_bytes r) (max_bytes account) = false ->
        messageResource_get pl (S (S (S (tick w)))) (Col.message_id r) (Col.file_key r)
                            (Col.resource_type r) (accountId account) = Ok response ->
        content_length response = Some header ->
        Number pl header = Some n ->
        max_bytes account < n ->
        effects (process_resource pl (accountId account) (max_bytes account) w
                   (to_ResourceRow r))
        = effects w
          ++ [StatusWritten (Col.id r) "downloading" (Some (Col.attempts r + 1));
              TransferRequested (Col.id r);
              StatusWritten (Col.id r) "too_large" None]
        /\ too_large_for_good pl (accountId account) (max_bytes account) r
             (process_resource pl (accountId account) (max_bytes account) w
                (to_ResourceRow r))).
Proof.
  intros Huniq Hin Hsel Hdoc Hdir Hmk.
  pose proof (max_bytes_positive account) as Hpos.
  set (t := accountId account) in *. set (L := max_bytes account) in *.
  set (w0 := updateResourceStatus pl t (Col.id r) "downloading" None None None
               (Some (Col.attempts r + 1)) w).
  assert (Hturn : forall er n w2,
             downloadResource pl t (to_ResourceRow r) L w0
             = (Ok tt, updateResourceStatus pl t (Col.id r) "too_large" None None er None w2) ->
             table w2 = table w0 -> clock pl (tick w2) = n ->
             too_large_for_good pl t L r (process_resource pl t L w (to_ResourceRow r))).
  { intros er n w2 Hd Ht2 Hn.
    assert (Htab : table (process_resource pl t L w (to_ResourceRow r))
                   = Store.update_where (is_row t (Col.id r))
                       (set_status "too_large" None None er (Some (Col.attempts r + 1)) n)
                       (table w)).
    { unfold process_resource. cbn [id attempts to_ResourceRow]. fold w0. rewrite Hd.
      unfold updateResourceStatus at 1. cbn [table]. rewrite Ht2, Hn.
      subst w0. unfold updateResourceStatus. cbn [table].
      by rewrite update_where_twice. }
    apply (too_large_turn pl t L w r _ er n); try done.
    unfold uniq_id in *. by rewrite Htab, update_ids. }
  split.
  - intros n Hsize Hbig.
    assert (Hd : downloadResource pl t (to_ResourceRow r) L w0
                 = (Ok tt, updateResourceStatus pl t (Col.id r) "too_large" None None
                             (Some (size_error (default 0 (Col.size_bytes r)))) None
                             (advance [] (advance [] w0)))).
    { apply (downloadResource_declared_too_large pl t (to_ResourceRow r) L w0 baseDir);
        try done.
      cbn [sizeBytes to_ResourceRow]. rewrite Hsize. apply exceeds_Some; lia. }
    split; [|by eapply Hturn].
    unfold process_resource. cbn [id attempts to_ResourceRow]. fold w0. rewrite Hd.
    cbn. by rewrite <- !app_assoc.
  - intros response header n Hsmall Hget Hheader Hnum Hbig.
    assert (Hd : downloadResource pl t (to_ResourceRow r) L w0
                 = (Ok tt, updateResourceStatus pl t (Col.id r) "too_large" None None
                             (Some (size_error
                                      (default 0 (content_length response ≫= Number pl))))
                             None
                             (advance [TransferRequested (Col.id r)]
                                (advance [] (advance [] w0))))).
    { apply (downloadResource_reported_too_large pl t (to_ResourceRow r) L w0 baseDir);
        try done.
      rewrite Hheader. cbn. rewrite Hnum. apply exceeds_Some; lia. }
    split; [|by eapply Hturn].
    unfold process_resource. cbn [id attempts to_ResourceRow]. fold w0. rewrite Hd.
    cbn. by rewrite <- !app_assoc.
Qed.

Example size_governance_declared :
  option_map (fun w => (map (fun r => (Col.status r, Col.storage_path r)) (table w),
                        effects w))
    (processResourceQueue 2 (example_platform (Ok example_response)) example_account
       (example_world (Some 157286400)))
  = Some ([("too_large", None)],
          [StatusWritten 1 "downloading" (Some 1); StatusWritten 1 "too_large" None]).
Proof. reflexivity. Qed.

Example size_governance_reported :
  option_map (fun w => (map (fun r => (Col.status r, Col.storage_path r)) (table w),
                        effects w))
    (processResourceQueue 2 (example_platform (Ok example_response)) example_account
       (example_world None))
  = Some ([("too_large", None)],
          [StatusWritten 1 "downloading" (Some 1); TransferRequested 1;
           StatusWritten 1 "too_large" None]).
Proof. reflexivity. Qed.

Lemma downloadResource_size_governance_witness :
  effects (process_resource (example_platform (Ok example_response)) "acct"
             (max_bytes example_account) (example_world (Some 157286400))
             (to_ResourceRow (example_row (Some 157286400))))
  = [StatusWritten 1 "downloading" (Some 1); StatusWritten 1 "too_large" None].
Proof.
  refine (proj1 (proj1 (downloadResource_size_governance
                          (example_platform (Ok example_response)) example_account
                          (example_world (Some 157286400)) (example_row (Some 157286400))
                          "/state/lark/resources" _ _ _ _ _ _)
                   157286400 _ _)).
  - repeat constructor. by intros ?%elem_of_nil.
  - apply list_elem_of_here.
  - reflexivity.
  - discriminate.
  - reflexivity.
  - reflexivity.
  - reflexivity.
  - reflexivity.
Defined.


(** *** File names *)

Lemma replace_unsafe_runs_safe in_run s c :
  c ∈ list_ascii_of_string (replace_unsafe_runs in_run s) -> unsafe_char c = false.
Proof.
  revert in_run. induction s as [|a s IH]; intros in_run Hc.
  - by apply elem_of_nil in Hc.
  - cbn [replace_unsafe_runs] in Hc. destruct (unsafe_char a) eqn:E.
    + destruct in_run; [by eapply IH|].
      cbn in Hc. apply elem_of_cons in Hc as [->|Hc]; [by vm_compute|by eapply IH].
    + cbn in Hc. apply elem_of_cons in Hc as [->|Hc]; [done|by eapply IH].
Qed.

(** X2. On a platform whose [trim] only removes characters, the
    name that [sanitizeFileName] gives a file is never empty and holds none
    of the nine characters it replaces; in particular it holds no slash and no
    backslash. *)
Theorem sanitizeFileName_safe (pl : Platform) (raw : string) :
  trim_removes pl ->
  sanitizeFileName pl raw <> ""
  /\ forall c, c ∈ list_ascii_of_string (sanitizeFileName pl raw) -> unsafe_char c = false.
Proof.
  intros Htrim. unfold sanitizeFileName.
  destruct (bool_decide (trim pl (replace_unsafe_runs false raw) = "")) eqn:E.
  - split; [done|]. intros c Hc. cbn in Hc.
    repeat (apply elem_of_cons in Hc as [->|Hc]; [by vm_compute|]).
    by apply elem_of_nil in Hc.
  - apply bool_decide_eq_false in E. split; [done|].
    intros c Hc. eapply replace_unsafe_runs_safe. by apply Htrim.
Qed.

Lemma sanitizeFileName_safe_witness :
  sanitizeFileName (example_platform (Throw "network down")) "a/b:c??d.png" = "a_b_c_d.png"
  /\ sanitizeFileName (example_platform (Throw "network down")) "a/b:c??d.png" <> "".
Proof.
  split; [reflexivity|].
  apply (sanitizeFileName_safe (example_platform (Throw "network down")) "a/b:c??d.png").
  by intros s c Hc.
Defined.

(** *** The selection *)

(** X3. A selection is the head of the rows of the tenant that wait
    for a download ([pending] or [failed], with fewer than three attempts),
    taken oldest first: at most ten rows, each of them such a row, none
    newer than a waiting row left out, and rows are left out only when ten
    were taken. *)
Theorem fetchPendingResources_oldest_first (tenantKey : string) (w : World) :
  exists batch rest,
    fetchPendingResources tenantKey w = map to_ResourceRow batch
    /\ Permutation (batch ++ rest) (List.filter (selectable tenantKey) (table w))
    /\ (length batch <= DOWNLOAD_BATCH_SIZE)%nat
    /\ (rest <> [] -> length batch = DOWNLOAD_BATCH_SIZE)
    /\ StronglySorted (fun a b => Col.created_at a <= Col.created_at b) (batch ++ rest)
    /\ (forall a b, a ∈ batch -> b ∈ rest -> Col.created_at a <= Col.created_at b)
    /\ (forall a, a ∈ batch -> a ∈ table w /\ selectable tenantKey a = true).
Proof.
  set (l := Store.order_by Col.created_at (List.filter (selectable tenantKey) (table w))).
  assert (Hperm : Permutation l (List.filter (selectable tenantKey) (table w)))
    by apply StoreFacts.order_by_Permutation.
  assert (Hsorted : StronglySorted (fun a b => Col.created_at a <= Col.created_at b) l)
    by apply StoreFacts.order_by_sorted.
  exists (take DOWNLOAD_BATCH_SIZE l), (drop DOWNLOAD_BATCH_SIZE l).
  rewrite take_drop. split; [done|]. split; [done|]. split; [rewrite length_take; lia|].
  split.
  { intros Hrest. rewrite length_take.
    destruct (decide (length l <= DOWNLOAD_BATCH_SIZE)%nat) as [Hle|Hgt]; [|lia].
    by rewrite drop_ge in Hrest. }
  split; [done|]. split.
  - intros a b Ha Hb.
    rewrite <- (take_drop DOWNLOAD_BATCH_SIZE l) in Hsorted.
    revert Hsorted Ha. generalize (take DOWNLOAD_BATCH_SIZE l) as batch.
    induction batch as [|x batch IH]; intros Hs Ha; [by apply elem_of_nil in Ha|].
    apply StronglySorted_inv in Hs as [Hs Hall].
    apply elem_of_cons in Ha as [->|Ha]; [|by apply IH].
    rewrite Forall_forall in Hall. apply Hall.
    apply elem_of_app. by right.
  - intros a Ha. apply elem_of_take in Ha as (i & Hi & _).
    apply list_elem_of_lookup_2 in Hi. rewrite Hperm in Hi.
    apply list_elem_of_In, filter_In in Hi as [Hin Hsel]. by rewrite list_elem_of_In.
Qed.

(** *** The worker, whatever the platform answers *)

Lemma resolveLarkTenantKey_None pl account :
  resolveLarkTenantKey pl account None = accountId account.
Proof. done. Qed.

(** The row that a turn of the loop rewrites is the selected row. *)
Lemma process_resource_rows pl t L w res :
  uniq_id w -> selected t w res ->
  exists r st sp er n,
    r ∈ table w /\ to_ResourceRow r = res /\ selectable t r = true
    /\ table (process_resource pl t L w res)
       = Store.update_where (is_row t (Col.id r))
           (set_status st sp sp er (Some (Col.attempts r + 1)) n) (table w)
    /\ forall x, x ∈ table w -> is_row t (Col.id r) x = true -> x = r.
Proof.
  intros Huniq Hsel.
  destruct (process_resource_table pl t L w res) as (st & sp & er & n & Ht & _).
  destruct Hsel as (r & Hin & Hres & Hsel).
  exists r, st, sp, er, n. split; [done|]. split; [done|]. split; [done|].
  split; [by subst res|].
  intros x Hx [_ Hid]%is_row_true. by apply (uniq_id_inj w).
Qed.

Lemma process_resource_frame pl t L w res i r :
  uniq_id w -> selected t w res ->
  table w !! i = Some r -> selectable t r = false ->
  table (process_resource pl t L w res) !! i = Some r.
Proof.
  intros Huniq Hsel Hi Hnot.
  destruct (process_resource_rows pl t L w res Huniq Hsel)
    as (r0 & st & sp & er & n & _ & _ & Hs0 & -> & Hone).
  unfold Store.update_where. rewrite list_lookup_fmap, Hi. cbn.
  destruct (is_row t (Col.id r0) r) eqn:E; [|done].
  apply Hone in E; [|by eapply list_elem_of_lookup_2]. congruence.
Qed.

Lemma process_resource_ids pl t L w res :
  map Col.id (table (process_resource pl t L w res)) = map Col.id (table w).
Proof.
  destruct (process_resource_table pl t L w res) as (st & sp & er & n & -> & _).
  apply update_ids.
Qed.

(** X4. The download worker of an account always comes to an end, with
    enough fuel, whatever the platform answers: every turn uses up one of the
    attempts left to a waiting row.  At the end no row of the tenant waits for
    a download any more, no row was added, removed or moved, and the rows that
    were not waiting at the start (those of other tenants, and the rows of
    the tenant that were ready, too large, linked or out of attempts) are as
    they were. *)
Theorem processResourceQueue_terminates (pl : Platform) (account : Account) (w : World) :
  uniq_id w ->
  exists fuel w',
    processResourceQueue fuel pl account w = Some w'
    /\ fetchPendingResources (accountId account) w' = []
    /\ (forall r, r ∈ table w' -> selectable (accountId account) r = false)
    /\ map Col.id (table w') = map Col.id (table w)
    /\ (forall i r,
          table w !! i = Some r -> selectable (accountId account) r = false ->
          table w' !! i = Some r).
Proof.
  intros Huniq. unfold processResourceQueue. rewrite resolveLarkTenantKey_None.
  set (t := accountId account). set (L := max_bytes account).
  destruct (drain_terminates pl t L w Huniq) as (fuel & w' & Hd).
  exists fuel, w'. split; [done|].
  destruct (drain_invariant pl t L
              (fun w1 => map Col.id (table w1) = map Col.id (table w)
                         /\ forall i r, table w !! i = Some r -> selectable t r = false ->
                                        table w1 !! i = Some r))
    with (fuel := fuel) (w := w) (w' := w') as (_ & [Hids Hframe] & Hnil); try done.
  { intros w0 res Hu0 [Hids0 Hframe0] Hsel0. split.
    - by rewrite process_resource_ids.
    - intros i r Hi Hnot. apply process_resource_frame; auto. }
  split; [done|]. split; [|done].
  intros r Hr. by eapply selection_empty.
Qed.

Lemma processResourceQueue_terminates_witness :
  exists fuel w',
    processResourceQueue fuel (example_platform (Throw "network down")) example_account
      example_registered = Some w'.
Proof.
  destruct (processResourceQueue_terminates (example_platform (Throw "network down"))
              example_account example_registered) as (fuel & w' & Hrun & _).
  - vm_compute. apply NoDup_cons. split; [|apply NoDup_singleton].
    intros H%list_elem_of_singleton. discriminate.
  - by exists fuel, w'.
Defined.

(** *** What holds of every state of the table *)

Lemma upsert_resource_ids t now rows next res :
  NoDup (map Col.id rows) ->
  (forall r, r ∈ rows -> Col.id r < next) ->
  NoDup (map Col.id (upsert_resource t now (rows, next) res).1)
  /\ forall r, r ∈ (upsert_resource t now (rows, next) res).1 ->
               Col.id r < (upsert_resource t now (rows, next) res).2.
Proof.
  intros Hnd Hlt. cbn [upsert_resource fst snd]. split.
  - rewrite (StoreFacts.upsert_map Col.id) by done.
    destruct (existsb _ rows); [done|].
    apply NoDup_app. split; [done|]. split; [|apply NoDup_singleton].
    intros x (r & -> & Hr)%list_elem_of_fmap ?%list_elem_of_singleton.
    specialize (Hlt r Hr). cbn in *. lia.
  - intros r [Hr|[->|(r0 & Hr0 & _ & ->)]]%StoreFacts.upsert_elem.
    + specialize (Hlt r Hr). lia.
    + cbn. lia.
    + specialize (Hlt r0 Hr0). cbn. lia.
Qed.

Lemma fold_upsert_resource_ids t now resources rows next :
  NoDup (map Col.id rows) ->
  (forall r, r ∈ rows -> Col.id r < next) ->
  NoDup (map Col.id (fold_left (upsert_resource t now) resources (rows, next)).1)
  /\ forall r, r ∈ (fold_left (upsert_resource t now) resources (rows, next)).1 ->
               Col.id r < (fold_left (upsert_resource t now) resources (rows, next)).2.
Proof.
  revert rows next. induction resources as [|res rest IH]; intros rows next Hnd Hlt; [done|].
  cbn [fold_left].
  destruct (upsert_resource_ids t now rows next res Hnd Hlt) as [H1 H2].
  destruct (upsert_resource t now (rows, next) res) as [rows1 next1].
  by apply IH.
Qed.

Lemma upsertResources_ids pl t resources w :
  ids_in_order w -> ids_in_order (upsertResources pl t resources w).
Proof.
  intros [Hnd Hlt]. unfold upsertResources. destruct resources as [|res rest]; [done|].
  pose proof (fold_upsert_resource_ids t (clock pl (tick w)) (res :: rest) (table w)
                (auto_increment w) Hnd Hlt) as [H1 H2].
  destruct (fold_left _ _ _) as [rows next]. by split.
Qed.

Lemma process_resource_auto_increment pl t L w res :
  auto_increment (process_resource pl t L w res) = auto_increment w.
Proof.
  unfold process_resource.
  assert (Hd : forall r L0 w0 out w1,
            downloadResource pl t r L0 w0 = (out, w1) ->
            auto_increment w1 = auto_increment w0).
  { intros r L0 w0 out w1. unfold downloadResource.
    repeat (match goal with
            | |- context [match ?x with _ => _ end] => destruct x
            | |- context [if ?x then _ else _] => destruct x
            end; try by intros [= <- <-]). }
  destruct (downloadResource _ _ _ _ _) as [[[]|e] w2] eqn:E; apply Hd in E;
    cbn in *; by rewrite E.
Qed.

Lemma reachable_ids pl w : reachable pl w -> ids_in_order w.
Proof.
  induction 1 as [|w t resources _ IH|w t L res _ IH Hsel].
  - split; [constructor|by intros r ?%elem_of_nil].
  - by apply upsertResources_ids.
  - destruct IH as [Hnd Hlt]. split.
    + unfold uniq_id. by rewrite process_resource_ids.
    + intros r Hr. rewrite process_resource_auto_increment.
      assert (Col.id r ∈ map Col.id (table (process_resource pl t L w res))) as Hin
        by (apply list_elem_of_fmap; eauto).
      rewrite process_resource_ids in Hin.
      apply list_elem_of_fmap in Hin as (r0 & -> & Hr0). by apply Hlt.
Qed.

(** A run of the worker is a sequence of turns. *)
Lemma reachable_run pl w fuel account w' :
  reachable pl w -> processResourceQueue fuel pl account w = Some w' -> reachable pl w'.
Proof.
  intros Hreach Hrun. unfold processResourceQueue in Hrun.
  destruct (drain_invariant pl (resolveLarkTenantKey pl account None) (max_bytes account)
              (reachable pl))
    with (fuel := fuel) (w := w) (w' := w') as (_ & H & _); try done.
  - intros w0 res _ Hr0 Hsel0. by apply reach_turn.
  - by apply (reachable_ids pl).
Qed.

Lemma reachable_rows pl w :
  reachable pl w ->
  forall r, r ∈ table w -> untouched_document r /\ 0 <= Col.attempts r <= MAX_ATTEMPTS.
Proof.
  induction 1 as [|w t resources Hreach IH|w t L res Hreach IH Hsel].
  - by intros r ?%elem_of_nil.
  - intros r Hr. rewrite upsertResources_table in Hr.
    revert Hr. generalize (clock pl (tick w)) as now.
    generalize (auto_increment w) as next. revert IH.
    generalize (table w) as rows. clear.
    induction resources as [|res rest IHr]; intros rows IH next now Hr; [by apply IH|].
    cbn [fold_left] in Hr. unfold upsert_resource at 2 in Hr.
    eapply IHr; [|exact Hr]. clear Hr.
    intros x [Hx|[->|(r0 & Hr0 & _ & ->)]]%StoreFacts.upsert_elem.
    + by apply IH.
    + split; [|cbn; unfold MAX_ATTEMPTS; lia].
      intros Hdoc. cbn in *. by destruct (Found.resourceType res).
    + apply IH in Hr0 as [H1 H2]. by split.
  - pose proof (reachable_ids pl w Hreach) as [Huniq _].
    intros r Hr.
    destruct (process_resource_rows pl t L w res Huniq Hsel)
      as (r0 & st & sp & er & n & Hr0 & _ & Hs0 & Ht & Hone).
    rewrite Ht in Hr.
    apply update_elem in Hr as [[Hr _]|(x & Hx & Hrow & ->)]; [by apply IH|].
    apply Hone in Hrow; [|done]. subst x.
    destruct (IH r0 Hr0) as [Hdoc Hatt].
    apply selectable_true in Hs0 as (_ & Hst & Hlt). split.
    + intros Htype. cbn in Htype. destruct (Hdoc Htype) as (Hl & _).
      rewrite Hl in Hst. by destruct Hst.
    + cbn. unfold MAX_ATTEMPTS in *. lia.
Qed.

(** X5. A linked document is never downloaded.  In every state of
    the table, which starts empty and changes by registrations and by turns
    of the workers, a row of type [doc] has the status [linked], no attempt
    and no storage location, and no selection returns it. *)
Theorem linked_document_never_downloaded (pl : Platform) (w : World) (r : Col.row) :
  reachable pl w ->
  r ∈ table w ->
  Col.resource_type r = "doc" ->
  Col.status r = "linked"
  /\ Col.attempts r = 0
  /\ Col.storage_path r = None
  /\ Col.storage_url r = None
  /\ forall tenantKey, r ∉ List.filter (selectable tenantKey) (table w).
Proof.
  intros Hreach Hr Hdoc.
  destruct (reachable_rows pl w Hreach r Hr) as [Hun _].
  destruct (Hun Hdoc) as (Hst & Ha & Hp & Hu).
  repeat (split; [done|]).
  intros t [_ Hsel]%list_elem_of_In%filter_In.
  apply selectable_true in Hsel as (_ & [H|H] & _); congruence.
Qed.

Lemma example_registered_reachable :
  reachable (example_platform (Throw "network down")) example_registered.
Proof. apply reach_register, reach_initial. Qed.

Lemma linked_document_never_downloaded_witness :
  Col.status (registered_row "acct" (example_found doc "doccn_1") 2 0) = "linked".
Proof.
  apply (linked_document_never_downloaded (example_platform (Throw "network down"))
           example_registered (registered_row "acct" (example_found doc "doccn_1") 2 0)).
  - apply example_registered_reachable.
  - vm_compute. apply list_elem_of_further, list_elem_of_here.
  - reflexivity.
Defined.

(** X6. The attempt counter of a row never leaves the range from
    zero to the ceiling of three attempts, in any state of the table. *)
Theorem attempts_within_ceiling (pl : Platform) (w : World) (r : Col.row) :
  reachable pl w -> r ∈ table w -> 0 <= Col.attempts r <= MAX_ATTEMPTS.
Proof. intros Hreach Hr. by destruct (reachable_rows pl w Hreach r Hr). Qed.

Lemma attempts_within_ceiling_witness :
  0 <= Col.attempts (registered_row "acct" (example_found image "img_2") 1 0)
    <= MAX_ATTEMPTS.
Proof.
  apply (attempts_within_ceiling (example_platform (Throw "network down"))
           example_registered).
  - apply example_registered_reachable.
  - vm_compute. apply list_elem_of_here.
Defined.

(** *** Attachments *)

Lemma or_else_Some {A : Type} (a b : option A) x :
  or_else a b = Some x -> a = Some x \/ b = Some x.
Proof. destruct a; cbn; [by left|by right]. Qed.

(** X7. What [extractResources] finds in the content of a message:
    nothing when the content is not the JSON text of an object or an array;
    else at most three attachments, each with the message id and the chat
    id it was given and with a file key that is not empty; and a linked
    document carries neither a MIME type nor a size.  Whatever
    [enqueueLarkMessageResources] found for an event is then registered in
    the table, under the tenant key of the event or, when the event has none,
    under the account id. *)
Theorem extractResources_keys (pl : Platform) (JSON_parse : string -> option Json.t)
    (messageId chatId messageType content : string) :
  (parseContentJson JSON_parse content = None ->
   extractResources pl JSON_parse messageId chatId messageType content = [])
  /\ (length (extractResources pl JSON_parse messageId chatId messageType content) <= 3)%nat
  /\ (forall res,
        res ∈ extractResources pl JSON_parse messageId chatId messageType content ->
        Found.messageId res = messageId
        /\ Found.chatId res = chatId
        /\ Found.fileKey res <> ""
        /\ (Found.resourceType res = doc ->
            Found.mimeType res = None /\ Found.sizeBytes res = None))
  /\ (forall account event w res,
        Persistence.message_id (Persistence.message event) = messageId ->
        Persistence.chat_id (Persistence.message event) = chatId ->
        Persistence.message_type (Persistence.message event) = messageType ->
        default "" (Persistence.content (Persistence.message event)) = content ->
        res ∈ extractResources pl JSON_parse messageId chatId messageType content ->
        registered (resolveLarkTenantKey pl account (Persistence.tenant_key event)) res
          (table (enqueueLarkMessageResources pl JSON_parse account event w)) = true).
Proof.
  split; [intros H; unfold extractResources; by rewrite H|].
  unfold extractResources at 1 2.
  destruct (parseContentJson JSON_parse content) as [parsed|] eqn:Hp.
  2:{ split; [cbn; lia|]. split; [by intros res ?%elem_of_nil|].
      intros account event w res _ _ _ _. unfold extractResources. rewrite Hp.
      by intros ?%elem_of_nil. }
  cbv zeta.
  set (imageKey := pickString pl parsed ["image_key"; "imageKey"]).
  set (fileKey := pickString pl parsed ["file_key"; "fileKey"]).
  set (mediaKey := pickString pl parsed ["media_key"; "mediaKey"]).
  set (docToken := pickString pl parsed
                      ["doc_token"; "docx_token"; "doc_id"; "docx_id"; "doc_uuid"; "doc_key"]).
  match goal with
  | |- context [length (?a ++ ?b ++ ?c)] =>
      set (part1 := a); set (part2 := b); set (part3 := c)
  end.
  assert (H1 : (length part1 <= 1)%nat
               /\ forall res, res ∈ part1 ->
                    Found.messageId res = messageId /\ Found.chatId res = chatId
                    /\ Found.fileKey res <> "" /\ Found.resourceType res <> doc).
  { subst part1. destruct (truthy_string imageKey || _).
    2:{ split; [cbn; lia|by intros res ?%elem_of_nil]. }
    destruct (or_else imageKey fileKey) as [k|].
    2:{ split; [cbn; lia|by intros res ?%elem_of_nil]. }
    destruct (bool_decide (k = "")) eqn:E.
    { split; [cbn; lia|by intros res ?%elem_of_nil]. }
    apply bool_decide_eq_false in E.
    split; [cbn; lia|]. by intros res ->%list_elem_of_singleton. }
  assert (H2 : (length part2 <= 1)%nat
               /\ forall res, res ∈ part2 ->
                    Found.messageId res = messageId /\ Found.chatId res = chatId
                    /\ Found.fileKey res <> "" /\ Found.resourceType res <> doc).
  { subst part2. destruct (or_else fileKey mediaKey) as [k|].
    2:{ split; [cbn; lia|by intros res ?%elem_of_nil]. }
    destruct (bool_decide (k = "")) eqn:E.
    { split; [cbn; lia|by intros res ?%elem_of_nil]. }
    apply bool_decide_eq_false in E.
    unfold binary_type.
    repeat (match goal with
            | |- context [bool_decide ?P] => destruct (bool_decide P)
            end;
            try (split; [cbn; lia|]; by intros res ->%list_elem_of_singleton)).
    destruct (truthy_string imageKey).
    - split; [cbn; lia|by intros res ?%elem_of_nil].
    - split; [cbn; lia|]. by intros res ->%list_elem_of_singleton. }
  assert (H3 : (length part3 <= 1)%nat
               /\ forall res, res ∈ part3 ->
                    Found.messageId res = messageId /\ Found.chatId res = chatId
                    /\ Found.fileKey res <> ""
                    /\ Found.mimeType res = None /\ Found.sizeBytes res = None).
  { subst part3. destruct docToken as [k|].
    2:{ split; [cbn; lia|by intros res ?%elem_of_nil]. }
    destruct (bool_decide (k = "")) eqn:E.
    { split; [cbn; lia|by intros res ?%elem_of_nil]. }
    apply bool_decide_eq_false in E.
    split; [cbn; lia|]. by intros res ->%list_elem_of_singleton. }
  destruct H1 as [L1 P1], H2 as [L2 P2], H3 as [L3 P3].
  split; [rewrite !length_app; lia|]. split.
  - intros res [Hr|[Hr|Hr]%elem_of_app]%elem_of_app.
    + destruct (P1 res Hr) as (? & ? & ? & ?). by repeat split.
    + destruct (P2 res Hr) as (? & ? & ? & ?). by repeat split.
    + destruct (P3 res Hr) as (? & ? & ? & ? & ?). by repeat split.
  - intros account event w res Hm Hc Ht Hcontent Hres.
    unfold enqueueLarkMessageResources. cbv zeta. rewrite Hm, Hc, Ht, Hcontent.
    destruct (extractResources pl JSON_parse messageId chatId messageType content)
      as [|res0 rest] eqn:Hx; [by apply elem_of_nil in Hres|].
    rewrite upsertResources_table. by apply fold_upsert_registers.
Qed.

Example extractResources_file :
  extractResources (example_platform (Throw "network down")) example_parse
    "om_3" "oc_1" "file" "{file}"
  = [ {| Found.messageId := "om_3"; Found.chatId := "oc_1"; Found.resourceType := file;
         Found.fileKey := "file_v2_1"; Found.fileName := Some "notes.docx";
         Found.mimeType := None; Found.sizeBytes := Some 2048 |} ].
Proof. reflexivity. Qed.

(** *** One worker per account *)

Lemma scheduler_step_workers s ev :
  NoDup (workers s) ->
  (forall k, k ∈ downloadInFlight s <-> k ∈ workers s) ->
  NoDup (workers (scheduler_step s ev))
  /\ (forall k, k ∈ downloadInFlight (scheduler_step s ev)
                <-> k ∈ workers (scheduler_step s ev)).
Proof.
  unfold workers. intros Hnd Hin. destruct ev as [key| |key]; cbn [scheduler_step].
  - unfold scheduleResourceDownloads. case_bool_decide as Hk; [done|].
    cbn [immediates running downloadInFlight]. split.
    + rewrite <- app_assoc.
      apply NoDup_app in Hnd as (H1 & H2 & H3).
      apply NoDup_app. split; [done|]. split.
      * intros x Hx [->%list_elem_of_singleton|Hx']%elem_of_app; [|by eapply H2].
        apply Hk, Hin, elem_of_app. by left.
      * apply NoDup_cons. split; [|done].
        intros Hr. apply Hk, Hin, elem_of_app. by right.
    + intros k. rewrite elem_of_union, elem_of_singleton, Hin.
      rewrite !elem_of_app, list_elem_of_singleton. tauto.
  - unfold run_immediate. destruct (immediates s) as [|key rest] eqn:E; [by rewrite E|].
    cbn [immediates running downloadInFlight]. split.
    + cbn in Hnd. apply NoDup_cons in Hnd as [Hk Hnd].
      apply NoDup_app in Hnd as (H1 & H2 & H3).
      apply NoDup_app. split; [done|]. split.
      * intros x Hx [Hx'| ->%list_elem_of_singleton]%elem_of_app; [by eapply H2|].
        apply Hk, elem_of_app. by left.
      * apply NoDup_app. split; [done|]. split; [|apply NoDup_singleton].
        intros x Hx ->%list_elem_of_singleton. apply Hk, elem_of_app. by right.
    + intros k. rewrite Hin. cbn. rewrite !elem_of_cons, !elem_of_app, list_elem_of_singleton.
      tauto.
  - unfold worker_settled. case_bool_decide as Hk; [|done].
    cbn [immediates running downloadInFlight].
    assert (Hf : forall k, k ∈ List.filter (fun k => negb (bool_decide (k = key))) (running s)
                           <-> k ∈ running s /\ k <> key).
    { intros k. rewrite list_elem_of_In, filter_In, <- list_elem_of_In.
      by rewrite negb_true_iff, bool_decide_eq_false. }
    apply NoDup_app in Hnd as (H1 & H2 & H3). split.
    + apply NoDup_app. split; [done|]. split.
      * intros x Hx [Hx' _]%Hf. by eapply H2.
      * clear -H3. induction (running s) as [|a l IH]; [constructor|].
        apply NoDup_cons in H3 as [Ha H3]. cbn.
        destruct (negb (bool_decide (a = key))); [|by apply IH].
        apply NoDup_cons. split; [|by apply IH].
        intros [Hin _]%list_elem_of_In%filter_In. by apply Ha, list_elem_of_In.
    + intros k. rewrite elem_of_difference, elem_of_singleton, Hin.
      rewrite !elem_of_app, Hf. split.
      * intros [[?|?] ?]; [by left|by right].
      * intros [Hi|[Hr Hne]]; [|split; [by right|done]].
        split; [by left|]. intros ->. by eapply H2.
Qed.

Lemma scheduler_run_snoc events ev :
  scheduler_run (events ++ [ev]) = scheduler_step (scheduler_run events) ev.
Proof. unfold scheduler_run. by rewrite fold_left_app. Qed.

Lemma scheduler_run_workers events :
  NoDup (workers (scheduler_run events))
  /\ forall k, k ∈ downloadInFlight (scheduler_run events)
               <-> k ∈ workers (scheduler_run events).
Proof.
  induction events as [|ev events IH] using rev_ind.
  - split; [constructor|]. intros k. cbn. by rewrite elem_of_empty, elem_of_nil.
  - rewrite scheduler_run_snoc. destruct IH as [H1 H2].
    by apply scheduler_step_workers.
Qed.

(** X8. However the download worker is scheduled, and however the
    event loop and the workers interleave, every account has at most one
    worker waiting for the event loop or running, and it is marked in flight
    exactly when it has one; so a schedule for an account in flight changes
    nothing, and one for an account that is not in flight queues a worker. *)
Theorem scheduleResourceDownloads_one_worker (events : list SchedulerEvent)
    (key : string) :
  NoDup (workers (scheduler_run events))
  /\ (key ∈ downloadInFlight (scheduler_run events)
      <-> key ∈ workers (scheduler_run events))
  /\ (key ∈ workers (scheduler_run events) ->
      scheduler_run (events ++ [Schedule key]) = scheduler_run events)
  /\ (key ∉ workers (scheduler_run events) ->
      immediates (scheduler_run (events ++ [Schedule key]))
      = immediates (scheduler_run events) ++ [key]).
Proof.
  destruct (scheduler_run_workers events) as [Hnd Hin].
  split; [done|]. split; [done|].
  rewrite scheduler_run_snoc. cbn [scheduler_step].
  unfold scheduleResourceDownloads. split.
  - intros Hk. apply Hin in Hk. by rewrite bool_decide_eq_true_2.
  - intros Hk. rewrite bool_decide_eq_false_2; [done|]. by rewrite Hin.
Qed.

Example schedule_twice :
  workers (scheduler_run [Schedule "acct"; Schedule "acct"; RunImmediate; Schedule "acct"])
  = ["acct"].
Proof. reflexivity. Qed.


(** *** The tenant of the worker *)

Lemma registered_row_in tenantKey res rows :
  registered tenantKey res rows = true ->
  exists i r, rows !! i = Some r
              /\ same_key tenantKey (Found.messageId res) (Found.fileKey res) r = true.
Proof.
  unfold registered. intros (r & Hin & Hkey)%existsb_exists.
  apply list_elem_of_In, list_elem_of_lookup in Hin as [i Hi]. by exists i, r.
Qed.

(** X9. The worker of an account selects the rows whose tenant key is
    the account id, while [enqueueLarkMessageResources] registers the
    attachments of an event under the tenant key of the event.  So when the
    two differ, the worker that the registration schedules comes to an end
    without touching the rows of that tenant: each attachment found in the
    event keeps the row it was registered with, which no turn of that
    worker downloads. *)
Theorem enqueued_under_event_tenant_not_downloaded (pl : Platform)
    (JSON_parse : string -> option Json.t) (account : Account)
    (event : Persistence.LarkMessageEvent) (w : World) :
  ids_in_order w ->
  resolveLarkTenantKey pl account (Persistence.tenant_key event) <> accountId account ->
  let tenantKey := resolveLarkTenantKey pl account (Persistence.tenant_key event) in
  let message := Persistence.message event in
  let found :=
    extractResources pl JSON_parse (Persistence.message_id message)
      (Persistence.chat_id message) (Persistence.message_type message)
      (default "" (Persistence.content message)) in
  let w1 := enqueueLarkMessageResources pl JSON_parse account event w in
  exists fuel w',
    processResourceQueue fuel pl account w1 = Some w'
    /\ (forall i r, table w1 !! i = Some r -> Col.tenant_key r = tenantKey ->
                    table w' !! i = Some r)
    /\ (forall res, res ∈ found ->
          exists i r, table w1 !! i = Some r /\ table w' !! i = Some r
                      /\ same_key tenantKey (Found.messageId res) (Found.fileKey res) r
                         = true).
Proof.
  intros Hids Hne tenantKey message found w1.
  assert (ids_in_order w1) as [Huniq1 _].
  { unfold w1, enqueueLarkMessageResources. fold message. fold found.
    destruct found; [done|]. by apply upsertResources_ids. }
  unfold processResourceQueue. rewrite resolveLarkTenantKey_None.
  set (t := accountId account). set (L := max_bytes account).
  destruct (drain_terminates pl t L w1 Huniq1) as (fuel & w' & Hd).
  exists fuel, w'. split; [done|].
  destruct (drain_invariant pl t L
              (fun w2 => forall i r, table w1 !! i = Some r -> selectable t r = false ->
                                     table w2 !! i = Some r))
    with (fuel := fuel) (w := w1) (w' := w') as (_ & Hframe & _); try done.
  { intros w0 res Hu0 Hframe0 Hsel0 i r Hi Hnot.
    apply process_resource_frame; auto. }
  assert (forall i r, table w1 !! i = Some r -> Col.tenant_key r = tenantKey ->
                      table w' !! i = Some r) as Hkept.
  { intros i r Hi Ht. apply Hframe; [done|].
    unfold selectable. rewrite bool_decide_eq_false_2; [done|].
    rewrite Ht. exact Hne. }
  split; [done|].
  intros res Hres.
  assert (registered tenantKey res (table w1) = true) as Hreg.
  { unfold w1, enqueueLarkMessageResources. fold message. fold found. fold tenantKey.
    destruct found as [|res0 rest] eqn:Hfound; [by apply elem_of_nil in Hres|].
    rewrite upsertResources_table. by apply fold_upsert_registers. }
  apply registered_row_in in Hreg as (i & r & Hi & Hkey).
  exists i, r. split; [done|]. split; [|done].
  apply Hkept; [done|].
  unfold same_key in Hkey.
  apply andb_true_iff in Hkey as [[Ht _]%andb_true_iff _].
  by apply bool_decide_eq_true_1 in Ht.
Qed.

(** A file of tenant [t1] received by the account [acct], on a platform
    whose transfers succeed: the worker returns at once and the row waits. *)
Example event_tenant_row_waits :
  let pl := example_platform (Ok example_response) in
  let w1 := enqueueLarkMessageResources pl example_parse example_account
              example_file_event initial_world in
  (fun w' => map (fun r => (Col.tenant_key r, Col.file_key r, Col.status r, Col.attempts r))
                 (table w'))
  <$> processResourceQueue 1 pl example_account w1
  = Some [("t1", "file_v2_1", "pending", 0)].
Proof. by vm_compute. Qed.

Lemma enqueued_under_event_tenant_not_downloaded_witness :
  exists fuel w',
    processResourceQueue fuel (example_platform (Ok example_response)) example_account
      (enqueueLarkMessageResources (example_platform (Ok example_response)) example_parse
         example_account example_file_event initial_world) = Some w'.
Proof.
  destruct (enqueued_under_event_tenant_not_downloaded
              (example_platform (Ok example_response)) example_parse example_account
              example_file_event initial_world) as (fuel & w' & Hrun & _).
  - split; [apply NoDup_nil_2|]. by intros r ?%elem_of_nil.
  - by vm_compute.
  - by exists fuel, w'.
Defined.

End ResourceFacts.

(** ** The extraction worker *)

Module ExtractionFacts.
Import Extraction.

Lemma same_key_new t rid mid ty st tx la mo er id0 :
  same_key t rid
    {| Col.id := id0; Col.tenant_key := t; Col.message_id := mid;
       Col.resource_id := Some rid; Col.resource_type := ty; Col.language := la;
       Col.text := tx; Col.summary := None; Col.model := mo; Col.status := st;
       Col.error := er |} = true.
Proof. unfold same_key. cbn. by rewrite !bool_decide_eq_true_2. Qed.

(** After [upsertExtraction] the row under the key holds the five values
    written. *)
Lemma upsertExtraction_row t mid rid ty st tx la mo er w :
  exists row,
    extraction_of t rid (upsertExtraction t mid rid ty st tx la mo er w) = Some row
    /\ Col.status row = st /\ Col.text row = tx /\ Col.language row = la
    /\ Col.model row = mo /\ Col.error row = er
    /\ ((length (rows_for t rid w) <= 1)%nat ->
        rows_for t rid (upsertExtraction t mid rid ty st tx la mo er w) = [row]).
Proof.
  unfold extraction_of, rows_for, upsertExtraction. cbn [extractions].
  eexists. split.
  { apply StoreFacts.upsert_find; [apply same_key_new|by intros r Hr]. }
  split; [by destruct (List.find (same_key t rid) (extractions w))|].
  split; [by destruct (List.find (same_key t rid) (extractions w))|].
  split; [by destruct (List.find (same_key t rid) (extractions w))|].
  split; [by destruct (List.find (same_key t rid) (extractions w))|].
  split; [by destruct (List.find (same_key t rid) (extractions w))|].
  intros Hle.
  rewrite StoreFacts.upsert_filter; [done|apply same_key_new|by intros r Hr|done].
Qed.

Lemma upsertExtraction_calls t mid rid ty st tx la mo er w :
  calls (upsertExtraction t mid rid ty st tx la mo er w) = calls w.
Proof. done. Qed.

Lemma upsertExtraction_rows_le t mid rid ty st tx la mo er w :
  (length (rows_for t rid w) <= 1)%nat ->
  (length (rows_for t rid (upsertExtraction t mid rid ty st tx la mo er w)) <= 1)%nat.
Proof.
  intros Hle.
  destruct (upsertExtraction_row t mid rid ty st tx la mo er w) as (row & _ & _ & _ & _ & _ & _ & H).
  by rewrite (H Hle).
Qed.

(** *** What reaches the memory collaborator *)

Lemma record_text_calls caps t task ty text la mo w out w' :
  record_text caps t task ty text la mo w = (out, w') ->
  calls w' = calls w
             ++ (if bool_decide (text = "") then []
                 else [MemoryForwarded t (messageId task) text]).
Proof.
  unfold record_text. intros H.
  destruct (bool_decide (text = "")).
  - inversion H; subst. cbn. by rewrite app_nil_r.
  - destruct (recordLarkMemoryFromExtraction _ _ _ _ _); by inversion H; subst.
Qed.

(** Whatever the task and the answers, text is forwarded only when it is
    not empty. *)
Lemma processExtractionTask_calls caps account t task w out w' :
  processExtractionTask caps account t task w = (out, w') ->
  exists more,
    calls w' = calls w ++ more
    /\ forall t' m c, MemoryForwarded t' m c ∈ more -> c <> "".
Proof.
  assert (Hnone : forall w0 : World, exists more : list Call,
             calls w0 = calls w0 ++ more
             /\ forall t' m c, MemoryForwarded t' m c ∈ more -> c <> "").
  { intros w0. exists []. split; [by rewrite app_nil_r|]. by intros t' m c ?%elem_of_nil. }
  assert (Hone : forall c0 w0 e, (forall t' m c, c0 <> MemoryForwarded t' m c) ->
             exists more : list Call,
               calls (advance [c0] w0) = calls w0 ++ more
               /\ forall t' m c, MemoryForwarded t' m c ∈ more -> c <> e).
  { intros c0 w0 e Hc0. exists [c0]. split; [done|].
    intros t' m c Hs%list_elem_of_singleton. by destruct (Hc0 t' m c). }
  assert (Hrec : forall c0 ty text la mo out0 w0,
             (forall t' m c, c0 <> MemoryForwarded t' m c) ->
             record_text caps t task ty text la mo (advance [c0] w) = (out0, w0) ->
             exists more : list Call,
               calls w0 = calls w ++ more
               /\ forall t' m c, MemoryForwarded t' m c ∈ more -> c <> "").
  { intros c0 ty text la mo out0 w0 Hc0 Hr.
    apply record_text_calls in Hr. rewrite Hr. cbn [calls advance].
    rewrite <- app_assoc. eexists. split; [done|].
    intros t' m c [Hs%list_elem_of_singleton|Hin]%elem_of_app.
    { by destruct (Hc0 t' m c). }
    destruct (bool_decide (text = "")) eqn:E; [by apply elem_of_nil in Hin|].
    apply list_elem_of_singleton in Hin. injection Hin as -> -> ->.
    by apply bool_decide_eq_false in E. }
  unfold processExtractionTask. intros H.
  destruct (is_false (extraction account ≫= enabled)); [inversion H; subst; apply Hnone|].
  destruct (bool_decide (toLowerCase (resourceType task) = "image")).
  { destruct (is_false _); [inversion H; subst; apply Hnone|].
    destruct (runOcr _ _ _ _) as [[text model]|e].
    - eapply Hrec; [|exact H]; by intros.
    - inversion H; subst. apply Hone; by intros. }
  destruct (bool_decide (toLowerCase (resourceType task) = "audio")).
  { destruct (is_false _); [inversion H; subst; apply Hnone|].
    destruct (negb _).
    { inversion H; subst. rewrite upsertExtraction_calls. apply Hnone. }
    destruct (runOpenAiAsr _ _ _ _ _ _) as [[text model]|e].
    - eapply Hrec; [|exact H]; by intros.
    - inversion H; subst. apply Hone; by intros. }
  destruct (bool_decide (toLowerCase (resourceType task) = "file")).
  { destruct (is_false _); [inversion H; subst; apply Hnone|].
    destruct (negb _); [inversion H; subst; apply Hnone|].
    destruct (extractDocxText _ _ _) as [text|e].
    - eapply Hrec; [|exact H]; by intros.
    - inversion H; subst. apply Hone; by intros. }
  inversion H; subst. apply Hnone.
Qed.

Lemma process_task_calls caps account t w task :
  exists more,
    calls (process_task caps account t w task) = calls w ++ more
    /\ forall t' m c, MemoryForwarded t' m c ∈ more -> c <> "".
Proof.
  unfold process_task.
  destruct (processExtractionTask _ _ _ _ _) as [[[]|e] w2] eqn:H;
    apply processExtractionTask_calls in H as (more & Hc & Hm);
    rewrite ?upsertExtraction_calls in *; by exists more.
Qed.

(** *** The image branch *)

Lemma processExtractionTask_image caps account t task w :
  toLowerCase (resourceType task) = "image" ->
  is_false (extraction account ≫= enabled) = false ->
  is_false ((extraction account ≫= ocr) ≫= ocr_enabled) = false ->
  processExtractionTask caps account t task w
  = match runOcr caps (tick w) (storagePath task)
            (default [] ((extraction account ≫= ocr) ≫= ocr_languages)) with
    | Throw e => (Throw e, advance [OcrCalled (storagePath task)] w)
    | Ok (text, model) =>
        record_text caps t task "image" text
          (head (default [] ((extraction account ≫= ocr) ≫= ocr_languages))) (Some model)
          (advance [OcrCalled (storagePath task)] w)
    end.
Proof.
  intros H1 H2 H3. unfold processExtractionTask. rewrite H2, H1, H3. done.
Qed.

(** C7. For a task on an image, with extraction and OCR not switched off,
    the turn of the worker's loop ends as follows.  If OCR answers the empty
    text, the extraction row of the resource has status [empty], the empty
    text and no error, and besides the OCR engine nothing was called: no text
    was forwarded to the memory collaborator.  If OCR throws [e], the row has
    status [failed], the error [e] and no text, and again nothing was
    forwarded.  If OCR answers a text that is not empty, that text is
    forwarded.  And for every task of every kind, a text forwarded to the
    memory collaborator during the turn is not empty. *)
Theorem processExtractionTask_empty_vs_failed (caps : Capabilities) (account : Account)
    (tenantKey : string) (w : World) (task : ExtractionTask) :
  toLowerCase (resourceType task) = "image" ->
  is_false (extraction account ≫= enabled) = false ->
  is_false ((extraction account ≫= ocr) ≫= ocr_enabled) = false ->
  (forall model,
      runOcr caps (S (tick w)) (storagePath task)
             (default [] ((extraction account ≫= ocr) ≫= ocr_languages)) = Ok ("", model) ->
      (exists row,
          extraction_of tenantKey (resourceId task)
            (process_task caps account tenantKey w task) = Some row
          /\ Col.status row = "empty" /\ Col.error row = None /\ Col.text row = Some "")
      /\ calls (process_task caps account tenantKey w task)
         = calls w ++ [OcrCalled (storagePath task)])
  /\ (forall e,
        runOcr caps (S (tick w)) (storagePath task)
               (default [] ((extraction account ≫= ocr) ≫= ocr_languages)) = Throw e ->
        (exists row,
            extraction_of tenantKey (resourceId task)
              (process_task caps account tenantKey w task) = Some row
            /\ Col.status row = "failed" /\ Col.error row = Some e /\ Col.text row = None)
        /\ calls (process_task caps account tenantKey w task)
           = calls w ++ [OcrCalled (storagePath task)])
  /\ (forall text model,
        runOcr caps (S (tick w)) (storagePath task)
               (default [] ((extraction account ≫= ocr) ≫= ocr_languages))
        = Ok (text, model) ->
        text <> "" ->
        calls (process_task caps account tenantKey w task)
        = calls w ++ [OcrCalled (storagePath task);
                      MemoryForwarded tenantKey (messageId task) text])
  /\ (forall caps0 account0 t0 w0 task0,
        exists more,
          calls (process_task caps0 account0 t0 w0 task0) = calls w0 ++ more
          /\ forall t' m c, MemoryForwarded t' m c ∈ more -> c <> "").
Proof.
  intros Himage Hon Hocr.
  split; [|split; [|split]].
  - intros model Hempty. unfold process_task.
    rewrite processExtractionTask_image by done.
    cbn [tick upsertExtraction]. rewrite Hempty.
    unfold record_text. rewrite bool_decide_eq_true_2 by done. split.
    + destruct (upsertExtraction_row tenantKey (messageId task) (resourceId task) "image"
                  (status_of_text "") (Some "")
                  (head (default [] ((extraction account ≫= ocr) ≫= ocr_languages)))
                  (Some model) None
                  (advance [OcrCalled (storagePath task)]
                     (upsertExtraction tenantKey (messageId task) (resourceId task)
                        (resourceType task) "processing" None None None None w)))
        as (row & Hrow & Hst & Htx & _ & _ & Her & _).
      exists row. by rewrite Hrow.
    + done.
  - intros e Hthrow. unfold process_task.
    rewrite processExtractionTask_image by done.
    cbn [tick upsertExtraction]. rewrite Hthrow. split.
    + destruct (upsertExtraction_row tenantKey (messageId task) (resourceId task)
                  (resourceType task) "failed" None None None (Some e)
                  (advance [OcrCalled (storagePath task)]
                     (upsertExtraction tenantKey (messageId task) (resourceId task)
                        (resourceType task) "processing" None None None None w)))
        as (row & Hrow & Hst & Htx & _ & _ & Her & _).
      exists row. by rewrite Hrow.
    + done.
  - intros text model Htext Hne. unfold process_task.
    rewrite processExtractionTask_image by done.
    cbn [tick upsertExtraction]. rewrite Htext.
    unfold record_text. rewrite bool_decide_eq_false_2 by done.
    destruct (recordLarkMemoryFromExtraction _ _ _ _ _); cbn; by rewrite <- app_assoc.
  - intros caps0 account0 t0 w0 task0. apply process_task_calls.
Qed.

Example ocr_empty :
  (fun w => (map (fun e => (Col.status e, Col.text e, Col.error e)) (extractions w), calls w))
    (process_task (example_capabilities (Ok (Some ""))) example_account "acct"
       (example_world "image" "scan.png") image_task)
  = ([("empty", Some "", None)], [OcrCalled "/state/lark/resources/om_1/scan.png"]).
Proof. reflexivity. Qed.

Example ocr_throws :
  (fun w => (map (fun e => (Col.status e, Col.text e, Col.error e)) (extractions w), calls w))
    (process_task (example_capabilities (Throw "no engine")) example_account "acct"
       (example_world "image" "scan.png") image_task)
  = ([("failed", None, Some "no engine")], [OcrCalled "/state/lark/resources/om_1/scan.png"]).
Proof. reflexivity. Qed.

Lemma processExtractionTask_empty_vs_failed_witness :
  calls (process_task (example_capabilities (Ok (Some ""))) example_account "acct"
           (example_world "image" "scan.png") image_task)
  = [OcrCalled "/state/lark/resources/om_1/scan.png"].
Proof.
  refine (proj2 (proj1 (processExtractionTask_empty_vs_failed
                          (example_capabilities (Ok (Some ""))) example_account "acct"
                          (example_world "image" "scan.png") image_task _ _ _)
                   "tesseract:eng" _)).
  - reflexivity.
  - reflexivity.
  - reflexivity.
  - reflexivity.
Defined.

(** *** Files that are not documents *)

Lemma processExtractionTask_other_file caps account t task w :
  toLowerCase (resourceType task) = "file" ->
  endsWith (default "" (toLowerCase <$> fileName task)) ".docx" = false ->
  processExtractionTask caps account t task w = (Ok tt, w).
Proof.
  intros Hfile Hname. unfold processExtractionTask.
  destruct (is_false (extraction account ≫= enabled)); [done|].
  rewrite Hfile. cbn [bool_decide decide_rel].
  rewrite (bool_decide_eq_false_2 ("file" = "image")) by done.
  rewrite (bool_decide_eq_false_2 ("file" = "audio")) by done.
  rewrite (bool_decide_eq_true_2 ("file" = "file")) by done.
  destruct (is_false _); [done|]. by rewrite Hname.
Qed.

(** What a selection returns comes from a resource row and a joined status
    that the [WHERE] clause accepts. *)
Lemma listPendingExtractions_sound t w task :
  task ∈ listPendingExtractions t w ->
  exists r st,
    r ∈ resources w /\ to_task r = task /\ st ∈ joined w r /\ wanted t r st = true.
Proof.
  unfold listPendingExtractions.
  intros [Hin _]%list_elem_of_In%filter_In.
  apply list_elem_of_In, list_elem_of_fmap in Hin as (r & -> & Hr).
  apply elem_of_take in Hr as (i & Hi & _). apply list_elem_of_lookup_2 in Hi.
  rewrite (StoreFacts.order_by_Permutation Res.updated_at) in Hi.
  apply list_elem_of_In, in_flat_map in Hi as (r0 & Hr0 & Hin).
  apply in_map_iff in Hin as (st & <- & Hst). apply filter_In in Hst as [Hst Hw].
  exists r0, st. by rewrite !list_elem_of_In.
Qed.

(** C6, as stated, fails: the worker run on a table whose one downloaded
    resource is the file [report.pdf] ends with an extraction row keyed by
    that resource, the marker [processing] written before the dispatch. *)
Lemma processExtractionQueue_skipped_file_counterexample :
  option_map
    (fun w => map (fun e => (Col.resource_id e, Col.status e)) (extractions w))
    (processExtractionQueue 2 (example_capabilities (Throw "unreachable")) example_account
       (example_world "file" "report.pdf"))
  = Some [(Some 1, "processing")].
Proof. reflexivity. Qed.

(** C6, amended. When the worker's loop takes a task of kind [file] whose
    file name does not end in [.docx], no engine is called and nothing is
    forwarded to the memory collaborator, but the marker written before the
    dispatch stays: after the turn the extraction row of the resource has
    status [processing] and no text, language, model or error.  If the key
    of the resource held at most one row before, it holds exactly this row
    after, and since its status is not [failed] no later selection returns
    the resource. *)
Theorem processExtractionTask_skipped_file_keeps_marker (caps : Capabilities)
    (account : Account) (tenantKey : string) (w : World) (task : ExtractionTask) :
  toLowerCase (resourceType task) = "file" ->
  endsWith (default "" (toLowerCase <$> fileName task)) ".docx" = false ->
  calls (process_task caps account tenantKey w task) = calls w
  /\ resources (process_task caps account tenantKey w task) = resources w
  /\ exists row,
       extraction_of tenantKey (resourceId task)
         (process_task caps account tenantKey w task) = Some row
       /\ Col.status row = "processing"
       /\ Col.text row = None /\ Col.language row = None
       /\ Col.model row = None /\ Col.error row = None
       /\ ((length (rows_for tenantKey (resourceId task) w) <= 1)%nat ->
           rows_for tenantKey (resourceId task)
             (process_task caps account tenantKey w task) = [row]
           /\ forall task',
                task' ∈ listPendingExtractions tenantKey
                          (process_task caps account tenantKey w task) ->
                resourceId task' <> resourceId task).
Proof.
  intros Hfile Hname. unfold process_task.
  rewrite processExtractionTask_other_file by done.
  split; [done|]. split; [done|].
  destruct (upsertExtraction_row tenantKey (messageId task) (resourceId task)
              (resourceType task) "processing" None None None None w)
    as (row & Hrow & Hst & Htx & Hla & Hmo & Her & Hone).
  exists row. do 6 (split; [done|]).
  intros Hle. specialize (Hone Hle). split; [done|].
  intros task' (r & st & Hr & <- & Hst' & Hw)%listPendingExtractions_sound Hid.
  cbn [resourceId to_task] in Hid.
  unfold wanted in Hw. apply andb_true_iff in Hw as [[Ht _]%andb_true_iff Hw].
  apply bool_decide_eq_true in Ht.
  unfold joined in Hst'.
  change (List.filter _ (extractions ?w0))
    with (rows_for (Res.tenant_key r) (Res.id r) w0) in Hst'.
  rewrite Ht, Hid, Hone in Hst'. cbn in Hst'.
  apply list_elem_of_singleton in Hst'. subst st. by rewrite Hst in Hw.
Qed.

Lemma processExtractionTask_skipped_file_keeps_marker_witness :
  calls (process_task (example_capabilities (Throw "unreachable")) example_account "acct"
           (example_world "file" "report.pdf") pdf_task) = [].
Proof.
  refine (proj1 (processExtractionTask_skipped_file_keeps_marker
                   (example_capabilities (Throw "unreachable")) example_account "acct"
                   (example_world "file" "report.pdf") pdf_task _ _)).
  - reflexivity.
  - reflexivity.
Defined.


(** *** The rows of a resource along a turn *)

Lemma rows_for_upsert t mid rid ty st tx la mo er w :
  rows_for t rid (upsertExtraction t mid rid ty st tx la mo er w)
  = match rows_for t rid w with
    | [] =>
        [ {| Col.id := auto_increment w; Col.tenant_key := t; Col.message_id := mid;
             Col.resource_id := Some rid; Col.resource_type := ty; Col.language := la;
             Col.text := tx; Col.summary := None; Col.model := mo; Col.status := st;
             Col.error := er |} ]
    | x :: rest =>
        {| Col.id := Col.id x; Col.tenant_key := Col.tenant_key x;
           Col.message_id := Col.message_id x; Col.resource_id := Col.resource_id x;
           Col.resource_type := Col.resource_type x; Col.language := la; Col.text := tx;
           Col.summary := Col.summary x; Col.model := mo; Col.status := st;
           Col.error := er |} :: rest
    end.
Proof.
  unfold rows_for, upsertExtraction. cbn [extractions].
  rewrite StoreFacts.upsert_filter_head; [done|apply same_key_new|by intros r Hr].
Qed.

Lemma rows_for_upsert_other t t' mid rid rid' ty st tx la mo er w :
  rid' <> rid ->
  rows_for t' rid' (upsertExtraction t mid rid ty st tx la mo er w) = rows_for t' rid' w.
Proof.
  intros Hne. unfold rows_for, upsertExtraction. cbn [extractions].
  apply StoreFacts.upsert_filter_other.
  - unfold same_key. cbn. rewrite (bool_decide_eq_false_2 (Some rid = Some rid')).
    + apply andb_false_r.
    + intros [= ->]. done.
  - intros r [_ Hr]%andb_true_iff. apply bool_decide_eq_true in Hr.
    unfold same_key. cbn. rewrite Hr.
    rewrite (bool_decide_eq_false_2 (Some rid = Some rid')); [|by intros [= ->]].
    by rewrite andb_false_r.
Qed.

Lemma rows_for_advance t rid c w : rows_for t rid (advance c w) = rows_for t rid w.
Proof. done. Qed.

Lemma record_text_other caps t t' task ty text la mo w out w' rid' :
  rid' <> resourceId task ->
  record_text caps t task ty text la mo w = (out, w') ->
  rows_for t' rid' w' = rows_for t' rid' w /\ resources w' = resources w.
Proof.
  intros Hne. unfold record_text.
  destruct (bool_decide (text = "")).
  - intros [= <- <-]. by rewrite rows_for_upsert_other.
  - destruct (recordLarkMemoryFromExtraction _ _ _ _ _); intros [= <- <-];
      by rewrite rows_for_advance, rows_for_upsert_other.
Qed.

(** A turn on another resource leaves the rows of a resource alone, and no
    turn changes the resource table. *)
Lemma processExtractionTask_other caps account t t' task w out w' rid' :
  rid' <> resourceId task ->
  processExtractionTask caps account t task w = (out, w') ->
  rows_for t' rid' w' = rows_for t' rid' w /\ resources w' = resources w.
Proof.
  intros Hne. unfold processExtractionTask.
  destruct (is_false (extraction account ≫= enabled)); [by intros [= <- <-]|].
  destruct (bool_decide (toLowerCase (resourceType task) = "image")).
  { destruct (is_false _); [by intros [= <- <-]|].
    destruct (runOcr _ _ _ _) as [[text model]|e]; [|by intros [= <- <-]].
    intros H. by apply (record_text_other _ _ t' _ _ _ _ _ _ _ _ rid') in H. }
  destruct (bool_decide (toLowerCase (resourceType task) = "audio")).
  { destruct (is_false _); [by intros [= <- <-]|].
    destruct (negb _).
    { intros [= <- <-]. by rewrite rows_for_upsert_other. }
    destruct (runOpenAiAsr _ _ _ _ _ _) as [[text model]|e]; [|by intros [= <- <-]].
    intros H. by apply (record_text_other _ _ t' _ _ _ _ _ _ _ _ rid') in H. }
  destruct (bool_decide (toLowerCase (resourceType task) = "file")); [|by intros [= <- <-]].
  destruct (is_false _); [by intros [= <- <-]|].
  destruct (negb _); [by intros [= <- <-]|].
  destruct (extractDocxText _ _ _) as [text|e]; [|by intros [= <- <-]].
  intros H. by apply (record_text_other _ _ t' _ _ _ _ _ _ _ _ rid') in H.
Qed.

Lemma process_task_other caps account t t' w task rid' :
  rid' <> resourceId task ->
  rows_for t' rid' (process_task caps account t w task) = rows_for t' rid' w.
Proof.
  intros Hne. unfold process_task.
  destruct (processExtractionTask _ _ _ _ _) as [[[]|e] w2] eqn:H;
    apply (processExtractionTask_other _ _ _ t' _ _ _ _ rid' Hne) in H as [H _].
  - by rewrite H, rows_for_upsert_other.
  - by rewrite rows_for_upsert_other, H, rows_for_upsert_other.
Qed.

Lemma record_text_resources caps t task ty text la mo w out w' :
  record_text caps t task ty text la mo w = (out, w') -> resources w' = resources w.
Proof.
  unfold record_text. destruct (bool_decide (text = "")); [by intros [= <- <-]|].
  by destruct (recordLarkMemoryFromExtraction _ _ _ _ _); intros [= <- <-].
Qed.

Lemma process_task_resources caps account t w task :
  resources (process_task caps account t w task) = resources w.
Proof.
  unfold process_task.
  assert (H : forall w0 out w1, processExtractionTask caps account t task w0 = (out, w1) ->
                                resources w1 = resources w0).
  { intros w0 out w1. unfold processExtractionTask.
    repeat (match goal with
            | |- context [record_text ?a ?b ?c ?d ?e ?f ?g ?h] =>
                let E := fresh in
                destruct (record_text a b c d e f g h) as [? ?] eqn:E;
                apply record_text_resources in E; cbn in E
            | |- context [match ?x with _ => _ end] => destruct x
            | |- context [if ?x then _ else _] => destruct x
            end; try (intros [= <- <-]; done; congruence)).
    all: intros [= <- <-]; congruence. }
  destruct (processExtractionTask _ _ _ _ _) as [[[]|e] w2] eqn:E; apply H in E;
    cbn in *; by rewrite E.
Qed.

(** A turn on a resource that keeps failing leaves its first row [failed],
    and the others as they were. *)
Lemma process_task_failing caps account w r :
  keeps_failing caps account r ->
  failed_so_far (accountId account) r w ->
  failed_so_far (accountId account) r
    (process_task caps account (accountId account) w (to_task r)).
Proof.
  intros (Hon & Hkind) Hfailed. unfold failed_so_far, process_task in *.
  set (t := accountId account) in *.
  set (w1 := upsertExtraction t _ _ _ "processing" None None None None w).
  assert (Hrows1 : exists x rest,
             rows_for t (Res.id r) w1 = x :: rest
             /\ forall e, e ∈ rest -> Col.status e = "failed").
  { subst w1. cbn [to_task resourceId messageId resourceType].
    rewrite rows_for_upsert.
    destruct (rows_for t (Res.id r) w) as [|x rest] eqn:E.
    - eexists _, []. split; [done|]. by intros e ?%elem_of_nil.
    - eexists _, rest. split; [done|]. intros e He. apply Hfailed.
      by apply list_elem_of_further. }
  destruct Hrows1 as (x & rest & Hrows1 & Hrest).
  assert (Hdone : forall w2 ty er,
             rows_for t (Res.id r) w2 = rows_for t (Res.id r) w1 ->
             forall e,
               e ∈ rows_for t (Res.id r)
                     (upsertExtraction t (messageId (to_task r)) (Res.id r)
                        ty "failed" None None None er w2) ->
               Col.status e = "failed").
  { intros w2 ty er Hsame e. rewrite rows_for_upsert, Hsame, Hrows1.
    intros [->|He]%elem_of_cons; [done|by apply Hrest]. }
  destruct Hkind as [(Himage & Hocr & Hthrows)|(Haudio & Hasr & Hcfg & Henv)].
  - rewrite processExtractionTask_image by done.
    unfold runOcr.
    destruct (Hthrows (tick w1) (storagePath (to_task r))
                (match default [] ((extraction account ≫= ocr) ≫= ocr_languages) with
                 | [] => "eng"
                 | _ => join "+" (default [] ((extraction account ≫= ocr) ≫= ocr_languages))
                 end)) as [e He].
    rewrite He. intros e0. by apply Hdone.
  - unfold processExtractionTask. cbn [resourceType to_task]. rewrite Hon, Haudio.
    rewrite (bool_decide_eq_false_2 ("audio" = "image")) by done.
    rewrite (bool_decide_eq_true_2 ("audio" = "audio")) by done.
    rewrite Hasr. rewrite Hcfg, Henv. cbn [negb].
    intros e0. cbn [resourceId to_task]. by apply Hdone.
Qed.

(** *** What the selection holds *)

Lemma joined_rows_for w r :
  joined w r
  = match rows_for (Res.tenant_key r) (Res.id r) w with
    | [] => [None]
    | es => map (fun e => Some (Col.status e)) es
    end.
Proof. done. Qed.

(** A resource that is ready and whose extraction rows, if any, are all
    [failed] is selected, unless five others are ahead of it. *)
Lemma failing_is_pending t w r :
  stored t w ->
  r ∈ resources w -> Res.tenant_key r = t -> Res.status r = "ready" ->
  failed_so_far t r w ->
  listPendingExtractions t w <> [].
Proof.
  intros Hstored Hr Ht Hready Hfailed. unfold listPendingExtractions.
  set (joined_rows := flat_map _ (resources w)).
  assert (Hin : r ∈ joined_rows).
  { apply list_elem_of_In, in_flat_map. exists r. split; [by apply list_elem_of_In|].
    rewrite joined_rows_for, Ht.
    assert (Hw : forall st, (st = None \/ st = Some "failed") -> wanted t r st = true).
    { intros st [->| ->]; unfold wanted; by rewrite !bool_decide_eq_true_2. }
    destruct (rows_for t (Res.id r) w) as [|x rest] eqn:E; cbn.
    - rewrite Hw by by left. by left.
    - rewrite (Hfailed x) by (rewrite E; apply list_elem_of_here).
      rewrite Hw by by right. by left. }
  assert (Hall : forall x, x ∈ joined_rows ->
            x ∈ resources w /\ Res.tenant_key x = t /\ Res.status x = "ready").
  { intros x (x0 & Hx0 & Hx)%list_elem_of_In%in_flat_map.
    apply in_map_iff in Hx as (st & <- & Hst). apply filter_In in Hst as [_ Hw].
    unfold wanted in Hw. apply andb_true_iff in Hw as [[H1 H2]%andb_true_iff _].
    apply bool_decide_eq_true in H1, H2. by rewrite list_elem_of_In. }
  pose proof (StoreFacts.order_by_Permutation Res.updated_at joined_rows) as Hperm.
  destruct (Store.order_by Res.updated_at joined_rows) as [|x l] eqn:E.
  { apply Permutation_nil in Hperm. rewrite Hperm in Hin. by apply elem_of_nil in Hin. }
  assert (Hx : x ∈ joined_rows) by (rewrite <- Hperm; apply list_elem_of_here).
  destruct (Hall x Hx) as (Hxr & Hxt & Hxs).
  destruct (Hstored x Hxr Hxt Hxs) as [Hid Hpath].
  cbn. rewrite (bool_decide_eq_false_2 (Res.id x = 0)) by done.
  rewrite (bool_decide_eq_false_2 (default "" (Res.storage_path x) = "")) by done.
  done.
Qed.

Lemma resource_by_id w r r' :
  NoDup (map Res.id (resources w)) ->
  r ∈ resources w -> r' ∈ resources w -> Res.id r' = Res.id r -> r' = r.
Proof.
  intros Hnd [i Hi]%list_elem_of_lookup [j Hj]%list_elem_of_lookup Heq.
  assert (j = i) as ->; [|congruence].
  eapply NoDup_lookup; [exact Hnd|..].
  - by rewrite list_lookup_fmap, Hj.
  - rewrite list_lookup_fmap, Hi. cbn. by rewrite Heq.
Qed.

(** X10. The extraction worker has no ceiling on attempts.  When a
    downloaded resource of the account keeps failing (an image whose
    recognition throws every time, or an audio file for which no API key is
    configured), each turn on it leaves its extraction row [failed], the next
    selection returns it again, and the loop of [processExtractionQueue]
    never ends: no amount of fuel lets it return. *)
Theorem processExtractionQueue_no_retry_ceiling (caps : Capabilities) (account : Account)
    (w : World) (r : Res.row) :
  keeps_failing caps account r ->
  r ∈ resources w ->
  Res.tenant_key r = accountId account ->
  Res.status r = "ready" ->
  NoDup (map Res.id (resources w)) ->
  stored (accountId account) w ->
  failed_so_far (accountId account) r w ->
  forall fuel, processExtractionQueue fuel caps account w = None.
Proof.
  intros Hkeeps Hr Ht Hready Hnd Hstored Hfailed fuel.
  unfold processExtractionQueue. set (t := accountId account) in *.
  assert (Hturn : forall w0 w1 task,
             resources w0 = resources w -> task ∈ listPendingExtractions t w0 ->
             resources w1 = resources w /\ failed_so_far t r w1 ->
             resources (process_task caps account t w1 task) = resources w
             /\ failed_so_far t r (process_task caps account t w1 task)).
  { intros w0 w1 task Hres0 Htask [Hres1 Hf1].
    split; [by rewrite process_task_resources|].
    apply listPendingExtractions_sound in Htask as (r' & st & Hr' & <- & _).
    rewrite Hres0 in Hr'.
    destruct (decide (Res.id r' = Res.id r)) as [Heq|Hne].
    - rewrite (resource_by_id w r r' Hnd Hr Hr' Heq). by apply process_task_failing.
    - unfold failed_so_far. rewrite process_task_other; [done|].
      cbn [resourceId to_task]. congruence. }
  assert (Hbatch : forall w0 pending w1,
             resources w0 = resources w ->
             (forall task, task ∈ pending -> task ∈ listPendingExtractions t w0) ->
             resources w1 = resources w /\ failed_so_far t r w1 ->
             resources (fold_left (process_task caps account t) pending w1) = resources w
             /\ failed_so_far t r (fold_left (process_task caps account t) pending w1)).
  { intros w0 pending. induction pending as [|task rest IH]; intros w1 Hres0 Hall Hinv;
      [done|].
    cbn [fold_left]. apply IH; [done| |].
    - intros task' Hin. apply Hall. by apply list_elem_of_further.
    - eapply Hturn; [exact Hres0| |done]. apply Hall, list_elem_of_here. }
  assert (Hloop : forall w1,
             resources w1 = resources w /\ failed_so_far t r w1 ->
             drain fuel caps account t w1 = None).
  { induction fuel as [|fuel IH]; intros w1 [Hres1 Hf1]; [done|].
    cbn [drain].
    assert (Hpending : listPendingExtractions t w1 <> []).
    { apply (failing_is_pending t w1 r); try done.
      - intros x Hx. rewrite Hres1 in Hx. by apply Hstored.
      - by rewrite Hres1. }
    destruct (listPendingExtractions t w1) as [|task rest] eqn:E; [done|].
    apply IH. apply (Hbatch w1); [done| |done].
    intros task' Hin. by rewrite E. }
  by apply Hloop.
Qed.

Example no_retry_ceiling_run :
  processExtractionQueue 50 (example_capabilities (Throw "no engine")) example_account
    (example_world "image" "scan.png")
  = None.
Proof. vm_compute. reflexivity. Qed.

Lemma processExtractionQueue_no_retry_ceiling_witness :
  processExtractionQueue 7 (example_capabilities (Throw "no engine")) example_account
    (example_world "image" "scan.png")
  = None.
Proof.
  apply (processExtractionQueue_no_retry_ceiling (example_capabilities (Throw "no engine"))
           example_account (example_world "image" "scan.png")
           (example_resource "image" "scan.png")).
  - split; [done|]. left. split; [done|]. split; [done|].
    intros now path lang. by exists "no engine".
  - apply list_elem_of_here.
  - reflexivity.
  - reflexivity.
  - cbn. apply NoDup_singleton.
  - intros r ->%list_elem_of_singleton _ _. by split.
  - by intros e ?%elem_of_nil.
Defined.

(** X11. An audio resource with no API key, in the configuration or in
    the environment, is not transcribed: the turn calls no engine and
    forwards nothing to the memory collaborator, and leaves the extraction
    row of the resource with status [failed], the error text
    [missing OpenAI API key] and no text. *)
Theorem processExtractionTask_missing_api_key (caps : Capabilities) (account : Account)
    (tenantKey : string) (w : World) (task : ExtractionTask) :
  toLowerCase (resourceType task) = "audio" ->
  is_false (extraction account ≫= enabled) = false ->
  is_false ((extraction account ≫= asr) ≫= asr_enabled) = false ->
  truthy_string (trim caps <$> ((extraction account ≫= asr) ≫= asr_apiKey)) = false ->
  truthy_string (OPENAI_API_KEY caps) = false ->
  calls (process_task caps account tenantKey w task) = calls w
  /\ exists row,
       extraction_of tenantKey (resourceId task)
         (process_task caps account tenantKey w task) = Some row
       /\ Col.status row = "failed"
       /\ Col.error row = Some "missing OpenAI API key"
       /\ Col.text row = None.
Proof.
  intros Haudio Hon Hasr Hcfg Henv. unfold process_task, processExtractionTask.
  rewrite Hon, Haudio.
  rewrite (bool_decide_eq_false_2 ("audio" = "image")) by done.
  rewrite (bool_decide_eq_true_2 ("audio" = "audio")) by done.
  rewrite Hasr, Hcfg, Henv. cbn [negb]. split; [done|].
  destruct (upsertExtraction_row tenantKey (messageId task) (resourceId task) "audio"
              "failed" None None None (Some "missing OpenAI API key")
              (upsertExtraction tenantKey (messageId task) (resourceId task)
                 (resourceType task) "processing" None None None None w))
    as (row & Hrow & Hst & Htx & _ & _ & Her & _).
  by exists row.
Qed.

Lemma processExtractionTask_missing_api_key_witness :
  calls (process_task (example_capabilities (Throw "unreachable")) example_account "acct"
           (example_world "audio" "memo.m4a") audio_task) = [].
Proof.
  refine (proj1 (processExtractionTask_missing_api_key
                   (example_capabilities (Throw "unreachable")) example_account "acct"
                   (example_world "audio" "memo.m4a") audio_task _ _ _ _ _));
    reflexivity.
Defined.

(** X12. What a selection of the extraction worker holds: at most
    five tasks, each read from a resource of the tenant that is [ready], has
    an id and a path where it is stored, and has no extraction row yet or one
    whose status is [failed]. *)
Theorem listPendingExtractions_batch (tenantKey : string) (w : World) :
  (length (listPendingExtractions tenantKey w) <= EXTRACTION_BATCH_SIZE)%nat
  /\ forall task,
       task ∈ listPendingExtractions tenantKey w ->
       resourceId task <> 0
       /\ storagePath task <> ""
       /\ exists r,
            r ∈ resources w
            /\ to_task r = task
            /\ Res.tenant_key r = tenantKey
            /\ Res.status r = "ready"
            /\ (rows_for tenantKey (Res.id r) w = []
                \/ exists e, e ∈ rows_for tenantKey (Res.id r) w
                             /\ Col.status e = "failed").
Proof.
  split.
  - unfold listPendingExtractions.
    etransitivity; [apply List.filter_length_le|].
    rewrite length_map, length_take. lia.
  - intros task Htask.
    assert (Hf : resourceId task <> 0 /\ storagePath task <> "").
    { unfold listPendingExtractions in Htask.
      apply list_elem_of_In, filter_In in Htask as [_ Hf].
      apply andb_true_iff in Hf as [H1 H2].
      apply negb_true_iff, bool_decide_eq_false in H1, H2. done. }
    destruct Hf as [Hid Hpath]. split; [done|]. split; [done|].
    apply listPendingExtractions_sound in Htask as (r & st & Hr & Htask & Hst & Hw).
    exists r. split; [done|]. split; [done|].
    unfold wanted in Hw. apply andb_true_iff in Hw as [[H1 H2]%andb_true_iff H3].
    apply bool_decide_eq_true in H1, H2. split; [done|]. split; [done|].
    rewrite joined_rows_for, H1 in Hst.
    destruct (rows_for tenantKey (Res.id r) w) as [|x rest] eqn:E; [by left|].
    right. apply list_elem_of_fmap in Hst as (e & -> & He).
    apply bool_decide_eq_true in H3. by exists e.
Qed.

(** *** Entities *)

Lemma app_cons c p s : String c p +:+ s = String c (p +:+ s).
Proof. done. Qed.

Lemma app_nil s : "" +:+ s = s.
Proof. done. Qed.

Lemma starts_with_cons_eq a p s : starts_with (String a p) (String a s) = starts_with p s.
Proof. cbn. by rewrite bool_decide_eq_true_2. Qed.

Lemma starts_with_cons_ne a b p s : a <> b -> starts_with (String a p) (String b s) = false.
Proof. intros H. cbn. by rewrite bool_decide_eq_false_2. Qed.

Lemma starts_with_nil s : starts_with "" s = true.
Proof. by destruct s. Qed.

Lemma replace_from_here pattern replacement c rest :
  replace_from pattern replacement 0 (String c rest)
  = if starts_with pattern (String c rest)
    then replacement +:+ replace_from pattern replacement (String.length pattern - 1) rest
    else String c (replace_from pattern replacement 0 rest).
Proof. done. Qed.

Lemma replace_from_skip pattern replacement k c rest :
  replace_from pattern replacement (S k) (String c rest)
  = replace_from pattern replacement k rest.
Proof. done. Qed.

Ltac scan :=
  repeat first
    [ rewrite app_cons
    | rewrite app_nil
    | rewrite replace_from_skip
    | rewrite replace_from_here
    | rewrite starts_with_cons_eq
    | rewrite starts_with_cons_ne by done
    | rewrite starts_with_nil ];
  cbn [String.length Nat.sub].

(** A character that is no ampersand is passed by. *)
Lemma replace_from_plain p replacement c rest :
  c <> "&"%char ->
  replace_from (String "&" p) replacement 0 (String c rest)
  = String c (replace_from (String "&" p) replacement 0 rest).
Proof. intros H. rewrite replace_from_here, starts_with_cons_ne; done. Qed.

Lemma entity_amp : entity "&" = "&amp;".
Proof. reflexivity. Qed.
Lemma entity_lt : entity "<" = "&lt;".
Proof. reflexivity. Qed.
Lemma entity_gt : entity ">" = "&gt;".
Proof. reflexivity. Qed.
Lemma entity_quot : entity quot = "&quot;".
Proof. reflexivity. Qed.
Lemma entity_apos : entity "'" = "&apos;".
Proof. reflexivity. Qed.

Ltac entities := rewrite ?entity_amp, ?entity_lt, ?entity_gt, ?entity_quot, ?entity_apos.

Lemma entity_plain c : c ∉ special -> entity c = String c "".
Proof.
  unfold special, entity. rewrite !not_elem_of_cons. intros (? & ? & ? & ? & ? & _).
  by rewrite !bool_decide_eq_false_2.
Qed.

(** One pass of [decodeXmlEntities]: the entity of [x] is decoded wherever
    it stands, and nothing else changes. *)
Lemma decode_pass x decoded text :
  x ∈ special -> x ∉ decoded -> "&"%char ∉ decoded ->
  replace_all (entity x) (String x "") (render decoded text) = render (x :: decoded) text.
Proof.
  intros Hx Hnew Hamp. unfold replace_all.
  induction text as [|c rest IH]; [done|].
  cbn [render]. rewrite <- IH. clear IH.
  generalize (render decoded rest) as tail. intros tail.
  unfold partly.
  destruct (decide (c ∈ decoded)) as [Hc|Hc].
  { rewrite (bool_decide_eq_true_2 (c ∈ decoded)) by done.
    rewrite (bool_decide_eq_true_2 (c ∈ x :: decoded)) by by apply list_elem_of_further.
    assert (c <> "&"%char) by (by intros ->).
    unfold special in Hx. rewrite !elem_of_cons in Hx.
    destruct Hx as [->|[->|[->|[->|[->|Hx]]]]]; [..|by apply elem_of_nil in Hx];
      entities; scan; done. }
  rewrite (bool_decide_eq_false_2 (c ∈ decoded)) by done.
  destruct (decide (c ∈ special)) as [Hs|Hs].
  2:{ rewrite (bool_decide_eq_false_2 (c ∈ x :: decoded)).
      2:{ intros [->|?]%elem_of_cons; done. }
      rewrite (entity_plain c Hs).
      assert (c <> "&"%char).
      { intros ->. apply Hs. unfold special. set_solver. }
      unfold special in Hx. rewrite !elem_of_cons in Hx.
      destruct Hx as [->|[->|[->|[->|[->|Hx]]]]]; [..|by apply elem_of_nil in Hx];
        entities; scan; done. }
  unfold special in Hx, Hs. rewrite !elem_of_cons in Hx, Hs.
  destruct Hx as [->|[->|[->|[->|[->|Hx]]]]]; [..|by apply elem_of_nil in Hx];
    destruct Hs as [->|[->|[->|[->|[->|Hs]]]]]; try (by apply elem_of_nil in Hs);
    first [ rewrite (bool_decide_eq_true_2 (_ ∈ _ :: decoded)) by apply list_elem_of_here
          | rewrite (bool_decide_eq_false_2 (_ ∈ _ :: decoded))
              by (intros [?|?]%elem_of_cons; done) ];
    entities; scan; done.
Qed.

Lemma render_none text : render [] text = xml_escape text.
Proof.
  induction text as [|c rest IH]; [done|]. cbn. rewrite IH. unfold partly.
  by rewrite bool_decide_eq_false_2 by apply not_elem_of_nil.
Qed.

Lemma render_all text :
  render ["&"%char; "'"%char; quot; ">"%char; "<"%char] text = text.
Proof.
  induction text as [|c rest IH]; [done|]. cbn. rewrite IH. unfold partly.
  case_bool_decide as Hc; [done|].
  rewrite entity_plain; [done|]. unfold special. set_solver.
Qed.

(** X13. [decodeXmlEntities] undoes the escaping of XML text: a text
    whose ampersands, angle brackets and quotes were written as entities is
    given back as it was.  The ampersand is decoded last, so that the text of
    an entity that was itself escaped is not decoded twice. *)
Theorem decodeXmlEntities_unescapes (text : string) :
  decodeXmlEntities (xml_escape text) = text.
Proof.
  unfold decodeXmlEntities. rewrite <- render_none.
  rewrite (decode_pass "<" []); [|unfold special; set_solver|set_solver..].
  rewrite (decode_pass ">" ["<"%char]); [|unfold special; set_solver|set_solver..].
  rewrite (decode_pass quot [">"%char; "<"%char]); [|unfold special; set_solver|set_solver..].
  rewrite (decode_pass "'" [quot; ">"%char; "<"%char]);
    [|unfold special; set_solver|set_solver..].
  rewrite (decode_pass "&" ["'"%char; quot; ">"%char; "<"%char]);
    [|unfold special; set_solver|set_solver..].
  apply render_all.
Qed.

Example decodeXmlEntities_escaped_entity :
  decodeXmlEntities "a &amp;lt; b &lt; c" = "a &lt; b < c".
Proof. reflexivity. Qed.

End ExtractionFacts.

(** ** The directory synchronizer *)

Module DirectoryFacts.
Import Directory.

(** *** The traversal *)

Lemma visit_children_spec children visited results queue results' queue' :
  visit_children children visited results queue = (results', queue') ->
  (forall dept, dept ∈ results' -> dept ∈ results \/ dept ∈ children)
  /\ (forall x, x ∈ queue' ->
                x ∈ queue \/ exists dept, dept ∈ children /\ department_id dept = x).
Proof.
  revert results queue. induction children as [|dept rest IH]; intros results queue H.
  - inversion H; subst. split; auto.
  - cbn [visit_children] in H.
    destruct (bool_decide (department_id dept = "")).
    + destruct (IH _ _ H) as [H1 H2]. split.
      * intros d Hd. destruct (H1 d Hd) as [?|?]; [by left|right; by apply list_elem_of_further].
      * intros x Hx. destruct (H2 x Hx) as [?|(d & Hd & ?)]; [by left|].
        right. exists d. split; [by apply list_elem_of_further|done].
    + destruct (IH _ _ H) as [H1 H2]. split.
      * intros d Hd. destruct (H1 d Hd) as [[?| ->%list_elem_of_singleton]%elem_of_app|?].
        -- by left.
        -- right. apply list_elem_of_here.
        -- right. by apply list_elem_of_further.
      * intros x Hx. destruct (H2 x Hx) as [Hq|(d & Hd & ?)].
        -- destruct (bool_decide (department_id dept ∈ visited)).
           ++ by left.
           ++ apply elem_of_app in Hq as [?| ->%list_elem_of_singleton]; [by left|].
              right. exists dept. split; [apply list_elem_of_here|done].
        -- right. exists d. split; [by apply list_elem_of_further|done].
Qed.

Lemma traverse_more_fuel pl fuel queue visited results out :
  traverse fuel pl queue visited results = Some out ->
  traverse (S fuel) pl queue visited results = Some out.
Proof.
  revert queue visited results. induction fuel as [|fuel IH]; intros queue visited results H;
    [done|].
  cbn [traverse] in *. destruct queue as [|p queue']; [done|].
  destruct (bool_decide (p = "") || bool_decide (p ∈ visited)); [by apply IH|].
  destruct (children_of pl p) as [children|e]; [|done].
  destruct (visit_children _ _ _ _). by apply IH.
Qed.

Lemma traverse_fuel_le pl fuel fuel' queue visited results out :
  (fuel <= fuel')%nat ->
  traverse fuel pl queue visited results = Some out ->
  traverse fuel' pl queue visited results = Some out.
Proof.
  induction 1 as [|fuel' _ IH]; [done|]. intros H. by apply traverse_more_fuel, IH.
Qed.

(** With a closed listing the traversal ends without a throw, and what it
    answers was there at the start or was listed. *)
Lemma traverse_terminates pl root universe :
  closed_listing pl root universe ->
  forall n visited queue results,
    (size (list_to_set (root :: universe) ∖ visited : gset string) <= n)%nat ->
    (forall x, x ∈ queue -> x ∈ root :: universe) ->
    exists fuel out,
      traverse fuel pl queue visited results = Some (Ok out)
      /\ forall dept, dept ∈ out -> dept ∈ results \/ listed pl root universe dept.
Proof.
  intros Hclosed. induction n as [n IHn] using lt_wf_ind.
  intros visited queue. induction queue as [|p queue IHq]; intros results Hsize Hqueue.
  - exists 1%nat, results. split; [done|]. by left.
  - destruct (bool_decide (p = "") || bool_decide (p ∈ visited)) eqn:Hskip.
    + destruct (IHq results Hsize) as (fuel & out & Ht & Hout).
      { intros x Hx. apply Hqueue. by apply list_elem_of_further. }
      exists (S fuel), out. cbn [traverse]. by rewrite Hskip.
    + pose proof Hskip as Hskip'.
      apply orb_false_iff in Hskip' as [_ Hvis]. apply bool_decide_eq_false in Hvis.
      assert (Hp : p ∈ root :: universe) by apply Hqueue, list_elem_of_here.
      destruct (Hclosed p Hp) as (children & Hch & Hids).
      destruct (visit_children children ({[p]} ∪ visited) results queue)
        as [results' queue''] eqn:Hv.
      destruct (visit_children_spec _ _ _ _ _ _ Hv) as [Hres Hq].
      assert (Hlt : (size (list_to_set (root :: universe) ∖ ({[p]} ∪ visited) : gset string)
                     < size (list_to_set (root :: universe) ∖ visited : gset string))%nat).
      { apply subset_size. apply strict_spec_alt. split; [set_solver|].
        intros Heq. assert (p ∈ (list_to_set (root :: universe) ∖ visited : gset string)) as Hin.
        { apply elem_of_difference. split; [by apply elem_of_list_to_set|done]. }
        rewrite <- Heq in Hin. set_solver. }
      destruct (IHn (size (list_to_set (root :: universe) ∖ ({[p]} ∪ visited) : gset string))
                  ltac:(lia) ({[p]} ∪ visited) queue'' results')
        as (fuel & out & Ht & Hout); [lia| |].
      { intros x Hx. destruct (Hq x Hx) as [?|(d & Hd & <-)].
        - apply Hqueue. by apply list_elem_of_further.
        - apply list_elem_of_further. by apply Hids. }
      exists (S fuel), out. cbn [traverse].
      rewrite Hskip, Hch, Hv. split; [done|].
      intros dept Hd. destruct (Hout dept Hd) as [Hr|?]; [|by right].
      destruct (Hres dept Hr) as [?|?]; [by left|].
      right. by exists p, children.
Qed.

Lemma count_where_none {A : Type} (p : A -> bool) (rows : list A) :
  (forall r, r ∈ rows -> p r = false) -> Store.count_where p rows = 0%nat.
Proof.
  unfold Store.count_where. induction rows as [|r rs IH]; intros H; [done|].
  cbn. rewrite (H r) by apply list_elem_of_here.
  apply IH. intros r' Hr'. apply H. by apply list_elem_of_further.
Qed.

Lemma existsb_none {A : Type} (p : A -> bool) (rows : list A) :
  (forall r, r ∈ rows -> p r = false) -> existsb p rows = false.
Proof.
  induction rows as [|r rs IH]; intros H; [done|].
  cbn. rewrite (H r) by apply list_elem_of_here.
  apply IH. intros r' Hr'. apply H. by apply list_elem_of_further.
Qed.

(** C9. Let the listings of the traversal answer, and answer departments
    of a finite [universe] that does not hold the root id: the listings
    never yield the root.  If the direct fetch of the root throws, then
    [fetchAllDepartments] returns (with enough fuel, and with any more)
    without a throw; its answer is the placeholder of the root, named
    [Root Department], followed by the departments of the traversal, none
    of which has the root id, so that exactly one entry has the root id; and
    the error went to the error sink. *)
Theorem fetchAllDepartments_root_fallback (pl : Platform) (root : string)
    (universe : list string) (e : string) :
  closed_listing pl root universe ->
  root ∉ universe ->
  getDepartment pl root = Throw e ->
  exists fuel results,
    (forall fuel', (fuel <= fuel')%nat ->
        fetchAllDepartments fuel' pl root
        = Some (Ok (placeholder_root root :: results,
                    ["[lark] failed fetching root department: " +:+ e])))
    /\ name (placeholder_root root) = Some "Root Department"
    /\ (forall dept, dept ∈ results -> department_id dept <> root)
    /\ Store.count_where (is_department root) (placeholder_root root :: results) = 1%nat.
Proof.
  intros Hclosed Hroot Hget.
  destruct (traverse_terminates pl root universe Hclosed
              (size (list_to_set (root :: universe) ∖ ∅ : gset string)) ∅ [root] [])
    as (fuel & out & Ht & Hout); [lia| |].
  { intros x ->%list_elem_of_singleton. apply list_elem_of_here. }
  assert (Hids : forall dept, dept ∈ out -> department_id dept <> root).
  { intros dept Hd. destruct (Hout dept Hd) as [?%elem_of_nil|(p & cs & Hp & Hcs & Hin)]; [done|].
    destruct (Hclosed p Hp) as (cs' & Hcs' & Hu). rewrite Hcs in Hcs'. injection Hcs' as <-.
    intros Heq. apply Hroot. rewrite <- Heq. by apply Hu. }
  assert (Hnone : forall dept, dept ∈ out -> is_department root dept = false).
  { intros dept Hd. apply bool_decide_eq_false. by apply Hids. }
  exists fuel, out. split; [|split; [done|split; [done|]]].
  - intros fuel' Hle. unfold fetchAllDepartments.
    rewrite (traverse_fuel_le pl fuel fuel' _ _ _ _ Hle Ht).
    unfold with_root. by rewrite (existsb_none _ _ Hnone), Hget.
  - unfold Store.count_where. cbn [List.filter].
    unfold is_department at 1. cbn [placeholder_root department_id].
    rewrite bool_decide_eq_true_2 by done. cbn [length]. f_equal.
    by apply count_where_none.
Qed.

Example root_fallback_run :
  fetchAllDepartments 4 (example_platform (fun _ => None)) "0"
  = Some (Ok ([placeholder_root "0"; example_department "d1" "0";
               example_department "d3" "d1"],
              ["[lark] failed fetching root department: no permission"])).
Proof. vm_compute. reflexivity. Qed.

Lemma example_closed_listing :
  closed_listing (example_platform (fun _ => None)) "0" ["d1"; "d3"].
Proof.
  intros p Hp. cbn [children_of example_platform].
  destruct (bool_decide (p = "0")).
  { eexists. split; [done|]. intros dept ->%list_elem_of_singleton. set_solver. }
  destruct (bool_decide (p = "d1")).
  { eexists. split; [done|]. intros dept ->%list_elem_of_singleton. set_solver. }
  eexists. split; [done|]. by intros dept ?%elem_of_nil.
Qed.

Lemma fetchAllDepartments_root_fallback_witness :
  exists fuel results,
    fetchAllDepartments fuel (example_platform (fun _ => None)) "0"
    = Some (Ok (placeholder_root "0" :: results,
                ["[lark] failed fetching root department: no permission"])).
Proof.
  destruct (fetchAllDepartments_root_fallback (example_platform (fun _ => None)) "0"
              ["d1"; "d3"] "no permission")
    as (fuel & results & Hrun & _).
  - apply example_closed_listing.
  - set_solver.
  - reflexivity.
  - exists fuel, results. by apply Hrun.
Defined.

(** *** The write phase *)

Lemma slices_concat {T : Type} (fuel : nat) (rows : list T) (size : nat) :
  (0 < size)%nat -> (length rows <= fuel)%nat -> concat (slices fuel rows size) = rows.
Proof.
  intros Hsize. revert rows. induction fuel as [|fuel IH]; intros rows Hlen.
  - destruct rows; [done|cbn in Hlen; lia].
  - cbn [slices]. destruct rows as [|x rows]; [done|].
    cbn [concat]. rewrite IH.
    + apply take_drop.
    + rewrite length_drop. cbn [length] in *. lia.
Qed.

Lemma chunkRows_concat {T : Type} (rows : list T) (size : nat) :
  (0 < size)%nat -> concat (chunkRows rows size) = rows.
Proof.
  intros Hsize. unfold chunkRows. destruct (Nat.leb _ _).
  - cbn. apply app_nil_r.
  - by apply slices_concat.
Qed.

Lemma apply_all_app stmts1 stmts2 db :
  apply_all (stmts1 ++ stmts2) db
  = match apply_all stmts1 db with
    | Ok db1 => apply_all stmts2 db1
    | Throw e => Throw e
    end.
Proof.
  revert db. induction stmts1 as [|stmt rest IH]; intros db; [done|].
  cbn. destruct (stmt db); [apply IH|done].
Qed.

(** Inside a transaction the statements work on the working copy and leave
    what is committed alone. *)
Lemma execute_all_in_tx pl stmts c d out c' :
  tx c = Some d ->
  execute_all pl stmts c = (out, c') ->
  committed c' = committed c
  /\ (out = Ok tt -> exists d', tx c' = Some d' /\ apply_all stmts d = Ok d').
Proof.
  revert c d. induction stmts as [|stmt rest IH]; intros c d Htx H.
  - inversion H; subst. split; [done|]. intros _. by exists d.
  - cbn [execute_all] in H. unfold execute in H. rewrite Htx in H.
    destruct (statement_fails pl (statements c)).
    { inversion H; subst. split; [done|intros [=]]. }
    destruct (stmt d) as [d1|e] eqn:Hs.
    2:{ inversion H; subst. split; [done|intros [=]]. }
    cbn in H. destruct (IH {| committed := committed c; tx := Some d1;
                              statements := S (statements c) |} d1 eq_refl H) as [Hc Hok].
    split; [done|]. intros ->. destruct (Hok eq_refl) as (d' & Htx' & Ha).
    exists d'. split; [done|]. cbn. by rewrite Hs.
Qed.

(** The transaction as a whole: all the statements, or nothing. *)
Lemma in_transaction_spec pl t deps us rels db out db' :
  in_transaction pl t deps us rels db = (out, db') ->
  match out with
  | Throw _ => db' = db
  | Ok _ => apply_all (write_statements pl t deps us rels) db = Ok db'
  end.
Proof.
  unfold in_transaction. destruct (getConnection_fails pl).
  { intros H. by inversion H. }
  unfold write_phase, beginTransaction.
  destruct (begin_fails pl).
  { intros H. by inversion H. }
  cbn [committed statements].
  destruct (execute_all pl _ _) as [[[]|e] c2] eqn:He;
    destruct (execute_all_in_tx pl _ {| committed := db; tx := Some db; statements := 0 |}
                db _ _ eq_refl He) as [Hc Hok].
  - destruct (Hok eq_refl) as (d' & Htx & Ha).
    unfold commit. destruct (commit_fails pl).
    + intros H. inversion H; subst. done.
    + intros H. inversion H; subst. by rewrite Htx.
  - intros H. inversion H; subst. done.
Qed.

Lemma same_department_true v r :
  same_department v r = true <->
  DeptRow.tenant_key r = DeptRow.tenant_key v
  /\ DeptRow.department_id r = DeptRow.department_id v.
Proof. unfold same_department. by rewrite andb_true_iff, !bool_decide_eq_true. Qed.

Lemma same_user_true v r :
  same_user v r = true <->
  UserRow.tenant_key r = UserRow.tenant_key v /\ UserRow.user_key r = UserRow.user_key v.
Proof. unfold same_user. by rewrite andb_true_iff, !bool_decide_eq_true. Qed.

(** Upserts keep every row in its place, as it was or replaced by a row of
    the batch with its key. *)
Lemma fold_upsert_department_frame batch rows i r :
  rows !! i = Some r ->
  exists r',
    fold_left upsert_department batch rows !! i = Some r'
    /\ (r' = r \/ (r' ∈ batch /\ same_department r' r = true)).
Proof.
  revert rows r. induction batch as [|v rest IH]; intros rows r Hi.
  - exists r. split; [done|by left].
  - cbn [fold_left]. unfold upsert_department at 2.
    destruct (StoreFacts.upsert_frame_dup (same_department v) (fun _ => v) v rows i r Hi)
      as [H|[Hdup H]].
    + destruct (IH _ r H) as (r' & Hr' & [->|[Hin Hs]]).
      * exists r. split; [done|by left].
      * exists r'. split; [done|]. right. split; [by apply list_elem_of_further|done].
    + destruct (IH _ v H) as (r' & Hr' & [->|[Hin Hs]]).
      * exists v. split; [done|]. right. split; [apply list_elem_of_here|done].
      * exists r'. split; [done|]. right. split; [by apply list_elem_of_further|].
        apply same_department_true in Hs as [? ?], Hdup as [? ?].
        apply same_department_true. split; congruence.
Qed.

Lemma fold_upsert_user_frame batch rows i r :
  rows !! i = Some r ->
  exists r',
    fold_left upsert_user batch rows !! i = Some r'
    /\ (r' = r \/ (r' ∈ batch /\ same_user r' r = true)).
Proof.
  revert rows r. induction batch as [|v rest IH]; intros rows r Hi.
  - exists r. split; [done|by left].
  - cbn [fold_left]. unfold upsert_user at 2.
    destruct (StoreFacts.upsert_frame_dup (same_user v) (fun _ => v) v rows i r Hi)
      as [H|[Hdup H]].
    + destruct (IH _ r H) as (r' & Hr' & [->|[Hin Hs]]).
      * exists r. split; [done|by left].
      * exists r'. split; [done|]. right. split; [by apply list_elem_of_further|done].
    + destruct (IH _ v H) as (r' & Hr' & [->|[Hin Hs]]).
      * exists v. split; [done|]. right. split; [apply list_elem_of_here|done].
      * exists r'. split; [done|]. right. split; [by apply list_elem_of_further|].
        apply same_user_true in Hs as [? ?], Hdup as [? ?].
        apply same_user_true. split; congruence.
Qed.

Lemma insert_relations_Ok batch rows rows' :
  insert_relations batch rows = Ok rows' -> rows' = rows ++ batch.
Proof.
  revert rows. induction batch as [|v rest IH]; intros rows H.
  - inversion H. by rewrite app_nil_r.
  - cbn [insert_relations] in H. destruct (existsb _ rows); [done|].
    rewrite (IH _ H). by rewrite <- app_assoc.
Qed.

(** The statements of one kind, run batch after batch, amount to one
    statement on all the rows. *)
Lemma apply_department_batches chunks db db' :
  apply_all (map stmt_upsert_departments chunks) db = Ok db' ->
  orgDepartment db' = fold_left upsert_department (concat chunks) (orgDepartment db)
  /\ orgUser db' = orgUser db
  /\ orgUserDepartmentRel db' = orgUserDepartmentRel db.
Proof.
  revert db. induction chunks as [|chunk rest IH]; intros db H.
  - by inversion H.
  - cbn [map apply_all] in H. unfold stmt_upsert_departments at 1 in H.
    destruct chunk as [|v chunk]; [done|].
    destruct (IH _ H) as (H1 & H2 & H3). cbn [orgDepartment orgUser orgUserDepartmentRel] in *.
    split; [|done]. rewrite H1. cbn [concat]. by rewrite fold_left_app.
Qed.

Lemma apply_user_batches chunks db db' :
  apply_all (map stmt_upsert_users chunks) db = Ok db' ->
  orgUser db' = fold_left upsert_user (concat chunks) (orgUser db)
  /\ orgDepartment db' = orgDepartment db
  /\ orgUserDepartmentRel db' = orgUserDepartmentRel db.
Proof.
  revert db. induction chunks as [|chunk rest IH]; intros db H.
  - by inversion H.
  - cbn [map apply_all] in H. unfold stmt_upsert_users at 1 in H.
    destruct chunk as [|v chunk]; [done|].
    destruct (IH _ H) as (H1 & H2 & H3). cbn [orgDepartment orgUser orgUserDepartmentRel] in *.
    split; [|done]. rewrite H1. cbn [concat]. by rewrite fold_left_app.
Qed.

Lemma apply_relation_batches chunks db db' :
  apply_all (map stmt_insert_relations chunks) db = Ok db' ->
  orgUserDepartmentRel db' = orgUserDepartmentRel db ++ concat chunks
  /\ orgDepartment db' = orgDepartment db
  /\ orgUser db' = orgUser db.
Proof.
  revert db. induction chunks as [|chunk rest IH]; intros db H.
  - inversion H. by rewrite app_nil_r.
  - cbn [map apply_all] in H. unfold stmt_insert_relations at 1 in H.
    destruct chunk as [|v chunk]; [done|].
    destruct (insert_relations (v :: chunk) (orgUserDepartmentRel db)) as [rows|e] eqn:Hi;
      [|done].
    apply insert_relations_Ok in Hi.
    destruct (IH _ H) as (H1 & H2 & H3). cbn [orgDepartment orgUser orgUserDepartmentRel] in *.
    split; [|done]. rewrite H1, Hi. cbn [concat]. by rewrite <- app_assoc.
Qed.

Lemma department_part pl t deps db db' :
  apply_all
    (match deps with
     | [] => []
     | _ =>
         map stmt_upsert_departments
           (chunkRows
              (List.filter (fun r => negb (bool_decide (DeptRow.department_id r = "")))
                           (map (department_row pl t) deps))
              WRITE_BATCH_SIZE)
     end) db = Ok db' ->
  orgUser db' = orgUser db
  /\ orgUserDepartmentRel db' = orgUserDepartmentRel db
  /\ forall i r,
       orgDepartment db !! i = Some r ->
       exists r', orgDepartment db' !! i = Some r' /\ department_kept pl t deps r r'.
Proof.
  intros H.
  assert (Hempty : forall d : DirDb, Ok d = Ok db' ->
             orgUser db' = orgUser d /\ orgUserDepartmentRel db' = orgUserDepartmentRel d
             /\ forall i r, orgDepartment d !! i = Some r ->
                  exists r', orgDepartment db' !! i = Some r'
                             /\ department_kept pl t deps r r').
  { intros d [= <-]. do 2 (split; [done|]). intros i r Hi. exists r. split; [done|by left]. }
  destruct deps as [|dept0 deps0]; [by apply Hempty|].
  set (deps := dept0 :: deps0) in *.
  apply apply_department_batches in H as (Hd & Hu & Hr).
  do 2 (split; [done|]). intros i r Hi.
  rewrite chunkRows_concat in Hd by (unfold WRITE_BATCH_SIZE; lia).
  destruct (fold_upsert_department_frame
              (List.filter (fun r => negb (bool_decide (DeptRow.department_id r = "")))
                           (map (department_row pl t) deps))
              (orgDepartment db) i r Hi) as (r' & Hr' & Hcase).
  exists r'. split; [by rewrite Hd|].
  destruct Hcase as [->|[Hin Hsame]]; [by left|]. right.
  apply list_elem_of_In, filter_In in Hin as [Hin _].
  apply in_map_iff in Hin as (dept & <- & Hdept).
  apply same_department_true in Hsame as [Ht Hid]. cbn in Ht, Hid.
  split; [done|]. exists dept. by rewrite list_elem_of_In.
Qed.

Lemma user_part pl t us db db' :
  apply_all
    (match us with
     | [] => []
     | _ => map stmt_upsert_users (chunkRows (map (user_row pl t) us) WRITE_BATCH_SIZE)
     end) db = Ok db' ->
  orgDepartment db' = orgDepartment db
  /\ orgUserDepartmentRel db' = orgUserDepartmentRel db
  /\ forall i r,
       orgUser db !! i = Some r ->
       exists r', orgUser db' !! i = Some r' /\ user_kept pl t us r r'.
Proof.
  intros H.
  assert (Hempty : forall d : DirDb, Ok d = Ok db' ->
             orgDepartment db' = orgDepartment d
             /\ orgUserDepartmentRel db' = orgUserDepartmentRel d
             /\ forall i r, orgUser d !! i = Some r ->
                  exists r', orgUser db' !! i = Some r' /\ user_kept pl t us r r').
  { intros d [= <-]. do 2 (split; [done|]). intros i r Hi. exists r. split; [done|by left]. }
  destruct us as [|entry0 us0]; [by apply Hempty|].
  set (us := entry0 :: us0) in *.
  apply apply_user_batches in H as (Hu & Hd & Hr).
  do 2 (split; [done|]). intros i r Hi.
  rewrite chunkRows_concat in Hu by (unfold WRITE_BATCH_SIZE; lia).
  destruct (fold_upsert_user_frame (map (user_row pl t) us) (orgUser db) i r Hi)
    as (r' & Hr' & Hcase).
  exists r'. split; [by rewrite Hu|].
  destruct Hcase as [->|[Hin Hsame]]; [by left|]. right.
  apply list_elem_of_In, in_map_iff in Hin as (entry & <- & Hentry).
  apply same_user_true in Hsame as [Ht Hid]. destruct entry as [key user]. cbn in Ht, Hid.
  split; [done|]. exists (key, user). by rewrite list_elem_of_In.
Qed.

Lemma relation_part t rels db db' :
  apply_all
    (match rels with
     | [] => []
     | _ => map stmt_insert_relations
                (chunkRows (map (relation_row t) rels) WRITE_BATCH_SIZE)
     end) db = Ok db' ->
  orgDepartment db' = orgDepartment db
  /\ orgUser db' = orgUser db
  /\ orgUserDepartmentRel db' = orgUserDepartmentRel db ++ map (relation_row t) rels.
Proof.
  intros H. destruct rels as [|rel0 rels0].
  - injection H as <-. by rewrite app_nil_r.
  - apply apply_relation_batches in H as (Hr & Hd & Hu).
    rewrite chunkRows_concat in Hr by (unfold WRITE_BATCH_SIZE; lia). done.
Qed.

Lemma filter_deleted {A : Type} (p : A -> bool) (rows : list A) :
  List.filter p (Store.delete_where p rows) = [].
Proof.
  unfold Store.delete_where. induction rows as [|r rs IH]; [done|].
  cbn. destruct (p r) eqn:E; cbn; [done|by rewrite E].
Qed.

Lemma filter_relation_rows t rels :
  List.filter (of_tenant t) (map (relation_row t) rels) = map (relation_row t) rels.
Proof.
  induction rels as [|rel rels IH]; [done|].
  cbn [map List.filter]. unfold of_tenant at 1. cbn [relation_row RelRow.tenant_key].
  rewrite bool_decide_eq_true_2 by done. by rewrite IH.
Qed.

(** What the statements of the write phase, all run, make of the tables. *)
Lemma write_statements_spec pl t deps us rels db db' :
  apply_all (write_statements pl t deps us rels) db = Ok db' ->
  orgUserDepartmentRel db'
  = Store.delete_where (of_tenant t) (orgUserDepartmentRel db) ++ map (relation_row t) rels
  /\ relations_of t db' = map (relation_row t) rels
  /\ (forall i r,
        orgDepartment db !! i = Some r ->
        exists r', orgDepartment db' !! i = Some r' /\ department_kept pl t deps r r')
  /\ (forall i r,
        orgUser db !! i = Some r ->
        exists r', orgUser db' !! i = Some r' /\ user_kept pl t us r r').
Proof.
  unfold write_statements. rewrite apply_all_app.
  destruct (apply_all _ db) as [d1|] eqn:H1; [|done].
  rewrite apply_all_app.
  destruct (apply_all _ d1) as [d2|] eqn:H2; [|done].
  rewrite apply_all_app. cbn [apply_all stmt_delete_relations].
  intros H3.
  apply department_part in H1 as (H1u & H1r & H1d).
  apply user_part in H2 as (H2d & H2r & H2u).
  apply relation_part in H3 as (H3d & H3u & H3r).
  cbn [orgDepartment orgUser orgUserDepartmentRel] in *.
  assert (Hrel : orgUserDepartmentRel db'
                 = Store.delete_where (of_tenant t) (orgUserDepartmentRel db)
                   ++ map (relation_row t) rels).
  { by rewrite H3r, H2r, H1r. }
  split; [done|]. split.
  { unfold relations_of. rewrite Hrel, List.filter_app, filter_deleted, filter_relation_rows. done. }
  split.
  - intros i r Hi. rewrite H3d, H2d. by apply H1d.
  - intros i r Hi. rewrite H3u. apply H2u. by rewrite H1u.
Qed.


Example snapshot_replaced :
  summary (runLarkDirectorySync 4 (example_platform (fun _ => None)) example_account
             example_db)
  = Some (Ok tt, ["d1"; "d2"; "0"; "d3"], [("u1", "d3", true)]).
Proof. vm_compute. reflexivity. Qed.

Example snapshot_rolled_back :
  runLarkDirectorySync 4
    (example_platform (fun n => if Nat.eqb n 2 then Some "lock wait timeout" else None))
    example_account example_db
  = Some (Throw "lock wait timeout", example_db).
Proof. vm_compute. reflexivity. Qed.



(** *** Batches *)

Lemma slices_length {T : Type} (fuel : nat) (rows : list T) (size : nat) (c : list T) :
  (0 < size)%nat -> c ∈ slices fuel rows size -> (0 < length c <= size)%nat.
Proof.
  intros Hsize. revert rows. induction fuel as [|fuel IH]; intros rows Hc.
  - by apply elem_of_nil in Hc.
  - cbn [slices] in Hc. destruct rows as [|x rows]; [by apply elem_of_nil in Hc|].
    apply elem_of_cons in Hc as [->|Hc]; [|by eapply IH].
    rewrite length_take. cbn [length]. lia.
Qed.

Lemma slices_full {T : Type} (fuel : nat) (rows : list T) (size : nat) (i : nat)
    (c : list T) :
  (0 < size)%nat ->
  slices fuel rows size !! i = Some c ->
  (S i < length (slices fuel rows size))%nat ->
  length c = size.
Proof.
  intros Hsize. revert rows i. induction fuel as [|fuel IH]; intros rows i Hc Hi; [done|].
  cbn [slices] in *. destruct rows as [|x rows]; [done|].
  destruct i as [|i].
  - injection Hc as <-. rewrite length_take.
    cbn [length] in Hi.
    destruct fuel as [|fuel']; [cbn in Hi; lia|].
    cbn [slices] in Hi.
    destruct (drop size (x :: rows)) as [|y rest] eqn:Hd; [cbn in Hi; lia|].
    assert (length (drop size (x :: rows)) <> 0)%nat as Hlen by (rewrite Hd; done).
    rewrite length_drop in Hlen. lia.
  - cbn in Hc. cbn [length] in Hi. eapply IH; [exact Hc|lia].
Qed.

(** X14. [chunkRows] cuts a list into batches of at most [size] rows
    that, put end to end, give the list back; every batch but the last is
    full; and a list that is not empty gives no empty batch, while the empty
    list gives one empty batch. *)
Theorem chunkRows_batches {T : Type} (rows : list T) (size : nat) :
  (0 < size)%nat ->
  concat (chunkRows rows size) = rows
  /\ (forall c, c ∈ chunkRows rows size -> (length c <= size)%nat)
  /\ (forall i c,
        chunkRows rows size !! i = Some c ->
        (S i < length (chunkRows rows size))%nat ->
        length c = size)
  /\ (rows <> [] -> forall c, c ∈ chunkRows rows size -> c <> [])
  /\ chunkRows (@nil T) size = [[]].
Proof.
  intros Hsize. split; [by apply chunkRows_concat|].
  unfold chunkRows. destruct (Nat.leb (length rows) size) eqn:Hle.
  - apply Nat.leb_le in Hle. repeat split.
    + by intros c ->%list_elem_of_singleton.
    + intros i c _ Hi. cbn in Hi. lia.
    + by intros Hne c ->%list_elem_of_singleton.
  - repeat split.
    + intros c Hc. by apply (slices_length _ _ _ _ Hsize) in Hc as [_ ?].
    + intros i c. by apply slices_full.
    + intros _ c Hc ->. apply (slices_length _ _ _ _ Hsize) in Hc. cbn in Hc. lia.
Qed.

Lemma chunkRows_batches_witness :
  chunkRows [1; 2; 3; 4; 5] 2 = [[1; 2]; [3; 4]; [5]]
  /\ concat (chunkRows [1; 2; 3; 4; 5] 2) = [1; 2; 3; 4; 5].
Proof.
  split; [reflexivity|].
  apply (chunkRows_batches [1; 2; 3; 4; 5] 2). lia.
Defined.

(** *** The members of the departments *)

Lemma has_key_true key users : has_key key users = true <-> key ∈ map fst users.
Proof.
  unfold has_key. induction users as [|[k u] users IH]; cbn.
  - split; [discriminate|by intros ?%elem_of_nil].
  - rewrite orb_true_iff, bool_decide_eq_true, elem_of_cons, IH. naive_solver.
Qed.

Lemma add_members_sound pl ds dept members users relations users' relations' :
  dept ∈ ds -> department_id dept <> "" ->
  sound_members pl ds users relations ->
  add_members pl (department_id dept) members users relations = (users', relations') ->
  sound_members pl ds users' relations'.
Proof.
  intros Hdept Hne. revert users relations.
  induction members as [|member rest IH]; intros users relations Hs H.
  - by inversion H; subst.
  - cbn [add_members] in H.
    destruct (resolveLarkUserKey pl member) as [key|] eqn:Hkey; [|by eapply IH].
    eapply IH; [|exact H]. clear H IH.
    destruct Hs as (Hnd & Hown & Hrel).
    assert (Hin : key ∈ map fst (if has_key key users then users
                                 else users ++ [(key, member)])).
    { destruct (has_key key users) eqn:E; [by apply has_key_true|].
      rewrite map_app. apply elem_of_app. right. apply list_elem_of_here. }
    split; [|split].
    + destruct (has_key key users) eqn:E; [done|].
      rewrite map_app. apply NoDup_app. split; [done|]. split; [|apply NoDup_singleton].
      cbn. intros x Hx ->%list_elem_of_singleton.
      apply has_key_true in Hx. congruence.
    + intros k u Hku. destruct (has_key key users); [by apply Hown|].
      apply elem_of_app in Hku as [Hku|Hku]; [by apply Hown|].
      apply list_elem_of_singleton in Hku. by injection Hku as -> ->.
    + intros rel [Hr|Hr]%elem_of_app.
      * destruct (Hrel rel Hr) as (Hk & Hd & Hex). split; [|done].
        destruct (has_key key users); [done|].
        rewrite map_app. apply elem_of_app. by left.
      * apply list_elem_of_singleton in Hr. subst rel. cbn.
        split; [done|]. split; [done|]. by exists dept.
Qed.

Lemma fetch_users_sound pl ds rank departments users relations errors
    users' relations' errors' :
  (forall dept, dept ∈ departments -> dept ∈ ds) ->
  sound_members pl ds users relations ->
  fetch_users pl rank departments users relations errors = (users', relations', errors') ->
  sound_members pl ds users' relations'
  /\ (length errors' <= length errors + length departments)%nat.
Proof.
  revert rank users relations errors.
  induction departments as [|dept rest IH]; intros rank users relations errors Hsub Hs H.
  - inversion H; subst. split; [done|cbn; lia].
  - assert (Hrest : forall d, d ∈ rest -> d ∈ ds).
    { intros d Hd. apply Hsub. by apply list_elem_of_further. }
    cbn [fetch_users] in H. cbn [length].
    destruct (bool_decide (department_id dept = "")) eqn:E.
    { destruct (IH _ _ _ _ Hrest Hs H) as [? ?]. split; [done|lia]. }
    apply bool_decide_eq_false in E.
    destruct (members_of pl rank (department_id dept)) as [members|e].
    + destruct (add_members pl (department_id dept) members users relations)
        as [users1 relations1] eqn:Ha.
      destruct (IH _ _ _ _ Hrest
                  (add_members_sound pl ds dept members users relations users1 relations1
                     (Hsub dept (list_elem_of_here _ _)) E Hs Ha) H) as [? ?].
      split; [done|lia].
    + destruct (IH _ _ _ _ Hrest Hs H) as [? Hlen]. split; [done|].
      rewrite length_app in Hlen. cbn in Hlen. lia.
Qed.

(** X15. What [fetchUsersForDepartments] answers is consistent: no
    user key is held twice by the user map, every user is held under the key
    that [resolveLarkUserKey] gives it, and every relation names a user of
    the map and a department of the list walked, whose id is not empty.  A
    listing that throws costs one line to the error sink, never more than
    one per department. *)
Theorem fetchUsersForDepartments_consistent (pl : Platform)
    (departments : list LarkDepartment) :
  let '(users, relations, errors) := fetchUsersForDepartments pl departments in
  NoDup (map fst users)
  /\ (forall k u, (k, u) ∈ users -> resolveLarkUserKey pl u = Some k)
  /\ (forall rel, rel ∈ relations ->
        userKey rel ∈ map fst users
        /\ departmentId rel <> ""
        /\ exists dept, dept ∈ departments /\ department_id dept = departmentId rel)
  /\ (length errors <= length departments)%nat.
Proof.
  destruct (fetchUsersForDepartments pl departments) as [[users relations] errors] eqn:H.
  unfold fetchUsersForDepartments in H.
  destruct (fetch_users_sound pl departments 0 departments [] [] [] users relations errors)
    as [(Hnd & Hown & Hrel) Hlen]; [done| |done|].
  { split; [constructor|]. split; [by intros k u ?%elem_of_nil|by intros rel ?%elem_of_nil]. }
  done.
Qed.

(** *** The unique keys along the write phase *)

Lemma same_relation_true v r :
  same_relation v r = true <-> relation_key r = relation_key v.
Proof.
  unfold same_relation, relation_key.
  rewrite !andb_true_iff, !bool_decide_eq_true. split.
  - intros [[H1 H2] H3]. by rewrite H1, H2, H3.
  - intros [= H1 H2 H3]. done.
Qed.

Lemma existsb_same_relation v rows :
  existsb (same_relation v) rows = true <-> relation_key v ∈ map relation_key rows.
Proof.
  induction rows as [|r rows IH]; cbn [existsb map].
  - split; [discriminate|by intros ?%elem_of_nil].
  - rewrite orb_true_iff, elem_of_cons. rewrite IH. rewrite same_relation_true.
    split; (intros [H|H]; [left; by symmetry|by right]).
Qed.

(** A plain insert that succeeds brought in rows with keys that are new and
    differ from one another. *)
Lemma insert_relations_fresh batch rows rows' :
  insert_relations batch rows = Ok rows' ->
  NoDup (map relation_key batch)
  /\ forall v, v ∈ batch -> relation_key v ∉ map relation_key rows.
Proof.
  revert rows. induction batch as [|v rest IH]; intros rows H.
  - split; [constructor|by intros v ?%elem_of_nil].
  - cbn [insert_relations] in H.
    destruct (existsb (same_relation v) rows) eqn:E; [done|].
    assert (Hv : relation_key v ∉ map relation_key rows).
    { intros Hin. apply existsb_same_relation in Hin. congruence. }
    destruct (IH _ H) as [Hnd Hfresh]. split.
    + cbn. constructor; [|done].
      intros (v' & Hk & Hv')%list_elem_of_fmap.
      apply (Hfresh v' Hv'). rewrite map_app. apply elem_of_app. right.
      rewrite <- Hk. apply list_elem_of_here.
    + intros v' [->|Hv']%elem_of_cons; [done|].
      intros Hin. apply (Hfresh v' Hv'). rewrite map_app. apply elem_of_app. by left.
Qed.

Lemma relation_batches_fresh chunks db db' :
  apply_all (map stmt_insert_relations chunks) db = Ok db' ->
  NoDup (map relation_key (concat chunks))
  /\ forall v, v ∈ concat chunks ->
               relation_key v ∉ map relation_key (orgUserDepartmentRel db).
Proof.
  revert db. induction chunks as [|chunk rest IH]; intros db H.
  - split; [constructor|by intros v ?%elem_of_nil].
  - cbn [map apply_all] in H. unfold stmt_insert_relations at 1 in H.
    destruct chunk as [|v chunk]; [done|].
    destruct (insert_relations (v :: chunk) (orgUserDepartmentRel db)) as [rows|e] eqn:Hi;
      [|done].
    destruct (insert_relations_fresh _ _ _ Hi) as [Hnd Hfresh].
    apply insert_relations_Ok in Hi. subst rows.
    destruct (IH _ H) as [Hnd' Hfresh']. cbn [orgUserDepartmentRel] in Hfresh'.
    cbn [concat]. split.
    + rewrite map_app. apply NoDup_app. split; [done|]. split; [|done].
      intros k Hk (v' & -> & Hv')%list_elem_of_fmap.
      apply (Hfresh' v' Hv'). rewrite map_app. apply elem_of_app. by right.
    + intros v' [Hv'|Hv']%elem_of_app; [by apply Hfresh|].
      intros Hin. apply (Hfresh' v' Hv'). rewrite map_app. apply elem_of_app. by left.
Qed.

Lemma relation_rows_keys t rels :
  map relation_key (map (relation_row t) rels)
  = map (fun m : string * string => (t, m.1, m.2)) (map membership rels).
Proof. rewrite !map_map. by apply map_ext. Qed.

(** The write phase goes through only if no membership was collected
    twice. *)
Lemma write_statements_memberships pl t deps us rels db db' :
  apply_all (write_statements pl t deps us rels) db = Ok db' ->
  NoDup (map membership rels).
Proof.
  unfold write_statements. rewrite apply_all_app.
  destruct (apply_all _ db) as [d1|] eqn:H1; [|done].
  rewrite apply_all_app.
  destruct (apply_all _ d1) as [d2|] eqn:H2; [|done].
  rewrite apply_all_app. cbn [apply_all stmt_delete_relations].
  intros H3. destruct rels as [|rel0 rels0]; [constructor|].
  apply relation_batches_fresh in H3 as [Hnd _].
  rewrite chunkRows_concat in Hnd by (unfold WRITE_BATCH_SIZE; lia).
  rewrite relation_rows_keys in Hnd.
  by apply (NoDup_fmap_1 (fun m : string * string => (t, m.1, m.2))) in Hnd.
Qed.

(** X16. When the relations collected from the platform hold the
    same membership twice (the same user in the same department, as happens
    when the traversal yields a department twice), the plain insert of the
    relations meets the unique key of the relation table: the run throws, and
    the transaction is rolled back, so that the tables are as they were. *)
Theorem runLarkDirectorySync_duplicate_membership (fuel : nat) (pl : Platform)
    (account : Account) (db : DirDb) (s : Snapshot) :
  directorySync account ≫= enabled <> Some false ->
  fetch_snapshot fuel pl account = Some (Ok s) ->
  ~ NoDup (map membership (relations s)) ->
  exists e, runLarkDirectorySync fuel pl account db = Some (Throw e, db).
Proof.
  intros Hon Hs Hdup. unfold runLarkDirectorySync.
  rewrite bool_decide_eq_false_2 by done. rewrite Hs.
  destruct (in_transaction _ _ _ _ _ db) as [[[]|e] db'] eqn:Hrun;
    apply in_transaction_spec in Hrun.
  - by apply write_statements_memberships in Hrun.
  - subst db'. by exists e.
Qed.

Example duplicate_membership_run :
  runLarkDirectorySync 5 example_platform_twice example_account example_db
  = Some (Throw "Duplicate entry", example_db).
Proof. vm_compute. reflexivity. Qed.

Lemma runLarkDirectorySync_duplicate_membership_witness :
  exists e,
    runLarkDirectorySync 5 example_platform_twice example_account example_db
    = Some (Throw e, example_db).
Proof.
  destruct (fetch_snapshot 5 example_platform_twice example_account) as [[s|e]|] eqn:Hs;
    [|vm_compute in Hs; discriminate..].
  apply (runLarkDirectorySync_duplicate_membership 5 example_platform_twice
           example_account example_db s); [discriminate|exact Hs|].
  vm_compute in Hs. injection Hs as <-. cbn.
  intros Hnd. apply NoDup_cons in Hnd as [Hin _]. apply Hin. apply list_elem_of_here.
Defined.

(** An upsert whose update clause rewrites every column outside the key:
    the row of the key becomes the inserted row. *)
Section Replace.
Context {A K : Type} `{EqDecision K}.
Variable key : A -> K.
Variable same : A -> A -> bool.
Hypothesis same_key : forall v r, same v r = true <-> key r = key v.

Abbreviation upsert rows v :=
  (Store.insert_on_duplicate_key_update (same v) (fun _ => v) v rows).
Abbreviation upsert_all batch rows :=
  (fold_left (fun rows v => upsert rows v) batch rows).

Lemma replace_keys v rows :
  map key (upsert rows v)
  = if existsb (same v) rows then map key rows else map key rows ++ [key v].
Proof.
  induction rows as [|r rows IH]; [done|]. cbn.
  destruct (same v r) eqn:E; cbn.
  - apply same_key in E. by rewrite E.
  - rewrite IH. by destruct (existsb (same v) rows).
Qed.

Lemma replace_existsb v rows : existsb (same v) rows = true <-> key v ∈ map key rows.
Proof.
  induction rows as [|r rows IH]; cbn [existsb map].
  - split; [discriminate|by intros ?%elem_of_nil].
  - rewrite orb_true_iff, elem_of_cons. rewrite IH. rewrite same_key.
    split; (intros [H'|H']; [left; by symmetry|by right]).
Qed.

Lemma replace_NoDup v rows :
  NoDup (map key rows) -> NoDup (map key (upsert rows v)).
Proof.
  intros Hnd. rewrite replace_keys.
  destruct (existsb (same v) rows) eqn:E; [done|].
  apply NoDup_app. split; [done|]. split; [|apply NoDup_singleton].
  intros x Hx ->%list_elem_of_singleton. apply replace_existsb in Hx. congruence.
Qed.

Lemma replace_present v rows : v ∈ upsert rows v.
Proof.
  induction rows as [|r rows IH]; cbn.
  - apply list_elem_of_here.
  - destruct (same v r); [apply list_elem_of_here|by apply list_elem_of_further].
Qed.

Lemma replace_other v rows x :
  x ∈ rows -> key x <> key v -> x ∈ upsert rows v.
Proof.
  intros Hx Hne. induction rows as [|r rows IH]; [by apply elem_of_nil in Hx|]. cbn.
  destruct (same v r) eqn:E.
  - apply elem_of_cons in Hx as [->|Hx]; [|by apply list_elem_of_further].
    apply same_key in E. done.
  - apply elem_of_cons in Hx as [->|Hx]; [apply list_elem_of_here|].
    apply list_elem_of_further. by apply IH.
Qed.

Lemma fold_replace_NoDup batch rows :
  NoDup (map key rows) -> NoDup (map key (upsert_all batch rows)).
Proof.
  revert rows. induction batch as [|v batch IH]; intros rows Hnd; [done|].
  cbn [fold_left]. apply IH. by apply replace_NoDup.
Qed.

(** After the rows of a batch were upserted in turn, the key of each holds
    a row of the batch. *)
Lemma fold_replace_present batch rows v :
  v ∈ batch ->
  exists x, x ∈ upsert_all batch rows /\ key x = key v /\ x ∈ batch.
Proof.
  intros Hv.
  apply list_elem_of_split in Hv as (l1 & l2 & ->).
  rewrite fold_left_app. cbn [fold_left].
  assert (Hgen : forall rest rows0 (P : A -> Prop),
            (exists x, x ∈ rows0 /\ key x = key v /\ P x) ->
            (forall x, x ∈ rest -> P x) ->
            exists x, x ∈ upsert_all rest rows0 /\ key x = key v /\ P x).
  { induction rest as [|v' rest IH]; intros rows0 P Hx HP; [done|].
    cbn [fold_left]. apply IH.
    - destruct Hx as (x & Hin & Hk & Hb).
      destruct (decide (key x = key v')) as [Heq|Hne].
      + exists v'. split; [apply replace_present|]. split; [congruence|].
        apply HP, list_elem_of_here.
      + exists x. split; [by apply replace_other|done].
    - intros x Hx'. apply HP. by apply list_elem_of_further. }
  apply Hgen.
  - exists v. split; [apply replace_present|]. split; [done|].
    apply elem_of_app. right. apply list_elem_of_here.
  - intros x Hx. apply elem_of_app. right. by apply list_elem_of_further.
Qed.

End Replace.

Lemma same_department_key v r :
  same_department v r = true <-> department_key r = department_key v.
Proof.
  rewrite same_department_true. unfold department_key. split.
  - by intros [-> ->].
  - by intros [= -> ->].
Qed.

Lemma same_user_key v r : same_user v r = true <-> user_key r = user_key v.
Proof.
  rewrite same_user_true. unfold user_key. split.
  - by intros [-> ->].
  - by intros [= -> ->].
Qed.

Lemma department_table pl t deps db db' :
  apply_all
    (match deps with
     | [] => []
     | _ => map stmt_upsert_departments
                (chunkRows (department_rows_sent pl t deps) WRITE_BATCH_SIZE)
     end) db = Ok db' ->
  orgDepartment db'
  = fold_left upsert_department (department_rows_sent pl t deps) (orgDepartment db).
Proof.
  intros H. destruct deps as [|dept deps]; [by injection H as <-|].
  apply apply_department_batches in H as (H & _ & _).
  by rewrite chunkRows_concat in H by (unfold WRITE_BATCH_SIZE; lia).
Qed.

Lemma user_table pl t us db db' :
  apply_all
    (match us with
     | [] => []
     | _ => map stmt_upsert_users (chunkRows (map (user_row pl t) us) WRITE_BATCH_SIZE)
     end) db = Ok db' ->
  orgUser db' = fold_left upsert_user (map (user_row pl t) us) (orgUser db).
Proof.
  intros H. destruct us as [|u us]; [by injection H as <-|].
  apply apply_user_batches in H as (H & _ & _).
  by rewrite chunkRows_concat in H by (unfold WRITE_BATCH_SIZE; lia).
Qed.

Lemma write_statements_tables pl t deps us rels db db' :
  apply_all (write_statements pl t deps us rels) db = Ok db' ->
  orgDepartment db'
  = fold_left upsert_department (department_rows_sent pl t deps) (orgDepartment db)
  /\ orgUser db' = fold_left upsert_user (map (user_row pl t) us) (orgUser db).
Proof.
  unfold write_statements. rewrite apply_all_app.
  destruct (apply_all _ db) as [d1|] eqn:H1; [|done].
  rewrite apply_all_app.
  destruct (apply_all _ d1) as [d2|] eqn:H2; [|done].
  rewrite apply_all_app. cbn [apply_all stmt_delete_relations].
  intros H3.
  pose proof (department_table _ _ _ _ _ H1) as Hd.
  pose proof (user_table _ _ _ _ _ H2) as Hu.
  apply department_part in H1 as (H1u & H1r & _).
  apply user_part in H2 as (H2d & H2r & _).
  apply relation_part in H3 as (H3d & H3u & _).
  cbn [orgDepartment orgUser orgUserDepartmentRel] in *.
  split; [by rewrite H3d, H2d|by rewrite H3u, Hu, H1u].
Qed.

Lemma department_row_name pl t dept :
  department_id dept <> "" -> DeptRow.name (department_row pl t dept) <> "".
Proof.
  intros Hid. cbn.
  destruct (name dept) as [n|]; cbn; [|done].
  destruct (bool_decide (trim pl n = "")) eqn:E; cbn; [done|].
  by apply bool_decide_eq_false in E.
Qed.

(** X17. A run that succeeds keeps the unique keys of the three tables:
    if no two department rows, user rows or relation rows shared their key
    before, none do after.  And what was reported is stored: the key of every
    department reported with an id holds the row of a department of the
    report with that id, whose name is not empty, and every user of the
    report has its row under its key. *)
Theorem runLarkDirectorySync_keeps_unique_keys (fuel : nat) (pl : Platform)
    (account : Account) (db db' : DirDb) :
  directorySync account ≫= enabled <> Some false ->
  runLarkDirectorySync fuel pl account db = Some (Ok tt, db') ->
  (NoDup (map department_key (orgDepartment db)) ->
   NoDup (map department_key (orgDepartment db')))
  /\ (NoDup (map user_key (orgUser db)) -> NoDup (map user_key (orgUser db')))
  /\ (NoDup (map relation_key (orgUserDepartmentRel db)) ->
      NoDup (map relation_key (orgUserDepartmentRel db')))
  /\ exists s,
       fetch_snapshot fuel pl account = Some (Ok s)
       /\ (forall dept,
             dept ∈ departments s -> department_id dept <> "" ->
             exists dept',
               dept' ∈ departments s
               /\ department_id dept' = department_id dept
               /\ department_row pl (accountId account) dept' ∈ orgDepartment db'
               /\ DeptRow.name (department_row pl (accountId account) dept') <> "")
       /\ (forall entry,
             entry ∈ users s -> user_row pl (accountId account) entry ∈ orgUser db').
Proof.
  intros Hon. unfold runLarkDirectorySync.
  rewrite bool_decide_eq_false_2 by done.
  destruct (fetch_snapshot fuel pl account) as [[s|e]|] eqn:Hs; [|done..].
  intros [= Hrun]. apply in_transaction_spec in Hrun.
  set (t := accountId account) in *.
  pose proof (write_statements_tables _ _ _ _ _ _ _ Hrun) as [Hd Hu].
  pose proof (write_statements_memberships _ _ _ _ _ _ _ Hrun) as Hm.
  pose proof (write_statements_spec _ _ _ _ _ _ _ Hrun) as (Hr & _).
  split; [|split; [|split]].
  - intros Hnd. rewrite Hd.
    by apply (fold_replace_NoDup department_key same_department same_department_key).
  - intros Hnd. rewrite Hu.
    by apply (fold_replace_NoDup user_key same_user same_user_key).
  - intros Hnd. rewrite Hr, map_app. apply NoDup_app. split; [|split].
    + eapply sublist_NoDup; [exact Hnd|]. unfold Store.delete_where.
      apply ResourceFacts.filter_fmap_sublist.
    + intros k (r & -> & Hr1)%list_elem_of_fmap (r2 & Hk & Hr2)%list_elem_of_fmap.
      apply list_elem_of_In, filter_In in Hr1 as [_ Hr1].
      apply list_elem_of_fmap in Hr2 as (rel & -> & _).
      unfold of_tenant in Hr1. apply negb_true_iff, bool_decide_eq_false in Hr1.
      apply Hr1. by injection Hk.
    + rewrite relation_rows_keys. apply NoDup_fmap_2; [|done].
      by intros [a b] [a' b'] [= -> ->].
  - exists s. split; [done|]. split.
    + intros dept Hdept Hid.
      assert (Hsent : department_row pl t dept ∈ department_rows_sent pl t (departments s)).
      { apply list_elem_of_In, filter_In. split.
        - apply in_map. by apply list_elem_of_In.
        - cbn. by rewrite bool_decide_eq_false_2. }
      destruct (fold_replace_present department_key same_department same_department_key
                  _ (orgDepartment db) _ Hsent) as (x & Hx & Hk & Hb).
      apply list_elem_of_In, filter_In in Hb as [Hb _].
      apply in_map_iff in Hb as (dept' & <- & Hdept').
      exists dept'. split; [by apply list_elem_of_In|].
      assert (Hsame : department_id dept' = department_id dept) by by injection Hk.
      split; [done|]. split; [by rewrite Hd|].
      apply department_row_name. by rewrite Hsame.
    + intros entry Hentry.
      assert (Hsent : user_row pl t entry ∈ map (user_row pl t) (users s)).
      { apply list_elem_of_In, in_map. by apply list_elem_of_In. }
      destruct (fold_replace_present user_key same_user same_user_key
                  _ (orgUser db) _ Hsent) as (x & Hx & Hk & Hb).
      apply list_elem_of_In, in_map_iff in Hb as (entry' & <- & Hentry').
      apply list_elem_of_In in Hentry'.
      assert (entry' = entry) as ->; [|by rewrite Hu].
      unfold fetch_snapshot in Hs.
      destruct (fetchAllDepartments fuel pl _) as [[[deps errs]|]|]; [|done..].
      destruct (fetchUsersForDepartments pl deps) as [[us rels] errs2] eqn:Hf.
      injection Hs as <-. cbn [users] in *.
      unfold fetchUsersForDepartments in Hf.
      destruct (fetch_users_sound pl deps 0 deps [] [] [] us rels errs2)
        as [(Hnd & _) _]; [done| |done|].
      { split; [constructor|].
        split; [by intros k u ?%elem_of_nil|by intros rel ?%elem_of_nil]. }
      destruct entry as [k u], entry' as [k' u'].
      assert (k' = k) as -> by by injection Hk.
      apply list_elem_of_lookup in Hentry as [i Hi].
      apply list_elem_of_lookup in Hentry' as [j Hj].
      assert (i = j) as ->; [|congruence].
      eapply NoDup_lookup; [exact Hnd|..].
      * by rewrite list_lookup_fmap, Hi.
      * by rewrite list_lookup_fmap, Hj.
Qed.

Lemma runLarkDirectorySync_keeps_unique_keys_witness :
  exists db',
    runLarkDirectorySync 4 (example_platform (fun _ => None)) example_account example_db
    = Some (Ok tt, db')
    /\ NoDup (map department_key (orgDepartment db')).
Proof.
  destruct (runLarkDirectorySync 4 (example_platform (fun _ => None)) example_account
              example_db) as [[[[]|e] db']|] eqn:Hrun;
    [|vm_compute in Hrun; discriminate..].
  exists db'. split; [done|].
  apply (runLarkDirectorySync_keeps_unique_keys 4 (example_platform (fun _ => None))
           example_account example_db db'); [discriminate|exact Hrun|].
  vm_compute. apply NoDup_cons. split; [|apply NoDup_singleton].
  intros H%list_elem_of_singleton. discriminate.
Defined.

(** *** The traversal on any closed listing *)

Lemma visit_children_ids children visited results queue results' queue' :
  visit_children children visited results queue = (results', queue') ->
  (forall dept, dept ∈ results -> department_id dept <> "") ->
  forall dept, dept ∈ results' -> department_id dept <> "".
Proof.
  revert results queue. induction children as [|c rest IH]; intros results queue H Hall.
  - by inversion H; subst.
  - cbn [visit_children] in H.
    destruct (bool_decide (department_id c = "")) eqn:E; [by eapply IH|].
    apply bool_decide_eq_false in E. eapply IH; [exact H|].
    intros dept [Hd|Hd]%elem_of_app; [by apply Hall|].
    apply list_elem_of_singleton in Hd. by subst.
Qed.

Lemma traverse_ids pl fuel queue visited results out :
  traverse fuel pl queue visited results = Some (Ok out) ->
  (forall dept, dept ∈ results -> department_id dept <> "") ->
  forall dept, dept ∈ out -> department_id dept <> "".
Proof.
  revert queue visited results.
  induction fuel as [|fuel IH]; intros queue visited results H Hall; [done|].
  cbn [traverse] in H. destruct queue as [|p queue]; [by inversion H; subst|].
  destruct (bool_decide (p = "") || bool_decide (p ∈ visited)); [by eapply IH|].
  destruct (children_of pl p) as [children|e]; [|done].
  destruct (visit_children children _ results queue) as [results' queue'] eqn:Hv.
  eapply IH; [exact H|]. by eapply visit_children_ids.
Qed.

(** X18. Whatever the shape of the listings (a department may be
    listed under several parents, and a listing may name the root or an
    ancestor), if they stay within a finite set of departments the traversal
    comes to an end and [fetchAllDepartments] answers, with enough fuel and
    with any more.  Every department of the answer was yielded by a listing,
    and then its id is not empty, or is what the direct fetch of the root
    answered, or is the placeholder of the root; at most one line goes to
    the error sink. *)
Theorem fetchAllDepartments_terminates (pl : Platform) (root : string)
    (universe : list string) :
  closed_listing pl root universe ->
  exists fuel,
    forall fuel', (fuel <= fuel')%nat ->
      exists deps errs,
        fetchAllDepartments fuel' pl root = Some (Ok (deps, errs))
        /\ (forall dept, dept ∈ deps ->
              (listed pl root universe dept /\ department_id dept <> "")
              \/ getDepartment pl root = Ok (Some dept)
              \/ dept = placeholder_root root)
        /\ (length errs <= 1)%nat.
Proof.
  intros Hclosed.
  destruct (traverse_terminates pl root universe Hclosed
              (size (list_to_set (root :: universe) ∖ ∅ : gset string)) ∅ [root] [])
    as (fuel & out & Ht & Hout); [lia| |].
  { intros x ->%list_elem_of_singleton. apply list_elem_of_here. }
  assert (Hids : forall dept, dept ∈ out -> department_id dept <> "").
  { eapply traverse_ids; [exact Ht|]. by intros dept ?%elem_of_nil. }
  assert (Hlisted : forall dept, dept ∈ out ->
            listed pl root universe dept /\ department_id dept <> "").
  { intros dept Hd. split; [|by apply Hids].
    destruct (Hout dept Hd) as [?%elem_of_nil|?]; done. }
  exists fuel. intros fuel' Hle. unfold fetchAllDepartments.
  rewrite (traverse_fuel_le pl fuel fuel' _ _ _ _ Hle Ht).
  destruct (with_root pl root out) as [deps errs] eqn:Hw.
  exists deps, errs. split; [done|].
  unfold with_root in Hw.
  destruct (existsb (is_department root) out).
  { injection Hw as <- <-. split; [|cbn; lia]. intros dept Hd. left. by apply Hlisted. }
  destruct (getDepartment pl root) as [[dept0|]|e] eqn:Hg; injection Hw as <- <-.
  - split; [|cbn; lia]. intros dept [->|Hd]%elem_of_cons; [by right; left|].
    left. by apply Hlisted.
  - split; [|cbn; lia]. intros dept Hd. left. by apply Hlisted.
  - split; [|cbn; lia]. intros dept [->|Hd]%elem_of_cons; [by right; right|].
    left. by apply Hlisted.
Qed.

Lemma fetchAllDepartments_terminates_witness :
  exists fuel deps errs,
    fetchAllDepartments fuel (example_platform (fun _ => None)) "0" = Some (Ok (deps, errs)).
Proof.
  destruct (fetchAllDepartments_terminates (example_platform (fun _ => None)) "0"
              ["d1"; "d3"] example_closed_listing) as [fuel H].
  destruct (H fuel (le_n fuel)) as (deps & errs & Hrun & _).
  by exists fuel, deps, errs.
Defined.

End DirectoryFacts.

(** ** Paginated listings *)

Module LarkApiFacts.
Import LarkApi.

Lemma collect_follows {T : Type} (fetchPage : nat -> option string -> result (LarkPage T))
    pages last n pageToken collected fuel :
  follows fetchPage n pageToken pages last ->
  (length pages < fuel)%nat ->
  collect fuel fetchPage n pageToken collected
  = Some (match last with
          | Ok page => Ok (collected ++ concat (map items pages) ++ items page)
          | Throw e => Throw e
          end,
          (n + S (length pages))%nat).
Proof.
  revert n pageToken collected fuel.
  induction pages as [|page rest IH]; intros n pageToken collected fuel Hf Hfuel.
  - destruct fuel as [|fuel]; [cbn in Hfuel; lia|].
    destruct Hf as [Hlast Hend]. cbn [collect]. rewrite Hlast.
    destruct last as [page|e].
    + rewrite Hend. cbn. do 2 f_equal. lia.
    + cbn. do 2 f_equal. lia.
  - destruct fuel as [|fuel]; [cbn in Hfuel; lia|].
    destruct Hf as (Hpage & Hmore & Htoken & Hrest). cbn [collect].
    rewrite Hpage, Hmore, Htoken. cbn [andb].
    rewrite (IH _ _ _ _ Hrest) by (cbn in Hfuel; lia).
    cbn [length map concat]. do 2 f_equal.
    + destruct last; [|done]. by rewrite <- !app_assoc.
    + lia.
Qed.

(** X19. When the platform answers a listing by a chain of pages, each
    announcing more with a token, and then by a last page, [collectAllPages]
    answers the items of all the pages in the order of the pages, after one
    request per page; when it answers the last request by a throw,
    [collectAllPages] throws and the items of the pages before are lost. *)
Theorem collectAllPages_chain {T : Type}
    (fetchPage : nat -> option string -> result (LarkPage T))
    (pages : list (LarkPage T)) (last : result (LarkPage T)) (fuel : nat) :
  follows fetchPage 0 None pages last ->
  (length pages < fuel)%nat ->
  collectAllPages fuel fetchPage
  = Some (match last with
          | Ok page => Ok (concat (map items pages) ++ items page)
          | Throw e => Throw e
          end,
          S (length pages)).
Proof.
  intros Hf Hfuel. unfold collectAllPages.
  by rewrite (collect_follows fetchPage pages last 0 None [] fuel Hf Hfuel).
Qed.

Lemma collectAllPages_chain_witness :
  collectAllPages 5 example_fetchPage = Some (Ok ["d1"; "d2"; "d3"], 2%nat).
Proof.
  apply (collectAllPages_chain example_fetchPage
           [ {| items := ["d1"; "d2"]; hasMore := true; nextPageToken := Some "p2" |} ]
           (Ok {| items := ["d3"]; hasMore := false; nextPageToken := None |}) 5).
  - cbn. repeat split.
  - cbn. lia.
Defined.

End LarkApiFacts.

(** ** The stored directory read back *)

Module DirectoryStoreFacts.
Import Directory DirectoryStore.

Lemma names_app departments (p q : list string) :
  names departments (p ++ q) = names departments p ++ names departments q.
Proof. unfold names. by rewrite map_app. Qed.

Lemma linked_snoc departments (path : list string) (current parent : string) :
  linked departments path ->
  departments !! current ≫= parentDepartmentId = Some parent ->
  (path <> [] -> List.last path "" = parent) ->
  linked departments (path ++ [current]).
Proof.
  intros Hl Hp Hlast i p c Hi HSi.
  destruct (decide (S i < length path)%nat) as [Hlt|Hge].
  - rewrite lookup_app_l in Hi by lia. rewrite lookup_app_l in HSi by lia.
    by apply (Hl i).
  - assert (S i = length path) as Hlen.
    { apply lookup_lt_Some in HSi. rewrite length_app in HSi. cbn in HSi. lia. }
    rewrite lookup_app_r in HSi by lia.
    replace (S i - length path)%nat with 0%nat in HSi by lia.
    cbn in HSi. injection HSi as <-.
    rewrite lookup_app_l in Hi by lia.
    destruct path as [|x path] using rev_ind; [cbn in Hlen; lia|].
    rewrite length_app in Hlen. cbn in Hlen.
    rewrite lookup_app_r in Hi by lia.
    replace (i - length path)%nat with 0%nat in Hi by lia.
    cbn in Hi. injection Hi as ->.
    rewrite Hp. f_equal.
    rewrite <- Hlast; [by rewrite last_last|by destruct path].
Qed.

Lemma linked_nil departments : linked departments [].
Proof. intros i p c Hi. by rewrite lookup_nil in Hi. Qed.

Lemma chain_path (departments : gmap string OrgDepartment) :
  forall (fuel : nat) (current : string) (seen : gset string) (parts : list string),
    (size (dom departments ∖ seen) < fuel)%nat ->
    exists path : list string,
      chain fuel departments current seen parts = Some (names departments path ++ parts)
      /\ NoDup path
      /\ (forall id, id ∈ path -> id ∉ seen /\ is_Some (departments !! id))
      /\ linked departments path
      /\ (path <> [] -> List.last path "" = current)
      /\ (is_Some (departments !! current) -> current <> "" -> current ∉ seen ->
          path <> []).
Proof.
  induction fuel as [|fuel IH]; intros current seen parts Hfuel; [lia|].
  cbn [chain].
  destruct (decide (current = "")) as [Hempty|Hne].
  { rewrite (bool_decide_eq_true_2 _ Hempty). cbn.
    exists []. split_and!; [done|apply NoDup_nil_2| |apply linked_nil|done|done].
    intros id Hid. by apply elem_of_nil in Hid. }
  rewrite (bool_decide_eq_false_2 _ Hne). cbn [negb andb].
  destruct (decide (current ∈ seen)) as [Hseen|Hnew].
  { rewrite (bool_decide_eq_true_2 _ Hseen). cbn.
    exists []. split_and!; [done|apply NoDup_nil_2| |apply linked_nil|done|done].
    intros id Hid. by apply elem_of_nil in Hid. }
  rewrite (bool_decide_eq_false_2 _ Hnew). cbn [negb].
  destruct (departments !! current) as [dept|] eqn:Hdept.
  2:{ exists []. split_and!; [done|apply NoDup_nil_2| |apply linked_nil|done|].
      - intros id Hid. by apply elem_of_nil in Hid.
      - by intros [? ?]. }
  assert (forall id, id ∈ [current] -> id ∉ seen /\ is_Some (departments !! id)) as Hone.
  { intros id ->%list_elem_of_singleton. split; [done|]. by rewrite Hdept. }
  destruct (negb (truthy_string (parentDepartmentId dept))
            || bool_decide (parentDepartmentId dept = Some current)) eqn:Hstop.
  { exists [current]. unfold names. cbn [map app]. rewrite Hdept. cbn [fmap option_fmap option_map default].
    split_and!; [done|apply NoDup_singleton|done| |done|done].
    intros i p c Hi HSi. by destruct i. }
  apply orb_false_iff in Hstop as [Htruthy Hself].
  apply negb_false_iff in Htruthy.
  destruct (parentDepartmentId dept) as [parent|] eqn:Hparent; [|done].
  cbn [default].
  destruct (IH parent ({[current]} ∪ seen) (name dept :: parts))
    as (path & Hrun & Hnodup & Hin & Hlinked & Hlast & _).
  { assert (dom departments ∖ ({[current]} ∪ seen) ⊂ dom departments ∖ seen) as Hsub.
    { assert (current ∈ dom departments) by (apply elem_of_dom; by rewrite Hdept).
      set_solver. }
    apply subset_size in Hsub. lia. }
  exists (path ++ [current]). unfold id. rewrite Hrun. unfold names. rewrite map_app.
  cbn [map]. rewrite Hdept. cbn [fmap option_fmap option_map default].
  rewrite <- app_assoc. cbn [app].
  split_and!.
  - done.
  - apply NoDup_app. split_and!; [done| |apply NoDup_singleton].
    intros id Hid ->%list_elem_of_singleton.
    apply Hin in Hid as [Hid _]. set_solver.
  - intros id [Hid|Hid]%elem_of_app; [|by apply Hone].
    apply Hin in Hid as [Hid Hs]. split; [set_solver|done].
  - apply (linked_snoc _ _ _ parent); [done| |done].
    rewrite Hdept. cbn. by rewrite Hparent.
  - intros _. by rewrite last_last.
  - intros _ _ _. by destruct path.
Qed.

(** X20. [buildDepartmentChain] returns on every map of departments,
    also when the parent links form a cycle, within one turn more than the
    map has departments: what it joins are the names of a path of stored
    departments, each the parent of the next, none listed twice, ending at
    the department asked for; it answers nothing exactly when the id asked
    for is empty or no department is stored under it. *)
Theorem buildDepartmentChain_terminates
    (departments : gmap string OrgDepartment) (start : string) (extra : nat) :
  exists path : list string,
    buildDepartmentChain (S (size departments) + extra) (Some start) departments
    = Some (if bool_decide (path = []) then None
            else Some (join " > " (names departments path)))
    /\ NoDup path
    /\ (forall k, k ∈ path -> is_Some (departments !! k))
    /\ linked departments path
    /\ (path <> [] -> List.last path "" = start)
    /\ (path = [] <-> start = "" \/ departments !! start = None)
    /\ (length path <= size departments)%nat.
Proof.
  unfold buildDepartmentChain.
  change (default "" (Some start)) with start. cbn [truthy_string].
  destruct (decide (start = "")) as [->|Hid].
  { exists []. cbn. split_and!; [done|apply NoDup_nil_2| |apply linked_nil|done| |lia].
    - intros k Hk. by apply elem_of_nil in Hk.
    - split; [by left|done]. }
  rewrite (bool_decide_eq_false_2 _ Hid). cbn [negb].
  destruct (chain_path departments (S (size departments) + extra) start ∅ [])
    as (path & Hrun & Hnodup & Hin & Hlinked & Hlast & Hsome).
  { rewrite difference_empty_L, size_dom. lia. }
  exists path. rewrite Hrun, app_nil_r.
  assert (forall k, k ∈ path -> is_Some (departments !! k)) as Hstored.
  { intros k Hk. by apply Hin in Hk as [_ Hk]. }
  split_and!; [|done|done|done|done| |].
  - unfold names. rewrite length_map.
    destruct path; [done|]. by rewrite bool_decide_eq_false_2.
  - split.
    + intros ->. right. apply eq_None_not_Some. intros Hs.
      by apply Hsome.
    + intros [->|Hnone]; [done|].
      destruct path as [|x path _] using rev_ind; [done|].
      assert (x = start) as ->.
      { rewrite <- Hlast; [by rewrite last_last|by destruct path]. }
      assert (is_Some (departments !! start)) as Hs.
      { apply Hstored, elem_of_app. right. by apply list_elem_of_singleton. }
      rewrite Hnone in Hs. by destruct Hs.
  - rewrite <- size_dom.
    rewrite <- (size_list_to_set (C := gset string) path) by done.
    apply subseteq_size. intros k Hk.
    apply elem_of_list_to_set in Hk. apply elem_of_dom. by apply Hstored.
Qed.

(** Two departments that name each other as parent. *)
Example buildDepartmentChain_cycle :
  buildDepartmentChain 3 (Some "a") example_cycle = Some (Some "Europe > Sales").
Proof. by vm_compute. Qed.

End DirectoryStoreFacts.

(** ** The store configuration *)

Module MySqlFacts.
Import MySql.

Lemma all_word_app (a b : string) :
  all_word (a +:+ b) = all_word a && all_word b.
Proof.
  induction a as [|c a IH]; [done|].
  change (String c a +:+ b) with (String c (a +:+ b)).
  cbn [all_word]. by rewrite IH, andb_assoc.
Qed.

Lemma normalizeTablePrefix_word (trim : string -> string) (raw : option string) :
  all_word (normalizeTablePrefix trim raw) = true.
Proof.
  unfold normalizeTablePrefix.
  destruct (truthy_string (trim <$> raw)); [|done]. cbn [negb].
  by destruct (all_word (default "" (trim <$> raw))) eqn:Hword.
Qed.

Lemma quoted_is_identifier (prefix name : string) :
  all_word prefix = true -> all_word name = true -> name <> "" ->
  quoted_identifier (quoted prefix name).
Proof.
  intros Hp Hn Hne. exists (prefix +:+ name). split_and!; [done| |].
  - destruct prefix; [done|]. done.
  - by rewrite all_word_app, Hp, Hn.
Qed.

Lemma length_append (a b : string) :
  String.length (a +:+ b) = (String.length a + String.length b)%nat.
Proof.
  induction a as [|c a IH]; [done|].
  change (String c a +:+ b) with (String c (a +:+ b)). cbn. by rewrite IH.
Qed.

Lemma append_inj_suffix (z : string) : forall x y : string, x +:+ z = y +:+ z -> x = y.
Proof.
  induction x as [|c x IH]; intros [|d y] H.
  - done.
  - apply (f_equal String.length) in H.
    change (String.length z = S (String.length (y +:+ z))) in H. rewrite length_append in H. lia.
  - apply (f_equal String.length) in H.
    change (S (String.length (x +:+ z)) = String.length z) in H. rewrite length_append in H. lia.
  - change (String c (x +:+ z) = String d (y +:+ z)) in H.
    injection H as -> H. f_equal. by apply IH.
Qed.

Lemma quoted_inj (prefix : string) : Inj (=) (=) (quoted prefix).
Proof.
  intros a b H. unfold quoted in H.
  apply (String.app_inj "`") in H.
  apply append_inj_suffix in H. by apply String.app_inj in H.
Qed.

(** X21. [resolveLarkMySqlContext] answers nothing exactly when the
    [mysql] block is missing or disabled, or its host, user or database is
    blank once trimmed.  Otherwise the host, user and database of the context
    are not empty, the pool has room for one connection at least, and,
    whatever the configured prefix, the fourteen table names are distinct
    names of word characters between backticks. *)
Theorem resolveLarkMySqlContext_safe (trim : string -> string)
    (cfg : option LarkMySqlConfig) :
  match resolveLarkMySqlContext trim cfg with
  | None =>
      exists blank : option string,
        default "" (trim <$> blank) = ""
        /\ (cfg = None
            \/ (cfg ≫= enabled) = Some false
            \/ (cfg ≫= host) = blank \/ (cfg ≫= user) = blank
            \/ (cfg ≫= database) = blank)
  | Some context =>
      (exists c, cfg = Some c /\ enabled c <> Some false)
      /\ Some (Resolved.host (config context)) = trim <$> (cfg ≫= host)
      /\ Some (Resolved.user (config context)) = trim <$> (cfg ≫= user)
      /\ Some (Resolved.database (config context)) = trim <$> (cfg ≫= database)
      /\ Resolved.host (config context) <> ""
      /\ Resolved.user (config context) <> ""
      /\ Resolved.database (config context) <> ""
      /\ 1 <= Resolved.connectionLimit (config context)
      /\ 0 <= Resolved.queueLimit (config context)
      /\ Forall quoted_identifier (table_list (tables context))
      /\ NoDup (table_list (tables context))
  end.
Proof.
  unfold resolveLarkMySqlContext, resolveLarkMySqlConfig.
  destruct cfg as [c|]; [|exists None; split; [done|by left]].
  cbn [mbind option_bind].
  case_bool_decide as Henabled.
  { exists None. split; [done|]. right. by left. }
  case_bool_decide as Hhost; cbn [orb].
  { exists (host c). split; [done|]. do 2 right. by left. }
  case_bool_decide as Huser; cbn [orb].
  { exists (user c). split; [done|]. do 3 right. by left. }
  case_bool_decide as Hdatabase; cbn [orb].
  { exists (database c). split; [done|]. do 4 right. done. }
  cbn [config tables Resolved.host Resolved.user Resolved.database
       Resolved.connectionLimit Resolved.queueLimit Resolved.tablePrefix].
  split_and!; try done; try lia.
  - by exists c.
  - by destruct (host c).
  - by destruct (user c).
  - by destruct (database c).
  - pose proof (normalizeTablePrefix_word trim (tablePrefix c)) as Hword.
    unfold table_list, buildTableNames.
    cbn [message chat user_table orgDepartment orgUser orgUserDepartmentRel
         imChat imChatMember messageResource contentExtraction memoryItem
         memoryEmbedding task kbDoc].
    repeat (apply Forall_cons; split;
            [by apply quoted_is_identifier|]).
    apply Forall_nil_2.
  - unfold table_list, buildTableNames.
    cbn [message chat user_table orgDepartment orgUser orgUserDepartmentRel
         imChat imChatMember messageResource contentExtraction memoryItem
         memoryEmbedding task kbDoc].
    set (prefix := normalizeTablePrefix trim (tablePrefix c)).
    change (NoDup (quoted prefix <$>
      [ "lark_message"; "lark_chat"; "lark_user"; "org_department"; "org_user";
        "org_user_department_rel"; "im_chat"; "im_chat_member";
        "message_resource"; "content_extraction"; "memory_item";
        "memory_embedding"; "task"; "kb_doc" ])).
    apply (NoDup_fmap_2 (quoted prefix) (Inj0 := quoted_inj prefix)).
    apply (bool_decide_unpack _). by vm_compute.
Qed.

(** A prefix that is not an identifier is dropped, and a connection limit
    of zero raised to one. *)
Example resolveLarkMySqlContext_example :
  (fun context =>
     (key context, message (tables context),
      Resolved.connectionLimit (config context), Resolved.password (config context)))
  <$> resolveLarkMySqlContext (fun s => s) (Some example_config)
  = Some ("db.local:3306/lark?user=lark:", "`lark_message`", 1, None).
Proof. by vm_compute. Qed.

End MySqlFacts.

(** ** The periodic directory synchronization *)

Module DirectoryServiceFacts.
Import DirectoryService.

Lemma run_one_run a s : one_run s -> one_run (run a s).
Proof.
  intros [Hnd Hin]. unfold run. case_bool_decide as Ha; [done|].
  split; cbn [running inFlight].
  - apply NoDup_app. split_and!; [done| |apply NoDup_singleton].
    intros x Hx ->%list_elem_of_singleton. by apply Ha, Hin.
  - intros b. rewrite elem_of_union, elem_of_singleton, elem_of_app,
      list_elem_of_singleton, Hin. tauto.
Qed.

Lemma run_intervals a s : intervals (run a s) = intervals s.
Proof. unfold run. by case_bool_decide. Qed.

Lemma start_account_one_run s a : one_run s -> one_run (start_account s a).
Proof.
  intros H. unfold start_account. destruct (eligible a); [|done].
  by apply (run_one_run (Directory.accountId (account a))) in H.
Qed.

Lemma start_account_slow s a : slow s -> slow (start_account s a).
Proof.
  intros H. unfold start_account. destruct (eligible a); [|done].
  intros i. cbn [intervals]. rewrite run_intervals.
  intros [Hi| ->%list_elem_of_singleton]%elem_of_app; [by apply H|].
  cbn. unfold intervalMs. lia.
Qed.

Lemma start_one_run accounts s : one_run s -> one_run (start accounts s).
Proof.
  unfold start. revert s. induction accounts as [|a l IH]; intros s H; [done|].
  cbn. by apply IH, start_account_one_run.
Qed.

Lemma start_slow accounts s : slow s -> slow (start accounts s).
Proof.
  unfold start. revert s. induction accounts as [|a l IH]; intros s H; [done|].
  cbn. by apply IH, start_account_slow.
Qed.

Lemma remove_first_elem a (l : list string) x :
  NoDup l -> x ∈ remove_first a l <-> x ∈ l /\ x <> a.
Proof.
  induction l as [|y l IH]; intros Hnd; cbn.
  - rewrite elem_of_nil. tauto.
  - apply NoDup_cons in Hnd as [Hy Hnd]. case_bool_decide as E.
    + subst y. rewrite elem_of_cons. split.
      * intros Hx. split; [by right|]. by intros ->.
      * by intros [[->|Hx] Hne].
    + rewrite !elem_of_cons, IH by done. split.
      * intros [->|[Hx Hne]]; [by split; [left|]|by split; [right|]].
      * intros [[->|Hx] Hne]; [by left|by right].
Qed.

Lemma remove_first_NoDup a (l : list string) : NoDup l -> NoDup (remove_first a l).
Proof.
  induction l as [|y l IH]; intros Hnd; [done|]. cbn.
  apply NoDup_cons in Hnd as [Hy Hnd]. case_bool_decide as E; [done|].
  apply NoDup_cons. split; [|by apply IH].
  rewrite remove_first_elem by done. tauto.
Qed.

Lemma run_settled_one_run a s : one_run s -> one_run (run_settled a s).
Proof.
  intros [Hnd Hin]. unfold run_settled. case_bool_decide as Ha; [|done].
  split; cbn [running inFlight].
  - by apply remove_first_NoDup.
  - intros b. rewrite elem_of_difference, elem_of_singleton, Hin,
      remove_first_elem by done. tauto.
Qed.

Lemma fire_one_run h s : one_run s -> one_run (fire h s).
Proof.
  intros H. unfold fire. destruct (List.find _ _) as [[[? a] ?]|]; [|done].
  by apply run_one_run.
Qed.

Lemma fire_intervals h s : intervals (fire h s) = intervals s.
Proof.
  unfold fire. destruct (List.find _ _) as [[[? a] ?]|]; [|done].
  apply run_intervals.
Qed.

Lemma run_settled_intervals a s : intervals (run_settled a s) = intervals s.
Proof. unfold run_settled. by case_bool_decide. Qed.

Lemma service_run_snoc events ev :
  service_run (events ++ [ev]) = service_step (service_run events) ev.
Proof. unfold service_run. by rewrite fold_left_app. Qed.

(** X22. As long as the directory service is not stopped, whatever
    accounts it is started with and however its timers fire and its runs
    settle, no account has two runs of [runLarkDirectorySync] at a time: an
    account is marked in flight exactly while its run has not settled, and a
    timer that fires starts a run only for an account that has none.  Every
    timer has a period of ten minutes at least. *)
Theorem directory_sync_runs_one_at_a_time (events : list ServiceEvent) :
  Forall (fun ev => ev <> Stop) events ->
  NoDup (running (service_run events))
  /\ (forall a, a ∈ inFlight (service_run events) <-> a ∈ running (service_run events))
  /\ (forall handle, running (fire handle (service_run events))
                     = running (service_run events)
                     \/ exists a, a ∉ running (service_run events)
                                  /\ running (fire handle (service_run events))
                                     = running (service_run events) ++ [a])
  /\ (forall i, i ∈ intervals (service_run events) -> 600000 <= i.2).
Proof.
  intros Hev.
  assert (one_run (service_run events) /\ slow (service_run events)) as [[Hnd Hin] Hslow].
  { induction events as [|ev events IH] using rev_ind.
    - split; [split; [apply NoDup_nil_2|]|].
      + intros a. cbn. by rewrite elem_of_empty, elem_of_nil.
      + intros i Hi. by apply elem_of_nil in Hi.
    - apply Forall_app in Hev as [Hev Hlast]. rewrite Forall_singleton in Hlast.
      destruct (IH Hev) as [H1 H2]. rewrite service_run_snoc.
      destruct ev as [accounts| |h|a]; cbn [service_step].
      + split; [by apply start_one_run|by apply start_slow].
      + done.
      + split; [by apply fire_one_run|]. unfold slow. by rewrite fire_intervals.
      + split; [by apply run_settled_one_run|]. unfold slow.
        by rewrite run_settled_intervals. }
  split_and!; [done|done| |done].
  intros h. unfold fire. destruct (List.find _ _) as [[[? a] ?]|]; [|by left].
  unfold run. case_bool_decide as Ha; [by left|].
  right. exists a. split; [by rewrite <- Hin|done].
Qed.

Lemma directory_sync_runs_one_at_a_time_witness :
  running (service_run [Start [example_service_account]; Fire 0; Settled "acct"; Fire 0])
  = ["acct"]
  /\ NoDup (running (service_run [Start [example_service_account]; Fire 0;
                                  Settled "acct"; Fire 0])).
Proof.
  split; [reflexivity|].
  apply (directory_sync_runs_one_at_a_time
           [Start [example_service_account]; Fire 0; Settled "acct"; Fire 0]).
  repeat (apply Forall_cons; split; [discriminate|]). apply Forall_nil_2.
Defined.

(** Stopped and started again while a run is on, the service starts a
    second run of the same account. *)
Example restart_overlaps :
  running (service_run [Start [example_service_account]; Stop;
                        Start [example_service_account]])
  = ["acct"; "acct"].
Proof. reflexivity. Qed.

End DirectoryServiceFacts.
